(** * pycse: integration of an ODE over a grid with event location, and
    numerical differentiation

    A shallow embedding of [odelay] (src/pycse.py, lines 55-201) and the
    properties of its control flow: the grid loop, the per-event sign test,
    the secant refinement loop with its 100-iteration cap, the direction
    policy and the terminal truncation.

    Numbers are IEEE 754 binary64 values (numpy's float64, which is what the
    event matrix [e] holds and what [odeint] returns), taken from the
    Standard Library's executable specification [SpecFloat] at precision 53
    and maximal exponent 1024.  Division by zero therefore yields an
    infinity or a NaN, as it does for numpy scalars.

    [scipy.integrate.odeint] and the user's right-hand side [func] are
    external: [odeint(func, y, [x1, x2], **kwargs)] is a parameter of the
    model, a function of [y], [x1] and [x2] that returns the last row of
    the solver's answer together with its success status; the event
    functions are functions too.  Every call of the solver is written to a
    log, as is the [print] of its diagnostic.  The one call of [func] that
    [odelay] makes itself (line 78, without the extra arguments that
    [args=] hands to [odeint]) is a parameter as well: it returns or it
    raises.  The keyword ['full_output'] is absent, true or false; when it
    is false, [odeint] returns its rows alone and reading
    [output['message']] raises.

    The list that the parameter [events] names is part of the store, and
    the function object holds the default list, so that what a call leaves
    in that list is what the next call finds.

    A Python list is a [list]; an index that Python refuses is an
    [IndexError], which ends the call.  The event matrix [e], a dense
    array that is only read and written inside its bounds, is a function
    of the two indices.

    Of the other functions of the file, [deriv] (lines 204-248) is embedded
    with its two difference schemes on one-dimensional arrays of float64:
    slices, indices, element-wise arithmetic and assignment to a slice
    follow numpy, with its IndexError and its ValueError for lengths that
    do not go together.  The method ['fft'] rests on [np.fft] and is a
    parameter; the integer wavenumbers it builds (lines 240-243) are
    embedded on their own.  [nlinfit] (lines 35-53) is embedded from the
    result of [curve_fit] on, with [t.ppf] and the power as parameters.
    [regress] (lines 6-33) consists of calls of [numpy.linalg] and
    [scipy.stats] and is left out. *)

From Stdlib Require Import ZArith List Bool Lia PeanoNat.
From Stdlib Require Import Floats.
From Stdlib Require String.
Import ListNotations.

Set Implicit Arguments.

(** ** binary64 arithmetic *)

Module F64.

Definition float := spec_float.

Definition prec : Z := 53.
Definition emax : Z := 1024.

Definition add : float -> float -> float := SFadd prec emax.
Definition sub : float -> float -> float := SFsub prec emax.
Definition mul : float -> float -> float := SFmul prec emax.
Definition div : float -> float -> float := SFdiv prec emax.
Definition opp : float -> float := SFopp.
Definition abs : float -> float := SFabs.

(** Python's [x < y] and [x > y] on floats; both are false on a NaN. *)
Definition lt (x y : float) : bool := SFltb x y.
Definition gt (x y : float) : bool := SFltb y x.

Definition zero : float := S754_zero false.

(** The binary64 value of a literal. *)
Definition lit (x : PrimFloat.float) : float := Prim2SF x.

Definition is_finite (x : float) : bool :=
  match x with
  | S754_zero _ | S754_finite _ _ _ => true
  | S754_infinity _ | S754_nan => false
  end.

Definition is_zero (x : float) : bool :=
  match x with
  | S754_zero _ => true
  | _ => false
  end.

Definition is_nan (x : float) : bool :=
  match x with
  | S754_nan => true
  | _ => false
  end.

(** The sign bit of a number that is not a NaN. *)
Definition sign (x : float) : bool :=
  match x with
  | S754_zero s | S754_infinity s | S754_finite s _ _ => s
  | S754_nan => false
  end.

End F64.

Import F64.

(** ** Python sequences *)

Module Py.

(** [l[i]] with Python's negative indices; [None] stands for IndexError. *)
Definition getitem {A} (l : list A) (i : Z) : option A :=
  let n := Z.of_nat (length l) in
  let k := if (i <? 0)%Z then (i + n)%Z else i in
  if (k <? 0)%Z then None else nth_error l (Z.to_nat k).

(** [l[0:-2]]: all but the last two elements. *)
Definition slice_0_m2 {A} (l : list A) : list A :=
  firstn (length l - 2) l.

(** [del l[-1]]. *)
Definition del_last {A} (l : list A) : option (list A) :=
  match l with
  | [] => None
  | _ => Some (removelast l)
  end.

End Py.

(** ** The data of one call *)

(** A sample of the solution: [y0] as the caller gave it, or a numpy scalar
    [c], written [[c]] (odeint reads a scalar initial condition as the
    one-component state). *)
Definition sample := list float.

(** An event function: [event(Y, x)] returns
    [(value, isterminal, direction)]. *)
Definition event_fn := sample -> float -> float * bool * Z.

(** [odeint(func, y, [x1, x2], **kwargs)] as a function of [y], [x1] and
    [x2]: the last row of the answer, and whether the message of the solver
    is 'Integration successful.' (the message is there, and is read, when
    [full_output] is given and true). *)
Definition solver := sample -> float -> float -> list float * bool.

(** What the call does to the outside: calls of [odeint] with the initial
    condition and the two points, and prints of its diagnostic. *)
Inductive effect :=
| Solve (y : sample) (x1 x2 : float)
| PrintOutput.

Inductive exn :=
| IndexError                    (* an index out of range *)
| TypeError                     (* a call with the wrong arguments *)
| MessageError.                 (* [output['message']] on a row of numbers:
                                   an IndexError or a ValueError, by the
                                   version of numpy *)

(** [func(y0, x0)] as line 78 calls it, without the extra arguments that
    [odeint] hands to [func] from [args=]: the call returns, [None], or it
    raises. *)
Definition rhs := sample -> float -> option exn.

(** The local variables of [odelay] that live across the loops, the log of
    what the call does to the outside, and the list object that the
    parameter [events] names: the caller's list, or the default list of
    the function object when the argument is left out. *)
Record store := mkStore {
  X : list float;
  sol : list sample;
  e : nat -> nat -> float;      (* np.zeros((len(events), len(xspan))) *)
  TE : list float;
  YE : list sample;
  IE : list nat;
  io : list effect;
  events_obj : list event_fn
}.

Definition zeros : nat -> nat -> float := fun _ _ => zero.

Definition empty_store : store := mkStore [] [] zeros [] [] [] [] [].

(** The store at the entry of a call whose parameter [events] names the
    list [l]. *)
Definition entry (l : list event_fn) : store :=
  mkStore [] [] zeros [] [] [] [] l.

Definition set_X (v : list float) (s : store) : store :=
  mkStore v (sol s) (e s) (TE s) (YE s) (IE s) (io s) (events_obj s).
Definition set_sol (v : list sample) (s : store) : store :=
  mkStore (X s) v (e s) (TE s) (YE s) (IE s) (io s) (events_obj s).
(** [e[j, i] = v] *)
Definition set_e (j i : nat) (v : float) (s : store) : store :=
  mkStore (X s) (sol s)
          (fun j' i' => if (j' =? j) && (i' =? i) then v else e s j' i')
          (TE s) (YE s) (IE s) (io s) (events_obj s).
(** [TE.append(x); YE.append(y); IE.append(j)] *)
Definition record_event (x : float) (y : sample) (j : nat) (s : store)
  : store :=
  mkStore (X s) (sol s) (e s) (TE s ++ [x]) (YE s ++ [y]) (IE s ++ [j])
          (io s) (events_obj s).
Definition emit (l : list effect) (s : store) : store :=
  mkStore (X s) (sol s) (e s) (TE s) (YE s) (IE s) (io s ++ l)
          (events_obj s).

(** The five lists [odelay] returns. *)
Definition outputs (s : store) :=
  (X s, sol s, TE s, YE s, IE s).

(** ** Control: results, exceptions and the store *)

Inductive outcome (A : Type) :=
| Done (a : A)
| Raised (x : exn)
| OutOfFuel.                    (* the model's loop bound; never met, see
                                   [odelay_fuel] *)
Arguments Raised {A} x.
Arguments OutOfFuel {A}.

Definition M (A : Type) := store -> outcome A * store.

Definition ret {A} (a : A) : M A := fun s => (Done a, s).
Definition raise {A} (x : exn) : M A := fun s => (Raised x, s).
Definition bind {A B} (m : M A) (f : A -> M B) : M B :=
  fun s =>
    match m s with
    | (Done a, s') => f a s'
    | (Raised x, s') => (Raised x, s')
    | (OutOfFuel, s') => (OutOfFuel, s')
    end.
Definition gets {A} (f : store -> A) : M A := fun s => (Done (f s), s).
Definition modify (f : store -> store) : M unit := fun s => (Done tt, f s).
(** [l[i]] *)
Definition index {A} (l : list A) (i : Z) : M A :=
  match Py.getitem l i with
  | Some a => ret a
  | None => raise IndexError
  end.

Declare Scope py_scope.
Delimit Scope py_scope with py.
Notation "x <- m ;; k" := (bind m (fun x => k))
  (at level 100, m at next level, right associativity) : py_scope.
Notation "m ;; k" := (bind m (fun _ => k))
  (at level 100, right associativity) : py_scope.
Local Open Scope py_scope.

(** ** odelay *)

(** The variables of the refinement loop (lines 113-122 and 175): the right
    end [Lt] of the bracket (the last point), its left end [Pt] (the
    previous point), and the flags the last evaluation of the event
    returned. *)
Record bracket := mkBracket {
  xLt : float; fLt : sample; eLt : float;
  xPt : float; fPt : sample; ePt : float;
  isterminal : bool;
  direction : Z
}.

(** How one pass through the body of [while k < 100] ends. *)
Inductive flow :=
| Break (ISTERMINAL : bool)     (* line 151 *)
| Continue (b : bracket)        (* line 163, [k] unchanged *)
| Next (b : bracket).           (* line 189, [k += 1] *)

(** How the loop ends: by [break], or with [k = 100]. *)
Inductive refined :=
| Resolved (ISTERMINAL : bool)
| Capped.

(** Which [return] ended the call. *)
Inductive exit :=
| AtEvent                       (* line 199 *)
| AtGridEnd.                    (* line 201 *)

(** Whether the event loop goes on to the next event or returns. *)
Inductive signal := Go | Stop.

Section Odelay.

Variable func : rhs.
Variable odeint : solver.
(** [full_output] among the keyword arguments: [None] when it is not
    there, and its truth value when it is. *)
Variable full_output : option bool.
Variable TOLERANCE : float.

(** Lines 96-97 and 169-170: what is printed after a call of [odeint]. *)
Definition report (ok : bool) : list effect :=
  match full_output with
  | Some true => if ok then [] else [PrintOutput]
  | _ => []
  end.

(** Lines 94-99 and 167-172.  With [full_output] given and false, [odeint]
    returns the two rows alone; line 95 (168) takes the second row for
    [output], and [output['message']] raises. *)
Definition integrate (y : sample) (x1 x2 : float) : M (list float) :=
  let '(row, ok) := odeint y x1 x2 in
  modify (emit (Solve y x1 x2 :: report ok)) ;;
  match full_output with
  | Some false => raise MessageError
  | _ => ret row
  end.

(** Lines 131-140. *)
Definition COLLECTEVENT (direction : Z) (e1 e0 : float) : bool :=
  if (direction =? 0)%Z then true
  else if gt e1 e0 && (direction =? 1)%Z then true
  else if lt e1 e0 && (direction =? -1)%Z then true
  else false.

(** Lines 153 and 157. *)
Definition slope (b : bracket) : float :=
  div (sub (ePt b) (eLt b)) (sub (xPt b) (xLt b)).
Definition estimate (b : bracket) : float :=
  add (div (opp (ePt b)) (slope b)) (xPt b).

(** Line 125. *)
Definition resolved (b : bracket) : bool :=
  lt (abs (sub (xLt b) (xPt b))) TOLERANCE.

(** Line 162. *)
Definition move_Lt (x : float) (b : bracket) : bracket :=
  mkBracket x (fLt b) (eLt b) (xPt b) (fPt b) (ePt b)
            (isterminal b) (direction b).

(** Lines 178-187. *)
Definition update (b : bracket) (new_x new_f new_e : float)
           (isterminal' : bool) (direction' : Z) : bracket :=
  if gt (mul (eLt b) new_e) zero
  then mkBracket (xLt b) (fLt b) (eLt b) new_x [new_f] new_e
                 isterminal' direction'
  else mkBracket new_x [new_f] new_e (xPt b) (fPt b) (ePt b)
                 isterminal' direction'.

(** Lines 125-189: one pass for event [j] at step [i]. *)
Definition body (j : nat) (event : event_fn) (i : nat) (b : bracket)
  : M flow :=
  if resolved b then
    e1 <- gets (fun s => e s j (i + 1)) ;;
    e0 <- gets (fun s => e s j i) ;;
    if COLLECTEVENT (direction b) e1 e0 then
      modify (record_event (xLt b) (fLt b) j) ;;
      ret (Break (isterminal b))
    else
      ret (Break false)
  else
    let new_x := estimate b in
    if lt (abs (sub new_x (xPt b))) TOLERANCE then
      ret (Continue (move_Lt new_x b))
    else
      f <- integrate (fPt b) (xPt b) new_x ;;
      new_f <- index f (-1) ;;
      let '(new_e, isterminal', direction') := event [new_f] new_x in
      ret (Next (update b new_x new_f new_e isterminal' direction')).

(** Lines 121-189. *)
Fixpoint while_loop (fuel : nat) (j : nat) (event : event_fn) (i : nat)
         (k : nat) (b : bracket) : M refined :=
  match fuel with
  | O => fun s => (OutOfFuel, s)
  | S fuel' =>
      if k <? 100 then
        r <- body j event i b ;;
        match r with
        | Break t => ret (Resolved t)
        | Continue b' => while_loop fuel' j event i k b'
        | Next b' => while_loop fuel' j event i (S k) b'
        end
      else ret Capped
  end.

(** The brackets the loop can come to from [b]: by a [continue] or by a
    counted pass with its trial point. *)
Inductive reach (event : event_fn) : bracket -> bracket -> Prop :=
| reach_here b :
    reach event b b
| reach_continue b b' :
    resolved b = false ->
    lt (abs (sub (estimate b) (xPt b))) TOLERANCE = true ->
    reach event (move_Lt (estimate b) b) b' ->
    reach event b b'
| reach_next b b' row ok new_f new_e t d :
    resolved b = false ->
    lt (abs (sub (estimate b) (xPt b))) TOLERANCE = false ->
    odeint (fPt b) (xPt b) (estimate b) = (row, ok) ->
    Py.getitem row (-1) = Some new_f ->
    event [new_f] (estimate b) = (new_e, t, d) ->
    reach event (update b (estimate b) new_f new_e t d) b' ->
    reach event b b'.

(** The loop bound of the model: enough for 100 counted passes, each with
    at most one [continue] before it, and the final test of [k < 100]. *)
Definition fuel0 : nat := 202.

(** Lines 193-199. *)
Definition del_last {A} (l : list A) : M (list A) :=
  match Py.del_last l with
  | Some l' => ret l'
  | None => raise IndexError
  end.

Definition truncate : M unit :=
  X0 <- gets X ;;
  X' <- del_last X0 ;;
  modify (set_X X') ;;
  sol0 <- gets sol ;;
  sol' <- del_last sol0 ;;
  modify (set_sol sol') ;;
  TE0 <- gets TE ;;
  te <- index TE0 (-1) ;;
  modify (fun s => set_X (X s ++ [te]) s) ;;
  YE0 <- gets YE ;;
  ye <- index YE0 (-1) ;;
  modify (fun s => set_sol (sol s ++ [ye]) s).

(** Lines 106-199: event [j] at step [i]. *)
Definition event_step (i j : nat) (event : event_fn) : M signal :=
  sol1 <- gets sol ;;
  y <- index sol1 (Z.of_nat (i + 1)) ;;
  X1 <- gets X ;;
  x <- index X1 (Z.of_nat (i + 1)) ;;
  let '(v, isterminal, direction) := event y x in
  modify (set_e j (i + 1) v) ;;
  e1 <- gets (fun s => e s j (i + 1)) ;;
  e0 <- gets (fun s => e s j i) ;;
  if lt (mul e1 e0) zero then
    xLt <- index X1 (-1) ;;
    fLt <- index sol1 (-1) ;;
    xPt <- index X1 (-2) ;;
    fPt <- index sol1 (-2) ;;
    r <- while_loop fuel0 j event i 0
           (mkBracket xLt fLt e1 xPt fPt e0 isterminal direction) ;;
    match r with
    | Resolved true => truncate ;; ret Stop
    | _ => ret Go
    end
  else ret Go.

(** Lines 105-199: the events from the [j]-th on, at step [i]. *)
Fixpoint events_loop (i j : nat) (events : list event_fn) : M signal :=
  match events with
  | [] => ret Go
  | event :: rest =>
      g <- event_step i j event ;;
      match g with
      | Stop => ret Stop
      | Go => events_loop i (S j) rest
      end
  end.

(** Lines 91-199: step [i], from [x1 = xspan[i]] to [x2 = xspan[i + 1]]. *)
Definition grid_step (xspan : list float) (events : list event_fn)
           (i : nat) (x1 : float) : M signal :=
  x2 <- index xspan (Z.of_nat (i + 1)) ;;
  sol0 <- gets sol ;;
  f1 <- index sol0 (Z.of_nat i) ;;
  f2 <- integrate f1 x1 x2 ;;
  modify (fun s => set_X (X s ++ [x2]) s) ;;
  c <- index f2 0 ;;
  modify (fun s => set_sol (sol s ++ [[c]]) s) ;;
  events_loop i 0 events.

(** Lines 90-201: the steps from the [i]-th on; [xs] is what is left of
    [xspan[0:-2]]. *)
Fixpoint grid_loop (xspan : list float) (events : list event_fn)
         (i : nat) (xs : list float) : M exit :=
  match xs with
  | [] => ret AtGridEnd
  | x1 :: xs' =>
      g <- grid_step xspan events i x1 ;;
      match g with
      | Stop => ret AtEvent
      | Go => grid_loop xspan events (S i) xs'
      end
  end.

(** Lines 86-87. *)
Fixpoint init_events (i : nat) (events : list event_fn)
         (y0 : sample) (x0 : float) : M unit :=
  match events with
  | [] => ret tt
  | event :: rest =>
      let '(v, _, _) := event y0 x0 in
      modify (set_e i 0 v) ;;
      init_events (S i) rest y0 x0
  end.

(** Line 78: [f0 = func(y0, x0)], a call of the right-hand side whose
    value is not used. *)
Definition f0 (y0 : sample) (x0 : float) : M unit :=
  match func y0 x0 with
  | None => ret tt
  | Some x => raise x
  end.

(** Lines 75-201, with [events] the list that the parameter names. *)
Definition odelay_body (y0 : sample) (xspan : list float)
           (events : list event_fn) : M exit :=
  x0 <- index xspan 0 ;;
  xf <- index xspan (-1) ;;
  f0 y0 x0 ;;
  modify (fun s => mkStore [x0] [y0] zeros [] [] [] (io s)
                           (events_obj s)) ;;
  init_events 0 events y0 x0 ;;
  grid_loop xspan events 0 (Py.slice_0_m2 xspan).

(** A call with the parameter [events] bound to the list [events]: the body
    reads the list through the name. *)
Definition odelay (y0 : sample) (xspan : list float)
           (events : list event_fn) : outcome exit * store :=
  (events' <- gets events_obj ;; odelay_body y0 xspan events')
    (entry events).

End Odelay.

(** The function object [odelay]: its default for [events] is one list,
    made when the [def] statement runs and handed to every call that omits
    the argument. *)
Record function_object := mkFunction {
  default_events : list event_fn
}.

Definition def_odelay : function_object := mkFunction [].

(** A call [odelay(func, y0, xspan[, events], TOLERANCE, **kwargs)]: the
    result, the store at the end of the call, and the function object
    after the call.  When the argument [events] is left out, the parameter
    names the default list of the function object itself, and what the
    call leaves in that list is what the function object holds from then
    on. *)
Definition call (fn : function_object)
           (func : rhs) (odeint : solver) (full_output : option bool)
           (TOLERANCE : float)
           (y0 : sample) (xspan : list float)
           (events : option (list event_fn))
  : outcome exit * store * function_object :=
  match events with
  | Some l => (odelay func odeint full_output TOLERANCE y0 xspan l, fn)
  | None =>
      let r := odelay func odeint full_output TOLERANCE y0 xspan
                 (default_events fn) in
      (r, mkFunction (events_obj (snd r)))
  end.

(** ** The vocabulary of the properties *)

Section Vocabulary.

Variable odeint : solver.
Variable TOLERANCE : float.

(** What the event log is after a loop that started in [s]: one more record
    when the loop ended at a resolved bracket the direction policy takes,
    and the log of [s] in every other case. *)
Definition log_after (j i : nat) (b0 : bracket) (event : event_fn)
           (s : store) (r : outcome refined) (s' : store) : Prop :=
  match r with
  | Done (Resolved t) =>
      exists b',
        reach odeint TOLERANCE event b0 b' /\ resolved TOLERANCE b' = true /\
        if COLLECTEVENT (direction b') (e s j (i + 1)) (e s j i)
        then TE s' = TE s ++ [xLt b'] /\ YE s' = YE s ++ [fLt b'] /\
             IE s' = IE s ++ [j] /\ t = isterminal b'
        else TE s' = TE s /\ YE s' = YE s /\ IE s' = IE s /\ t = false
  | _ => TE s' = TE s /\ YE s' = YE s /\ IE s' = IE s
  end.

(** The passes the loop can still make from pass [k] with bracket [b]: two
    for each count left, and one more when [b] is not resolved. *)
Definition passes_left (k : nat) (b : bracket) : nat :=
  2 * (100 - k) + (if resolved TOLERANCE b then 0 else 1).

(** What [del X[-1], sol[-1]; X.append(TE[-1]); sol.append(YE[-1])] makes
    of a store. *)
Definition truncated (s s' : store) : Prop :=
  exists te ye,
    Py.getitem (TE s) (-1) = Some te /\ Py.getitem (YE s) (-1) = Some ye /\
    X s <> [] /\ sol s <> [] /\
    s' = set_sol (removelast (sol s) ++ [ye])
                 (set_X (removelast (X s) ++ [te]) s).

(** The bracket the loop starts from at a detection (lines 113-119). *)
Definition first_bracket (s : store) (e1 e0 : float) (t : bool) (d : Z)
           (b : bracket) : Prop :=
  exists xLt fLt xPt fPt,
    Py.getitem (X s) (-1) = Some xLt /\ Py.getitem (sol s) (-1) = Some fLt /\
    Py.getitem (X s) (-2) = Some xPt /\ Py.getitem (sol s) (-2) = Some fPt /\
    b = mkBracket xLt fLt e1 xPt fPt e0 t d.

(** What is left of [event_step] once the refinement loop has run. *)
Definition after_refinement (r : refined) : M signal :=
  match r with
  | Resolved true => truncate ;; ret Stop
  | _ => ret Go
  end.

(** An entry of the event log: [TE], [YE] and [IE] grow together. *)
Definition record : Type := float * sample * nat.
Definition rx (r : record) : float := fst (fst r).
Definition ry (r : record) : sample := snd (fst r).
Definition rj (r : record) : nat := snd r.

Definition appended (recs : list record) (s s' : store) : Prop :=
  TE s' = TE s ++ map rx recs /\
  YE s' = YE s ++ map ry recs /\
  IE s' = IE s ++ map rj recs.

(** A record is the right end of a resolved bracket, come to from a bracket
    whose right end carried the last sample of the solution. *)
Definition located (samples : list sample) (r : record) : Prop :=
  exists smp event b0 b',
    Py.getitem samples (-1) = Some smp /\ fLt b0 = smp /\
    reach odeint TOLERANCE event b0 b' /\ resolved TOLERANCE b' = true /\
    rx r = xLt b' /\ ry r = fLt b'.

(** A sample made of component 0, or of the last component, of a row that
    [odeint] returned. *)
Definition component0 (y : sample) : Prop :=
  exists y1 x1 x2 row ok c,
    odeint y1 x1 x2 = (row, ok) /\ Py.getitem row 0 = Some c /\ y = [c].

Definition component_last (y : sample) : Prop :=
  exists y1 x1 x2 row ok c,
    odeint y1 x1 x2 = (row, ok) /\ Py.getitem row (-1) = Some c /\ y = [c].

(** What holds of every record of a call. *)
Definition sound (r : record) : Prop :=
  is_finite (rx r) = true /\ (component0 (ry r) \/ component_last (ry r)).

End Vocabulary.

(** The store with another log of effects. *)
Definition with_io (l : list effect) (s : store) : store :=
  mkStore (X s) (sol s) (e s) (TE s) (YE s) (IE s) l (events_obj s).

(** [m] never meets the loop bound of the model. *)
Definition total {A} (m : M A) : Prop :=
  forall s, fst (m s) <> OutOfFuel.

(** [m] does not read the log of effects: from a store that differs in the
    log alone it has the same result and leaves the same variables. *)
Definition io_blind {A} (m : M A) : Prop :=
  forall s l, exists l',
    m (with_io l s) = (fst (m s), with_io l' (snd (m s))).

(** The direction policy, in the words of the specification: take the
    crossing when [direction] is 0, or 1 with the event value
    increasing from step [i] to step [i + 1], or -1 with it decreasing. *)
Definition accepts (direction : Z) (e1 e0 : float) : Prop :=
  direction = 0%Z \/
  (direction = 1%Z /\ gt e1 e0 = true) \/
  (direction = (-1)%Z /\ lt e1 e0 = true).

(** ** Concrete calls *)

Module Cases.

(** An exact solver for [dy/dx = 1] in every component:
    [func = lambda Y, x: np.ones_like(Y)]. *)
Definition unit_rate (y : sample) (x1 x2 : float) : list float * bool :=
  (map (fun c => add c (sub x2 x1)) y, true).


(** The default [TOLERANCE=1e-6], as the binary64 number it denotes. *)
Definition tol : float := lit 0x1.0c6f7a0b5ed8dp-20.

(** A right-hand side whose call at line 78 returns. *)
Definition plain : rhs := fun _ _ => None.

Abbreviation run := (odelay plain unit_rate None tol).

(** A grid of six points. *)
Definition grid6 : list float :=
  [lit 0; lit 0.25; lit 0.5; lit 0.75; lit 1; lit 1.25].

(** [value = y], every zero, not terminal: an affine event value whose zero
    the first secant estimate hits exactly. *)
Definition ev_affine : event_fn :=
  fun y x => (hd zero y, false, 0%Z).

(** [value = (2 - y)**2 - 3], every zero, terminal. *)
Definition ev_quad : event_fn :=
  fun y x =>
    let c := sub (lit 2) (hd zero y) in
    (sub (mul c c) (lit 3), true, 0%Z).

(** [value = -1 + 6*y - 4*y**2], every zero, not terminal: the value is [-1]
    at [y = 0] and [1] at both [y = 0.5] and [y = 1]. *)
Definition ev_flat : event_fn :=
  fun y x =>
    let c := hd zero y in
    (sub (add (lit (-1)) (mul (lit 6) c)) (mul (lit 4) (mul c c)), false, 0%Z).

(** [value = x - 2**-24], with a direction, terminal: a zero closer to the
    left grid point than the tolerance. *)
Definition ev_near (direction : Z) : event_fn :=
  fun y x => (sub x (lit 0x1p-24), true, direction).

(** [value = 4*y**2 - 1], every zero, not terminal. *)
Definition ev_square : event_fn :=
  fun y x =>
    let c := hd zero y in
    (sub (mul (lit 4) (mul c c)) (lit 1), false, 0%Z).

(** The bracket of [ev_square] on the step from 0 to 1 of [y = x]. *)
Definition b_square : bracket :=
  mkBracket (lit 1) [lit 1] (lit 3) (lit 0) [lit 0] (lit (-1)) false 0.

(** The bracket of [ev_flat] on the step from 0 to 1 of [y = x], after its
    first trial point. *)
Definition b_flat : bracket :=
  mkBracket (lit 1) [lit 1] (lit 1) (lit 0.5) [lit 0.5] (lit 1) false 0.

(** The store of [run [0; 10] [0; 1; 2] [ev_near d]] when the event is
    evaluated at the end of step 0. *)
Definition s_near (direction : Z) : store :=
  mkStore [lit 0; lit 1] [[lit 0; lit 10]; [lit 1]]
          (fun j i => if (j =? 0) && (i =? 0) then lit (-0x1p-24) else zero)
          [] [] []
          [Solve [lit 0; lit 10] (lit 0) (lit 1)]
          [ev_near direction].

Definition b_near (direction : Z) : bracket :=
  mkBracket (lit 1) [lit 1] (sub (lit 1) (lit 0x1p-24))
            (lit 0) [lit 0; lit 10] (lit (-0x1p-24)) true direction.

(** The store of [run [-1] [0; 2; 4] [ev_affine]] when the event is
    evaluated at the end of step 0. *)
Definition s_affine : store :=
  mkStore [lit 0; lit 2] [[lit (-1)]; [lit 1]]
          (fun j i => if (j =? 0) && (i =? 0) then lit (-1) else zero)
          [] [] []
          [Solve [lit (-1)] (lit 0) (lit 2)]
          [ev_affine].

Definition b_affine : bracket :=
  mkBracket (lit 2) [lit 1] (lit 1) (lit 0) [lit (-1)] (lit (-1)) false 0.

End Cases.

(** ** What a call does, counted and linked *)

Definition is_solve (f : effect) : bool :=
  match f with
  | Solve _ _ _ => true
  | PrintOutput => false
  end.

(** The calls of [odeint] and the prints in a log of effects. *)
Definition solves (l : list effect) : nat := length (filter is_solve l).
Definition prints (l : list effect) : nat :=
  length (filter (fun f => negb (is_solve f)) l).

(** A log of at most [n] calls of [odeint], with no more prints than calls,
    and none when ['full_output'] is not given. *)
Definition within (full_output : option bool) (n : nat) (l : list effect)
  : Prop :=
  solves l <= n /\
  prints l <= match full_output with
              | Some true => solves l
              | _ => 0
              end.

(** [m] only adds to the log of effects, and what it adds satisfies [P]. *)
Definition emits {A} (P : list effect -> Prop) (m : M A) : Prop :=
  forall s, exists l, io (snd (m s)) = io s ++ l /\ P l.

(** Sample [i + 1] of the trajectory is component 0 of what [odeint]
    returns from sample [i] over the grid interval from [xspan[i]] to
    [xspan[i + 1]]. *)
Definition chained (odeint : solver) (xspan : list float) (s : store)
           (i : nat) : Prop :=
  exists f1 x1 x2 row ok c,
    nth_error (sol s) i = Some f1 /\
    nth_error xspan i = Some x1 /\ nth_error xspan (i + 1) = Some x2 /\
    odeint f1 x1 x2 = (row, ok) /\ Py.getitem row 0 = Some c /\
    nth_error (sol s) (i + 1) = Some [c] /\
    nth_error (X s) (i + 1) = Some x2.

Section Events.

Variable func : rhs.
Variable odeint : solver.
Variable full_output : option bool.
Variable TOLERANCE : float.

(** An event that never ends the call, and one that never adds to the
    event log, at whatever step and from whatever store. *)
Definition inert (event : event_fn) : Prop :=
  forall i j s g s',
    event_step odeint full_output TOLERANCE i j event s = (Done g, s') ->
    g = Go.

Definition mute (event : event_fn) : Prop :=
  forall i j s g s',
    event_step odeint full_output TOLERANCE i j event s = (Done g, s') ->
    TE s' = TE s /\ YE s' = YE s /\ IE s' = IE s.

End Events.

(** ** The course of a call *)

(** [m] leaves the list object of [events] as it found it. *)
Definition keeps_events {A} (m : M A) : Prop :=
  forall s, events_obj (snd (m s)) = events_obj s.

Section Course.

Variable func : rhs.
Variable odeint : solver.
Variable full_output : option bool.
Variable TOLERANCE : float.

(** The call on [xspan] comes to event [j] of step [i] with the store [s]:
    the steps before step [i] have gone on, which the call on the grid cut
    after its point [i + 1] shows by returning from the end of that grid,
    with the store [s0]; and from [s0] step [i] has integrated and has gone
    on through the events before event [j]. *)
Definition comes_to (y0 : sample) (xspan : list float)
           (events : list event_fn) (i j : nat) (event : event_fn)
           (s : store) : Prop :=
  exists x1 s0,
    i + 2 < length xspan /\
    nth_error xspan i = Some x1 /\
    nth_error events j = Some event /\
    odelay func odeint full_output TOLERANCE y0 (firstn (i + 2) xspan) events
    = (Done AtGridEnd, s0) /\
    grid_step odeint full_output TOLERANCE xspan (firstn j events) i x1 s0
    = (Done Go, s).

(** What is left of the call after event [j] of step [i]: the later events
    of the step, and the later steps. *)
Definition rest_of_call (xspan : list float) (events : list event_fn)
           (i j : nat) (g : signal) : M exit :=
  match g with
  | Stop => ret AtEvent
  | Go =>
      g' <- events_loop odeint full_output TOLERANCE i (S j)
              (skipn (S j) events) ;;
      match g' with
      | Stop => ret AtEvent
      | Go =>
          grid_loop odeint full_output TOLERANCE xspan events (S i)
            (skipn (S i) (Py.slice_0_m2 xspan))
      end
  end.

End Course.

(** The store at the start of step [i]: the trajectory has the grid points
    and the samples up to the [i]-th, and column [i] of the event matrix
    holds the values of the events at sample [i]. *)
Definition at_step (xspan : list float) (events : list event_fn) (i : nat)
           (s : store) : Prop :=
  X s = firstn (i + 1) xspan /\ length (X s) = i + 1 /\
  length (sol s) = i + 1 /\
  forall j event,
    nth_error events j = Some event ->
    exists y x,
      nth_error (sol s) i = Some y /\ nth_error (X s) i = Some x /\
      e s j i = fst (fst (event y x)).

(** ** numpy arrays of one dimension *)

Module Np.

Inductive error := IndexError | ValueError.

Inductive result (A : Type) :=
| Ok (a : A)
| Err (x : error).
Arguments Err {A} x.

Definition bind {A B} (m : result A) (f : A -> result B) : result B :=
  match m with
  | Ok a => f a
  | Err x => Err x
  end.

(** A one-dimensional array of float64. *)
Definition array := list float.

(** [np.zeros((n,), np.float)] *)
Definition zeros (n : nat) : array := repeat zero n.

(** A bound of a slice of a sequence of length [n], as Python reads it: a
    negative bound counts from the end, and what falls outside is cut. *)
Definition bound (n i : Z) : Z :=
  if (i <? 0)%Z then Z.max (i + n) 0 else Z.min i n.

(** Where [l[start:stop]] begins and how long it is; [None] is a bound
    that is left out. *)
Definition span {A} (l : list A) (start stop : option Z) : nat * nat :=
  let n := Z.of_nat (length l) in
  let a := match start with Some i => bound n i | None => 0%Z end in
  let b := match stop with Some i => bound n i | None => n end in
  (Z.to_nat a, Z.to_nat (b - a)).

(** [l[start:stop]] *)
Definition slice {A} (l : list A) (start stop : option Z) : list A :=
  let '(a, t) := span l start stop in
  firstn t (skipn a l).

(** [l[i]] *)
Definition item {A} (l : list A) (i : Z) : result A :=
  match Py.getitem l i with
  | Some a => Ok a
  | None => Err IndexError
  end.

(** The indices Python takes for a sequence of length [n]: from [-n] to
    [n - 1]; and the place an index stands for. *)
Definition in_bounds {A} (l : list A) (i : Z) : Prop :=
  (- Z.of_nat (length l) <= i < Z.of_nat (length l))%Z.

Definition place {A} (l : list A) (i : Z) : nat :=
  Z.to_nat (if (i <? 0)%Z then (i + Z.of_nat (length l))%Z else i).

(** [l[i] = v] *)
Definition setitem {A} (l : list A) (i : Z) (v : A) : result (list A) :=
  let n := Z.of_nat (length l) in
  let k := if (i <? 0)%Z then (i + n)%Z else i in
  if (k <? 0)%Z || (n <=? k)%Z then Err IndexError
  else Ok (firstn (Z.to_nat k) l ++ v :: skipn (S (Z.to_nat k)) l).

(** [l[start:stop] = v]: [v] has the length of the slice, or one element
    that fills it; any other length is a ValueError. *)
Definition setslice (l : array) (start stop : option Z) (v : array)
  : result array :=
  let '(a, t) := span l start stop in
  if length v =? t then Ok (firstn a l ++ v ++ skipn (a + t) l)
  else match v with
       | [c] => Ok (firstn a l ++ repeat c t ++ skipn (a + t) l)
       | _ => Err ValueError
       end.

(** [a op b] on two arrays: element by element when the lengths agree, an
    array of one element against every element of the other, and a
    ValueError for any other two lengths. *)
Definition elementwise (f : float -> float -> float) (a b : array)
  : result array :=
  if length a =? length b
  then Ok (map (fun p => f (fst p) (snd p)) (combine a b))
  else match a, b with
       | [c], _ => Ok (map (f c) b)
       | _, [c] => Ok (map (fun v => f v c) a)
       | _, _ => Err ValueError
       end.

End Np.

Declare Scope np_scope.
Delimit Scope np_scope with np.
Notation "x <- m ;; k" := (Np.bind m (fun x => k))
  (at level 100, m at next level, right associativity) : np_scope.

(** ** deriv *)

(** The names of the methods. *)
Module Method.

Import String.

Definition two_point : string := "two-point"%string.
Definition four_point : string := "four-point"%string.
Definition fft : string := "fft"%string.

End Method.

Section Deriv.

(** Lines 230-248, the method ['fft'], which rests on [np.fft]. *)
Variable spectral : Np.array -> Np.array -> Np.result (option Np.array).

(** [(y[a] - y[b]) / (x[a] - x[b])], the difference quotient of lines
    214-215 and 224-227. *)
Definition end_difference (x y : Np.array) (a b : Z) : Np.result float :=
  (ya <- Np.item y a ;;
   yb <- Np.item y b ;;
   xa <- Np.item x a ;;
   xb <- Np.item x b ;;
   Np.Ok (div (sub ya yb) (sub xa xb)))%np.

(** Lines 210-216. *)
Definition two_point (x y : Np.array) : Np.result (option Np.array) :=
  (let dydx := Np.zeros (length y) in
   num <- Np.elementwise sub (Np.slice y (Some 2%Z) None)
            (Np.slice y (Some 0%Z) (Some (-2)%Z)) ;;
   den <- Np.elementwise sub (Np.slice x (Some 2%Z) None)
            (Np.slice x (Some 0%Z) (Some (-2)%Z)) ;;
   q <- Np.elementwise div num den ;;
   dydx <- Np.setslice dydx (Some 1%Z) (Some (-1)%Z) q ;;
   d <- end_difference x y 1 0 ;;
   dydx <- Np.setitem dydx 0 d ;;
   d <- end_difference x y (-1) (-2) ;;
   dydx <- Np.setitem dydx (-1) d ;;
   Np.Ok (Some dydx))%np.

(** Lines 219-228. *)
Definition four_point (x y : Np.array) : Np.result (option Np.array) :=
  (let dydx := Np.zeros (length y) in
   x1 <- Np.item x 1 ;;
   x0 <- Np.item x 0 ;;
   let h := sub x1 x0 in
   t <- Np.elementwise sub (Np.slice y (Some 0%Z) (Some (-4)%Z))
          (map (mul (lit 8)) (Np.slice y (Some 1%Z) (Some (-3)%Z))) ;;
   t <- Np.elementwise add t
          (map (mul (lit 8)) (Np.slice y (Some 3%Z) (Some (-1)%Z))) ;;
   t <- Np.elementwise sub t (Np.slice y (Some 4%Z) None) ;;
   let q := map (fun v => div v (mul (lit 12) h)) t in
   dydx <- Np.setslice dydx (Some 2%Z) (Some (-2)%Z) q ;;
   d <- end_difference x y 1 0 ;;
   dydx <- Np.setitem dydx 0 d ;;
   d <- end_difference x y 2 1 ;;
   dydx <- Np.setitem dydx 1 d ;;
   d <- end_difference x y (-2) (-3) ;;
   dydx <- Np.setitem dydx (-2) d ;;
   d <- end_difference x y (-1) (-2) ;;
   dydx <- Np.setitem dydx (-1) d ;;
   Np.Ok (Some dydx))%np.

(** Lines 204-248.  [x] and [y] are one-dimensional arrays of float64; the
    result is the array [dydx], or [None] when no branch is taken and the
    function runs off its end. *)
Definition deriv (x y : Np.array) (method : String.string)
  : Np.result (option Np.array) :=
  if String.eqb method Method.two_point then two_point x y
  else if String.eqb method Method.four_point then four_point x y
  else if String.eqb method Method.fft then spectral x y
  else Np.Ok None.

End Deriv.

(** Python 2's [range(a, b)]. *)
Definition range (a b : Z) : list Z :=
  map (fun i => (a + Z.of_nat i)%Z) (seq 0 (Z.to_nat (b - a))).

(** Lines 240-243: the wavenumbers [k] of the method ['fft'] for [N]
    points, as the integers they are before line 245 scales them.  [/] is
    the division of Python 2 on integers, which rounds down. *)
Definition wavenumbers (N : Z) : list Z :=
  if (N mod 2 =? 0)%Z
  then range 0 (N / 2) ++ [0%Z] ++ range ((- N) / 2 + 1) 0
  else range 0 ((N - 1) / 2) ++ [0%Z] ++ range ((- (N - 1)) / 2) 0.

(** ** nlinfit *)

Section Nlinfit.

(** [t.ppf(q, dof)] of [scipy.stats] and [var**0.5] of numpy. *)
Variable ppf : float -> Z -> float.
Variable pow : float -> float -> float.

(** [np.diag(m)] of a matrix given by its rows. *)
Fixpoint diag_from (i : nat) (m : list (list float)) : list float :=
  match m with
  | [] => []
  | row :: rest =>
      match nth_error row i with
      | Some v => v :: diag_from (S i) rest
      | None => []
      end
  end.

Definition diag (m : list (list float)) : list float := diag_from 0 m.

(** Lines 38-53, from what [curve_fit] returned ([pars] and [pcov]) and the
    number [n = len(y)] of data points. *)
Definition nlinfit (pars : list float) (pcov : list (list float)) (n : nat)
           (alpha : float)
  : list float * list (list float) * list float :=
  let p := length pars in
  let dof := Z.max 0 (Z.of_nat n - Z.of_nat p) in
  let tval := ppf (sub (lit 1) (div alpha (lit 2))) dof in
  let '(SE, pint) :=
    fold_left
      (fun acc row =>
         let '(SE, pint) := acc in
         let '(_, (p, var)) := row in
         let sigma := pow var (lit 0.5) in
         (SE ++ [sigma],
          pint ++ [[sub p (mul sigma tval); add p (mul sigma tval)]]))
      (combine (seq 0 n) (combine pars (diag pcov)))
      ([], []) in
  (pars, pint, SE).

End Nlinfit.

(** The difference quotient of [y] over [x] between the places [a] and
    [b]. *)
Definition quotient (x y : Np.array) (a b : nat) : float :=
  div (sub (nth a y zero) (nth b y zero)) (sub (nth a x zero) (nth b x zero)).

(** ** Concrete arrays *)

Module Samples.

Import String.

(** A stand-in for the method ['fft']. *)
Definition no_spectral (x y : Np.array) : Np.result (option Np.array) :=
  Np.Err Np.ValueError.

Definition x4 : Np.array := [lit 0; lit 1; lit 2; lit 4].
Definition y4 : Np.array := [lit 0; lit 1; lit 4; lit 16].
Definition x3 : Np.array := [lit 0; lit 1; lit 2].
Definition y5 : Np.array := [lit 0; lit 1; lit 4; lit 9; lit 16].

End Samples.

(** ** binary64 facts used below *)

Section FloatFacts.

(** A rounded product is a NaN or carries the sign it was given. *)
Lemma binary_round_aux_sign (s : bool) (m e : Z) (l : location) :
  let r := binary_round_aux prec emax s m e l in
  is_nan r = true \/ (sign r = s).
Proof.
  unfold binary_round_aux; cbv zeta.
  destruct (shr_fexp prec emax m e l) as [mrs' e'].
  destruct (shr_fexp prec emax _ e' loc_Exact) as [mrs'' e''].
  destruct (shr_m mrs''); simpl; auto;
    destruct (Z.leb _ _); simpl; auto.
Qed.

Lemma mul_sign (x y : float) :
  is_nan (mul x y) = true \/ sign (mul x y) = xorb (sign x) (sign y).
Proof.
  destruct x as [sx|sx| |sx mx ex], y as [sy|sy| |sy my ey]; simpl; auto.
  apply binary_round_aux_sign.
Qed.

Lemma lt_zero_sign (r : float) :
  lt r zero = true -> is_nan r = false /\ is_zero r = false /\ sign r = true.
Proof.
  destruct r as [s|s| |s m ex]; simpl; try discriminate;
    destruct s; simpl; try discriminate; auto.
Qed.

Lemma gt_zero_sign (r : float) :
  gt r zero = true -> is_nan r = false /\ is_zero r = false /\ sign r = false.
Proof.
  destruct r as [s|s| |s m ex]; simpl; try discriminate;
    destruct s; simpl; try discriminate; auto.
Qed.

Lemma mul_zero_l (x y : float) :
  is_zero x = true -> is_zero (mul x y) = true \/ is_nan (mul x y) = true.
Proof. destruct x, y; simpl; try discriminate; auto. Qed.

Lemma mul_zero_r (x y : float) :
  is_zero y = true -> is_zero (mul x y) = true \/ is_nan (mul x y) = true.
Proof. destruct x, y; simpl; try discriminate; auto. Qed.

Lemma mul_nan_l (x y : float) : is_nan x = true -> is_nan (mul x y) = true.
Proof. destruct x, y; simpl; try discriminate; auto. Qed.

Lemma mul_nan_r (x y : float) : is_nan y = true -> is_nan (mul x y) = true.
Proof. destruct x, y; simpl; try discriminate; auto. Qed.

(** A strictly negative product has two factors that are neither zero nor
    NaN and that differ in sign. *)
Lemma lt_mul_zero (x y : float) :
  lt (mul x y) zero = true ->
  is_zero x = false /\ is_zero y = false /\
  is_nan x = false /\ is_nan y = false /\ sign x = negb (sign y).
Proof.
  intros H. destruct (lt_zero_sign _ H) as (Hn & Hz & Hs).
  repeat split.
  - destruct (is_zero x) eqn:E; auto.
    destruct (mul_zero_l x y E); congruence.
  - destruct (is_zero y) eqn:E; auto.
    destruct (mul_zero_r x y E); congruence.
  - destruct (is_nan x) eqn:E; auto.
    rewrite (mul_nan_l x y E) in Hn. discriminate.
  - destruct (is_nan y) eqn:E; auto.
    rewrite (mul_nan_r x y E) in Hn. discriminate.
  - destruct (mul_sign x y) as [K|K]; [congruence|].
    rewrite Hs in K. destruct (sign x), (sign y); simpl in *; congruence.
Qed.

(** A strictly positive product has two factors of one sign. *)
Lemma gt_mul_zero (x y : float) :
  gt (mul x y) zero = true ->
  is_zero x = false /\ is_zero y = false /\
  is_nan x = false /\ is_nan y = false /\ sign x = sign y.
Proof.
  intros H. destruct (gt_zero_sign _ H) as (Hn & Hz & Hs).
  repeat split.
  - destruct (is_zero x) eqn:E; auto.
    destruct (mul_zero_l x y E); congruence.
  - destruct (is_zero y) eqn:E; auto.
    destruct (mul_zero_r x y E); congruence.
  - destruct (is_nan x) eqn:E; auto.
    rewrite (mul_nan_l x y E) in Hn. discriminate.
  - destruct (is_nan y) eqn:E; auto.
    rewrite (mul_nan_r x y E) in Hn. discriminate.
  - destruct (mul_sign x y) as [K|K]; [congruence|].
    rewrite Hs in K. destruct (sign x), (sign y); simpl in *; congruence.
Qed.


(** A distance below any tolerance is a distance of two finite numbers. *)
Lemma close_is_finite (x p tol : float) :
  lt (abs (sub x p)) tol = true -> is_finite x = true /\ is_finite p = true.
Proof.
  destruct x as [sx|sx| |sx mx ex], p as [sp|sp| |sp mp ep]; simpl; auto;
    try discriminate;
    try (destruct sx, sp; simpl; destruct tol as [st|st| |st mt et];
         simpl; try discriminate; destruct st; discriminate);
    try (destruct tol as [st|st| |st mt et]; simpl; try discriminate;
         destruct st; discriminate).
Qed.

(** A finite number that is not zero, divided by a zero, is an infinity;
    an infinity plus a finite number is that infinity; an infinity is at
    no distance below a tolerance from a finite number. *)
Lemma div_by_zero (x m : float) :
  is_finite x = true -> is_zero x = false -> is_zero m = true ->
  exists s, div x m = S754_infinity s.
Proof.
  destruct x as [sx|sx| |sx mx ex], m as [sm|sm| |sm mm em]; simpl;
    try discriminate; eauto.
Qed.

Lemma add_infinity (s : bool) (p : float) :
  is_finite p = true -> add (S754_infinity s) p = S754_infinity s.
Proof. destruct p; simpl; try discriminate; auto. Qed.

Lemma infinity_not_close (s : bool) (p tol : float) :
  lt (abs (sub (S754_infinity s) p)) tol = false.
Proof.
  destruct (lt (abs (sub (S754_infinity s) p)) tol) eqn:E; auto.
  apply close_is_finite in E. destruct E. discriminate.
Qed.

End FloatFacts.

(** ** Python sequences: facts *)

Lemma getitem_nat {A} (l : list A) (i : nat) :
  Py.getitem l (Z.of_nat i) = nth_error l i.
Proof.
  unfold Py.getitem.
  destruct (Z.of_nat i <? 0)%Z eqn:E; [apply Z.ltb_lt in E; lia|].
  rewrite E. now rewrite Nat2Z.id.
Qed.

Lemma getitem_m1 {A} (l : list A) (a : A) :
  Py.getitem (l ++ [a]) (-1) = Some a.
Proof.
  unfold Py.getitem. rewrite length_app. cbn [length].
  change (-1 <? 0)%Z with true. cbv iota zeta.
  replace (-1 + Z.of_nat (length l + 1))%Z with (Z.of_nat (length l)) by lia.
  destruct (Z.of_nat (length l) <? 0)%Z eqn:E; [apply Z.ltb_lt in E; lia|].
  rewrite Nat2Z.id, nth_error_app2 by lia.
  now rewrite Nat.sub_diag.
Qed.


Lemma getitem_m1_inv {A} (l : list A) (a : A) :
  Py.getitem l (-1) = Some a -> l = removelast l ++ [a].
Proof.
  intros H. destruct (exists_last (l := l)) as (l' & a' & ->).
  - intros ->. discriminate.
  - rewrite getitem_m1 in H. injection H as ->. now rewrite removelast_last.
Qed.

Lemma getitem_m1_nonempty {A} (l : list A) :
  l <> [] -> exists a, Py.getitem l (-1) = Some a.
Proof.
  intros H. destruct (exists_last H) as (l' & a & ->).
  exists a. apply getitem_m1.
Qed.



Lemma del_last_app {A} (l : list A) (a : A) :
  Py.del_last (l ++ [a]) = Some l.
Proof.
  unfold Py.del_last. rewrite removelast_last.
  destruct l; reflexivity.
Qed.

(** ** Running the monad *)

Ltac mrun := cbv beta iota delta [bind ret gets modify raise].
Ltac mrun_in H := cbv beta iota delta [bind ret gets modify raise] in H.
Ltac fields := cbn [X sol e TE YE IE io set_X set_sol set_e record_event emit].
Ltac fields_in H :=
  cbn [X sol e TE YE IE io set_X set_sol set_e record_event emit] in H.

Lemma bind_Done {A B} (m : M A) (f : A -> M B) s b s' :
  bind m f s = (Done b, s') ->
  exists a s1, m s = (Done a, s1) /\ f a s1 = (Done b, s').
Proof.
  unfold bind. destruct (m s) as [[a|x|] s1]; intros H;
    [|discriminate H|discriminate H].
  exists a, s1. split; [reflexivity|exact H].
Qed.

Lemma gets_Done {A} (f : store -> A) s a s' :
  gets f s = (Done a, s') -> a = f s /\ s' = s.
Proof. unfold gets. intros H. injection H as <- <-. split; reflexivity. Qed.

Lemma modify_Done (f : store -> store) s u s' :
  modify f s = (Done u, s') -> s' = f s.
Proof. unfold modify. intros H. injection H as H. now symmetry. Qed.

Lemma ret_Done {A} (a b : A) s s' :
  ret a s = (Done b, s') -> b = a /\ s' = s.
Proof. unfold ret. intros H. injection H as <- <-. split; reflexivity. Qed.

Lemma index_Done {A} (l : list A) i s a s' :
  index l i s = (Done a, s') -> Py.getitem l i = Some a /\ s' = s.
Proof.
  unfold index. destruct (Py.getitem l i) as [a'|]; intros H;
    [|discriminate H].
  injection H as <- <-. split; reflexivity.
Qed.

(** One step of a run that ended well: [m ;; k] splits into the run of [m]
    and the run of [k]. *)
Ltac mstep H :=
  let a := fresh "a" in
  let s1 := fresh "s" in
  let Ha := fresh "Ha" in
  apply bind_Done in H; destruct H as (a & s1 & Ha & H);
  first
    [ apply gets_Done in Ha; destruct Ha as [-> ->]
    | apply modify_Done in Ha; subst s1; clear a
    | apply index_Done in Ha; destruct Ha as [Ha ->]
    | cbv beta in Ha ];
  cbv beta in H.

Lemma del_last_Some {A} (l l' : list A) :
  Py.del_last l = Some l' -> l <> [] /\ l' = removelast l.
Proof.
  destruct l; simpl; intros H; [discriminate H|].
  injection H as <-. split; [discriminate|reflexivity].
Qed.

(** A call of [odeint] is logged with what is printed after it, and gives
    the last row, unless [full_output] is given and false. *)
Lemma integrate_cases (odeint : solver) (full_output : option bool)
      y x1 x2 s :
  exists row ok,
    odeint y x1 x2 = (row, ok) /\
    ((full_output = Some false /\
      integrate odeint full_output y x1 x2 s
      = (Raised MessageError,
         emit (Solve y x1 x2 :: report full_output ok) s)) \/
     (full_output <> Some false /\
      integrate odeint full_output y x1 x2 s
      = (Done row, emit (Solve y x1 x2 :: report full_output ok) s))).
Proof.
  unfold integrate. destruct (odeint y x1 x2) as [row ok].
  exists row, ok. split; [reflexivity|].
  destruct full_output as [[|]|];
    [right|left|right]; split; try reflexivity; discriminate.
Qed.

(** ** The refinement loop *)

Section Refinement.

Variable func : rhs.
Variable odeint : solver.
Variable full_output : option bool.
Variable TOLERANCE : float.

Local Abbreviation body' := (body odeint full_output TOLERANCE).
Local Abbreviation while' := (while_loop odeint full_output TOLERANCE).
Local Abbreviation reach' := (reach odeint TOLERANCE).
Local Abbreviation resolved' := (resolved TOLERANCE).

Lemma log_after_reach j i b0 b1 event s r s' :
  (forall b', reach' event b1 b' -> reach' event b0 b') ->
  log_after odeint TOLERANCE j i b1 event s r s' ->
  log_after odeint TOLERANCE j i b0 event s r s'.
Proof.
  intros Hreach. unfold log_after.
  destruct r as [[t|]| |]; auto.
  intros (b' & Hb' & Hres & Hlog). exists b'. auto.
Qed.

(** The loop leaves the trajectory and the event matrix alone, and its
    effect on the event log is [log_after]. *)
Lemma while_loop_spec j event i :
  forall fuel k b s r s',
    while' fuel j event i k b s = (r, s') ->
    X s' = X s /\ sol s' = sol s /\ e s' = e s /\
    log_after odeint TOLERANCE j i b event s r s'.
Proof.
  induction fuel as [|fuel IH]; intros k b s r s' H; simpl in H.
  - injection H as <- <-. simpl. repeat split; auto.
  - destruct (k <? 100).
    2:{ injection H as <- <-. simpl. repeat split; auto. }
    unfold bind at 1 in H. unfold body in H.
    destruct (resolved' b) eqn:Hres.
    + unfold bind, gets, modify, ret in H.
      destruct (COLLECTEVENT (direction b) (e s j (i + 1)) (e s j i)) eqn:Hc;
        injection H as <- <-; simpl; repeat split; auto;
        exists b; rewrite Hc; repeat split; auto using reach_here.
    + destruct (lt (abs (sub (estimate b) (xPt b))) TOLERANCE) eqn:Hnear.
      * unfold ret in H. apply IH in H.
        destruct H as (HX & Hsol & He & Hlog). repeat split; auto.
        apply log_after_reach with (b1 := move_Lt (estimate b) b); auto.
        intros b' Hb'. now apply reach_continue.
      * destruct (integrate_cases odeint full_output (fPt b) (xPt b)
                    (estimate b) s) as (row & ok & Hode & [[_ E]|[_ E]]);
          unfold bind at 1 in H; rewrite E in H.
        { injection H as <- <-. simpl. repeat split; auto. }
        unfold bind, modify, ret, index in H.
        destruct (Py.getitem row (-1)) as [new_f|] eqn:Hrow.
        2:{ unfold raise in H. injection H as <- <-. simpl.
            repeat split; auto. }
        mrun_in H.
        destruct (event [new_f] (estimate b)) as [[new_e t] d] eqn:Hev.
        apply IH in H. simpl in H.
        destruct H as (HX & Hsol & He & Hlog). repeat split; auto.
        apply log_after_reach
          with (b1 := update b (estimate b) new_f new_e t d); auto.
        intros b' Hb'. now apply reach_next with row ok new_f new_e t d.
Qed.

Lemma resolved_move_Lt (b : bracket) :
  lt (abs (sub (estimate b) (xPt b))) TOLERANCE = true ->
  resolved' (move_Lt (estimate b) b) = true.
Proof. intros H. exact H. Qed.

Lemma while_loop_fuel j event i :
  forall fuel k b s,
    passes_left TOLERANCE k b < fuel ->
    fst (while' fuel j event i k b s) <> OutOfFuel.
Proof.
  induction fuel as [|fuel IH]; intros k b s Hfuel; [lia|]. simpl.
  destruct (k <? 100) eqn:Hk; [|discriminate].
  apply Nat.ltb_lt in Hk.
  unfold bind at 1. unfold body. unfold passes_left in Hfuel.
  destruct (resolved' b) eqn:Hres.
  - unfold bind, gets, modify, ret.
    destruct (COLLECTEVENT _ _ _); discriminate.
  - destruct (lt (abs (sub (estimate b) (xPt b))) TOLERANCE) eqn:Hnear.
    + unfold ret. apply IH. unfold passes_left.
      rewrite (resolved_move_Lt b Hnear). lia.
    + destruct (integrate_cases odeint full_output (fPt b) (xPt b)
                  (estimate b) s) as (row & ok & Hode & [[_ E]|[_ E]]);
        unfold bind at 1; rewrite E; [discriminate|].
      unfold bind, modify, ret, index.
      destruct (Py.getitem row (-1)) as [new_f|]; [|discriminate].
      mrun.
      destruct (event [new_f] (estimate b)) as [[new_e t] d].
      apply IH. unfold passes_left.
      destruct (resolved' (update b (estimate b) new_f new_e t d)); lia.
Qed.

Lemma while_loop_fuel0 j event i b s :
  fst (while' fuel0 j event i 0 b s) <> OutOfFuel.
Proof.
  apply while_loop_fuel. unfold passes_left, fuel0.
  destruct (resolved' b); simpl; lia.
Qed.

End Refinement.

(** ** One event at one step *)

Section Steps.

Variable func : rhs.
Variable odeint : solver.
Variable full_output : option bool.
Variable TOLERANCE : float.

Local Abbreviation while' := (while_loop odeint full_output TOLERANCE).
Local Abbreviation reach' := (reach odeint TOLERANCE).
Local Abbreviation resolved' := (resolved TOLERANCE).
Local Abbreviation event_step' := (event_step odeint full_output TOLERANCE).
Local Abbreviation events_loop' := (events_loop odeint full_output TOLERANCE).
Local Abbreviation grid_step' := (grid_step odeint full_output TOLERANCE).
Local Abbreviation grid_loop' := (grid_loop odeint full_output TOLERANCE).

Lemma set_e_same j i v s : e (set_e j i v s) j i = v.
Proof. simpl. now rewrite !Nat.eqb_refl. Qed.

Lemma set_e_prev j i v s : e (set_e j (i + 1) v s) j i = e s j i.
Proof.
  simpl. rewrite Nat.eqb_refl.
  destruct (i =? i + 1) eqn:E; [apply Nat.eqb_eq in E; lia|reflexivity].
Qed.

Lemma del_last_Done {A} (l l' : list A) s s' :
  del_last l s = (Done l', s') -> l <> [] /\ l' = removelast l /\ s' = s.
Proof.
  unfold del_last. destruct (Py.del_last l) as [l0|] eqn:E; intros H;
    [|discriminate H].
  apply ret_Done in H. destruct H as [-> ->].
  apply del_last_Some in E. tauto.
Qed.

Lemma truncate_spec s u s' :
  truncate s = (Done u, s') -> truncated s s'.
Proof.
  unfold truncate. intros H.
  mstep H. mstep H. apply del_last_Done in Ha. destruct Ha as (HX & -> & ->).
  mstep H. mstep H. mstep H.
  apply del_last_Done in Ha. destruct Ha as (Hsol & -> & ->).
  mstep H. mstep H. mstep H. rename Ha into Hte.
  mstep H. mstep H. mstep H. rename Ha into Hye.
  apply modify_Done in H. subst s'.
  exists a, a0. fields_in Hte. fields_in Hye. fields_in Hsol.
  repeat split; auto.
Qed.

(** [event_step], case by case. *)
Lemma event_step_spec i j event s g s' :
  event_step' i j event s = (Done g, s') ->
  exists y x v t d,
    nth_error (sol s) (i + 1) = Some y /\
    nth_error (X s) (i + 1) = Some x /\
    event y x = (v, t, d) /\
    let s1 := set_e j (i + 1) v s in
    if lt (mul v (e s j i)) zero then
      exists b r s2,
        first_bracket s v (e s j i) t d b /\
        while' fuel0 j event i 0 b s1 = (Done r, s2) /\
        match r with
        | Resolved true => g = Stop /\ truncated s2 s'
        | _ => g = Go /\ s' = s2
        end
    else g = Go /\ s' = s1.
Proof.
  unfold event_step. intros H.
  mstep H. mstep H. rewrite getitem_nat in Ha. rename Ha into Hy, a into y.
  mstep H. mstep H. rewrite getitem_nat in Ha. rename Ha into Hx, a into x.
  destruct (event y x) as [[v t] d] eqn:Hev.
  mstep H. mstep H. mstep H.
  rewrite set_e_same, set_e_prev in H.
  exists y, x, v, t, d.
  split; [exact Hy|]. split; [exact Hx|]. split; [exact Hev|].
  cbv zeta.
  destruct (lt (mul v (e s j i)) zero).
  2:{ apply ret_Done in H. destruct H as [-> ->]. split; reflexivity. }
  mstep H. rename Ha into HxLt, a into xLt.
  mstep H. rename Ha into HfLt, a into fLt.
  mstep H. rename Ha into HxPt, a into xPt.
  mstep H. rename Ha into HfPt, a into fPt.
  mstep H. rename Ha into Hw, a into r, s0 into s2.
  exists (mkBracket xLt fLt v xPt fPt (e s j i) t d), r, s2.
  split; [exists xLt, fLt, xPt, fPt; auto|].
  split; [exact Hw|].
  destruct r as [[|]|].
  - mstep H. apply ret_Done in H. destruct H as [-> ->].
    split; [reflexivity|]. eapply truncate_spec; exact Ha.
  - apply ret_Done in H. destruct H as [-> ->]. split; reflexivity.
  - apply ret_Done in H. destruct H as [-> ->]. split; reflexivity.
Qed.

(** *** The records of a step *)

Lemma appended_nil s : appended [] s s.
Proof. unfold appended. simpl. now rewrite !app_nil_r. Qed.

Lemma appended_trans l1 l2 s1 s2 s3 :
  appended l1 s1 s2 -> appended l2 s2 s3 -> appended (l1 ++ l2) s1 s3.
Proof.
  unfold appended. intros (A1 & A2 & A3) (B1 & B2 & B3).
  rewrite B1, B2, B3, A1, A2, A3, !map_app, !app_assoc. auto.
Qed.

(** What one event does to the store at a step. *)
Lemma event_step_log i j event s g s' :
  event_step' i j event s = (Done g, s') ->
  exists recs,
    appended recs s s' /\ Forall (located odeint TOLERANCE (sol s)) recs /\
    Forall (fun r => rj r = j) recs /\
    match g with
    | Go => X s' = X s /\ sol s' = sol s
    | Stop =>
        exists r l, recs = l ++ [r] /\ X s <> [] /\ sol s <> [] /\
          X s' = removelast (X s) ++ [rx r] /\
          sol s' = removelast (sol s) ++ [ry r]
    end.
Proof.
  intros H. apply event_step_spec in H.
  destruct H as (y & x & v & t & d & Hy & Hx & Hev & H). cbv zeta in H.
  destruct (lt (mul v (e s j i)) zero).
  2:{ destruct H as [-> ->]. exists []. fields.
      repeat split; auto; rewrite ?app_nil_r; auto. }
  destruct H as (b & r & s2 & Hb & Hw & H).
  apply while_loop_spec in Hw. fields_in Hw.
  destruct Hw as (HX & Hsol & He & Hlog).
  destruct Hb as (xLt0 & fLt0 & xPt0 & fPt0 & HxLt & HfLt & HxPt & HfPt & Hb).
  assert (Hloc : forall b', reach' event b b' -> resolved' b' = true ->
            located odeint TOLERANCE (sol s) (xLt b', fLt b', j)).
  { intros b' Hreach Hres. exists fLt0, event, b, b'.
    subst b. repeat split; auto. }
  unfold log_after in Hlog.
  destruct r as [t'|].
  - destruct Hlog as (b' & Hreach & Hres & Hlog).
    destruct (COLLECTEVENT (direction b') _ _).
    + destruct Hlog as (HTE & HYE & HIE & ->). fields_in HTE.
      assert (Happ : appended [(xLt b', fLt b', j)] s s2)
        by (unfold appended; simpl; auto).
      destruct (isterminal b').
      * destruct H as [-> (te & ye & Hte & Hye & HX2 & Hsol2 & ->)].
        rewrite HTE, getitem_m1 in Hte. rewrite HYE, getitem_m1 in Hye.
        injection Hte as <-. injection Hye as <-.
        exists [(xLt b', fLt b', j)]. fields.
        split; [exact Happ|]. split; [auto|]. split; [auto|].
        exists (xLt b', fLt b', j), []. rewrite HX, Hsol in *.
        repeat split; auto.
      * destruct H as [-> ->].
        exists [(xLt b', fLt b', j)]. repeat split; auto.
    + destruct Hlog as (HTE & HYE & HIE & ->). destruct H as [-> ->].
      exists []. unfold appended. simpl. rewrite !app_nil_r.
      repeat split; auto.
  - destruct Hlog as (HTE & HYE & HIE). destruct H as [-> ->].
    exists []. unfold appended. simpl. rewrite !app_nil_r.
    repeat split; auto.
Qed.

(** The events of a step, from the [j]-th on. *)
Lemma events_loop_log i :
  forall events j s g s',
    events_loop' i j events s = (Done g, s') ->
    exists recs,
      appended recs s s' /\ Forall (located odeint TOLERANCE (sol s)) recs /\
      match g with
      | Go => X s' = X s /\ sol s' = sol s
      | Stop =>
          exists r l, recs = l ++ [r] /\ X s <> [] /\ sol s <> [] /\
            X s' = removelast (X s) ++ [rx r] /\
            sol s' = removelast (sol s) ++ [ry r]
      end.
Proof.
  induction events as [|event rest IH]; intros j s g s' H; simpl in H.
  - apply ret_Done in H. destruct H as [-> ->].
    exists []. split; [apply appended_nil|]. auto.
  - mstep H. apply event_step_log in Ha.
    destruct Ha as (recs1 & Happ1 & Hloc1 & _ & Hg1).
    destruct a as [|].
    + destruct Hg1 as [HX1 Hsol1].
      apply IH in H. destruct H as (recs2 & Happ2 & Hloc2 & Hg2).
      exists (recs1 ++ recs2).
      split; [eapply appended_trans; eauto|].
      rewrite Hsol1 in Hloc2. split; [apply Forall_app; auto|].
      destruct g.
      * rewrite HX1, Hsol1 in Hg2. exact Hg2.
      * destruct Hg2 as (r & l & -> & Hg2). rewrite HX1, Hsol1 in Hg2.
        exists r, (recs1 ++ l). rewrite app_assoc. auto.
    + apply ret_Done in H. destruct H as [-> ->].
      exists recs1. auto.
Qed.

(** *** The steps of the grid *)

Lemma reach_fLt event b b' :
  reach' event b b' -> fLt b' = fLt b \/ component_last odeint (fLt b').
Proof.
  induction 1 as [b|b b' Hres Hnear Hreach IH
                  |b b' row ok new_f new_e t d Hres Hnear Hode Hrow Hev Hreach IH].
  - now left.
  - exact IH.
  - destruct IH as [IH|IH]; [|now right].
    rewrite IH. unfold update.
    destruct (gt (mul (eLt b) new_e) zero); simpl; [now left|].
    right. exists (fPt b), (xPt b), (estimate b), row, ok, new_f. auto.
Qed.

Lemma located_sound samples c r :
  component0 odeint [c] ->
  located odeint TOLERANCE (samples ++ [[c]]) r -> sound odeint r.
Proof.
  intros Hc (smp & event & b0 & b' & Hsmp & Hb0 & Hreach & Hres & Hx & Hy).
  rewrite getitem_m1 in Hsmp. injection Hsmp as <-.
  split.
  - rewrite Hx. unfold resolved in Hres.
    now destruct (close_is_finite _ _ _ Hres).
  - rewrite Hy. destruct (reach_fLt Hreach) as [E|E]; [|now right].
    left. now rewrite E, Hb0.
Qed.

Lemma integrate_Done y x1 x2 s row s' :
  integrate odeint full_output y x1 x2 s = (Done row, s') ->
  exists ok, odeint y x1 x2 = (row, ok) /\
    s' = emit (Solve y x1 x2 ::
               report full_output ok) s.
Proof.
  intros H.
  destruct (integrate_cases odeint full_output y x1 x2 s)
    as (row' & ok & Hode & [[_ E]|[_ E]]); rewrite E in H;
    [discriminate H|].
  injection H as <- <-. exists ok. split; [exact Hode|reflexivity].
Qed.

(** One step of the grid. *)
Lemma grid_step_log xspan events i x1 s g s' :
  grid_step' xspan events i x1 s = (Done g, s') ->
  exists x2 f1 row ok c recs,
    nth_error xspan (i + 1) = Some x2 /\
    nth_error (sol s) i = Some f1 /\
    odeint f1 x1 x2 = (row, ok) /\ Py.getitem row 0 = Some c /\
    appended recs s s' /\
    Forall (located odeint TOLERANCE (sol s ++ [[c]])) recs /\
    match g with
    | Go => X s' = X s ++ [x2] /\ sol s' = sol s ++ [[c]]
    | Stop =>
        exists r l, recs = l ++ [r] /\
          X s' = X s ++ [rx r] /\ sol s' = sol s ++ [ry r]
    end.
Proof.
  unfold grid_step. intros H.
  mstep H. rewrite getitem_nat in Ha. rename Ha into Hx2, a into x2.
  mstep H. mstep H. rewrite getitem_nat in Ha. rename Ha into Hf1, a into f1.
  mstep H. apply integrate_Done in Ha. destruct Ha as (ok & Hode & ->).
  rename a into row.
  mstep H. mstep H. rename Ha into Hc, a into c. mstep H.
  apply events_loop_log in H. fields_in H.
  destruct H as (recs & Happ & Hloc & Hg).
  exists x2, f1, row, ok, c, recs.
  split; [exact Hx2|]. split; [exact Hf1|]. split; [exact Hode|].
  split; [exact Hc|]. split; [exact Happ|]. split; [exact Hloc|].
  destruct g.
  - exact Hg.
  - destruct Hg as (r & l & -> & _ & _ & HX & Hsol).
    rewrite removelast_last in HX, Hsol. exists r, l. auto.
Qed.

Lemma skipn_nth {A} (l : list A) (k : nat) (a : A) :
  nth_error l k = Some a -> skipn k l = a :: skipn (S k) l.
Proof.
  revert k. induction l as [|b l IH]; intros [|k] H; simpl in *;
    try discriminate H.
  - now injection H as ->.
  - now apply IH.
Qed.

(** The steps of the grid from the [i]-th on. *)
Lemma grid_loop_log xspan events :
  forall xs i s ex s',
    grid_loop' xspan events i xs s = (Done ex, s') ->
    exists recs,
      appended recs s s' /\ Forall (sound odeint) recs /\
      match ex with
      | AtGridEnd =>
          X s' = X s ++ firstn (length xs) (skipn (i + 1) xspan) /\
          length (firstn (length xs) (skipn (i + 1) xspan)) = length xs /\
          exists smps, sol s' = sol s ++ smps /\ length smps = length xs /\
                       Forall (component0 odeint) smps
      | AtEvent =>
          exists k r l, k < length xs /\ recs = l ++ [r] /\
            X s' = X s ++ firstn k (skipn (i + 1) xspan) ++ [rx r] /\
            length (firstn k (skipn (i + 1) xspan)) = k /\
            exists smps, sol s' = sol s ++ smps ++ [ry r] /\
                         length smps = k /\ Forall (component0 odeint) smps
      end.
Proof.
  induction xs as [|x1 xs IH]; intros i s ex s' H; simpl in H.
  - apply ret_Done in H. destruct H as [-> ->].
    exists []. split; [apply appended_nil|]. split; [constructor|].
    simpl. rewrite app_nil_r. repeat split; auto.
    exists []. rewrite app_nil_r. auto.
  - mstep H. apply grid_step_log in Ha.
    destruct Ha as (x2 & f1 & row & ok & c & recs1 & Hx2 & Hf1 & Hode & Hc
                    & Happ1 & Hloc1 & Hg).
    assert (Hc0 : component0 odeint [c])
      by (exists f1, x1, x2, row, ok, c; auto).
    assert (Hsound1 : Forall (sound odeint) recs1).
    { eapply Forall_impl; [|exact Hloc1].
      intros r. now apply located_sound. }
    rewrite (skipn_nth _ _ Hx2).
    set (later := skipn (S (i + 1)) xspan) in *.
    destruct a.
    + destruct Hg as [HX1 Hsol1].
      apply IH in H. destruct H as (recs2 & Happ2 & Hsound2 & Hex).
      replace (S i + 1) with (S (i + 1)) in Hex by lia. fold later in Hex.
      exists (recs1 ++ recs2).
      split; [eapply appended_trans; eauto|].
      split; [apply Forall_app; auto|].
      destruct ex.
      * destruct Hex as (k & r & l & Hk & -> & HX & Hlen & smps & Hsol & Hsl & Hs0).
        exists (S k), r, (recs1 ++ l).
        split; [simpl; lia|]. split; [now rewrite app_assoc|].
        rewrite HX, HX1, Hsol, Hsol1. simpl. rewrite <- !app_assoc. simpl.
        split; [reflexivity|]. split; [now rewrite Hlen|].
        exists ([c] :: smps). simpl. repeat split; auto.
      * destruct Hex as (HX & Hlen & smps & Hsol & Hsl & Hs0).
        rewrite HX, HX1, Hsol, Hsol1. simpl. rewrite <- !app_assoc. simpl.
        split; [reflexivity|]. split; [now rewrite Hlen|].
        exists ([c] :: smps). simpl. repeat split; auto.
    + apply ret_Done in H. destruct H as [-> ->].
      destruct Hg as (r & l & -> & HX & Hsol).
      exists (l ++ [r]). split; [exact Happ1|]. split; [exact Hsound1|].
      exists 0, r, l. simpl. split; [lia|]. repeat split; auto.
      exists []. simpl. auto.
Qed.

End Steps.

(** ** Every run ends, and the log of effects is write-only *)

Section Combinators.

Context {A B : Type}.

Lemma total_ret (a : A) : total (ret a).
Proof. intros s. discriminate. Qed.

Lemma total_raise (x : exn) : total (@raise A x).
Proof. intros s. discriminate. Qed.

Lemma total_gets (f : store -> A) : total (gets f).
Proof. intros s. discriminate. Qed.

Lemma total_index (l : list A) (i : Z) : total (index l i).
Proof. intros s. unfold index. destruct (Py.getitem l i); discriminate. Qed.

Lemma total_bind (m : M A) (f : A -> M B) :
  total m -> (forall a, total (f a)) -> total (bind m f).
Proof.
  intros Hm Hf s. unfold bind. specialize (Hm s).
  destruct (m s) as [[a|x|] s1]; simpl in *.
  - apply Hf.
  - discriminate.
  - congruence.
Qed.

Lemma blind_ret (a : A) : io_blind (ret a).
Proof. intros s l. exists l. reflexivity. Qed.

Lemma blind_raise (x : exn) : io_blind (@raise A x).
Proof. intros s l. exists l. reflexivity. Qed.

Lemma blind_gets (f : store -> A) :
  (forall s l, f (with_io l s) = f s) -> io_blind (gets f).
Proof. intros Hf s l. exists l. unfold gets. now rewrite Hf. Qed.

Lemma blind_index (l : list A) (i : Z) : io_blind (index l i).
Proof.
  intros s k. exists k. unfold index.
  destruct (Py.getitem l i); reflexivity.
Qed.

Lemma blind_bind (m : M A) (f : A -> M B) :
  io_blind m -> (forall a, io_blind (f a)) -> io_blind (bind m f).
Proof.
  intros Hm Hf s l. unfold bind.
  destruct (Hm s l) as (l1 & E). rewrite E.
  destruct (m s) as [[a|x|] s1]; simpl.
  - apply Hf.
  - exists l1. reflexivity.
  - exists l1. reflexivity.
Qed.

End Combinators.

Lemma total_modify (f : store -> store) : total (modify f).
Proof. intros s. discriminate. Qed.

Lemma blind_modify (f : store -> store) :
  (forall s l, exists l', f (with_io l s) = with_io l' (f s)) ->
  io_blind (modify f).
Proof.
  intros Hf s l. destruct (Hf s l) as (l' & E).
  exists l'. unfold modify. simpl. now rewrite E.
Qed.

Ltac regular_step :=
  first
    [ apply total_ret | apply total_raise | apply total_gets
    | apply total_index | apply total_modify
    | apply blind_ret | apply blind_raise | apply blind_index
    | apply blind_gets; intros; reflexivity
    | apply blind_modify; intros ? ?l; eexists; reflexivity
    | apply total_bind; [|intros ?]
    | apply blind_bind; [|intros ?]
    | match goal with
      | |- total (match ?x with _ => _ end) => destruct x
      | |- io_blind (match ?x with _ => _ end) => destruct x
      | |- total (if ?x then _ else _) => destruct x
      | |- io_blind (if ?x then _ else _) => destruct x
      end ].

Section Regular.

Variable func : rhs.
Variable odeint : solver.
Variable full_output : option bool.
Variable TOLERANCE : float.

Lemma total_integrate y x1 x2 : total (integrate odeint full_output y x1 x2).
Proof. unfold integrate. repeat regular_step. Qed.

Lemma blind_integrate y x1 x2 : io_blind (integrate odeint full_output y x1 x2).
Proof. unfold integrate. repeat regular_step. Qed.

Lemma blind_body j event i b :
  io_blind (body odeint full_output TOLERANCE j event i b).
Proof.
  unfold body. repeat regular_step. apply blind_integrate.
Qed.

Lemma blind_while j event i :
  forall fuel k b,
    io_blind (while_loop odeint full_output TOLERANCE fuel j event i k b).
Proof.
  induction fuel as [|fuel IH]; intros k b; simpl.
  - intros s l. exists l. reflexivity.
  - destruct (k <? 100); [|apply blind_ret].
    apply blind_bind; [apply blind_body|].
    intros [t|b'|b']; [apply blind_ret|apply IH|apply IH].
Qed.

Lemma total_while0 j event i b :
  total (while_loop odeint full_output TOLERANCE fuel0 j event i 0 b).
Proof. intros s. apply while_loop_fuel0. Qed.

Lemma total_del_last {A} (l : list A) : total (del_last l).
Proof. unfold del_last. repeat regular_step. Qed.

Lemma blind_del_last {A} (l : list A) : io_blind (del_last l).
Proof. unfold del_last. repeat regular_step. Qed.

Lemma total_truncate : total truncate.
Proof. unfold truncate. repeat regular_step; apply total_del_last. Qed.

Lemma blind_truncate : io_blind truncate.
Proof. unfold truncate. repeat regular_step; apply blind_del_last. Qed.

Lemma total_event_step i j event :
  total (event_step odeint full_output TOLERANCE i j event).
Proof.
  unfold event_step.
  repeat first [apply total_while0 | apply total_truncate | regular_step].
Qed.

Lemma blind_event_step i j event :
  io_blind (event_step odeint full_output TOLERANCE i j event).
Proof.
  unfold event_step.
  repeat first [apply blind_while | apply blind_truncate | regular_step].
Qed.

Lemma total_events_loop i :
  forall events j, total (events_loop odeint full_output TOLERANCE i j events).
Proof.
  induction events as [|event rest IH]; intros j; simpl.
  - apply total_ret.
  - apply total_bind; [apply total_event_step|].
    intros [|]; [apply IH|apply total_ret].
Qed.

Lemma blind_events_loop i :
  forall events j, io_blind (events_loop odeint full_output TOLERANCE i j events).
Proof.
  induction events as [|event rest IH]; intros j; simpl.
  - apply blind_ret.
  - apply blind_bind; [apply blind_event_step|].
    intros [|]; [apply IH|apply blind_ret].
Qed.

Lemma total_grid_step xspan events i x1 :
  total (grid_step odeint full_output TOLERANCE xspan events i x1).
Proof.
  unfold grid_step.
  repeat first [apply total_integrate | apply total_events_loop | regular_step].
Qed.

Lemma blind_grid_step xspan events i x1 :
  io_blind (grid_step odeint full_output TOLERANCE xspan events i x1).
Proof.
  unfold grid_step.
  repeat first [apply blind_integrate | apply blind_events_loop | regular_step].
Qed.

Lemma total_grid_loop xspan events :
  forall xs i, total (grid_loop odeint full_output TOLERANCE xspan events i xs).
Proof.
  induction xs as [|x1 xs IH]; intros i; simpl.
  - apply total_ret.
  - apply total_bind; [apply total_grid_step|].
    intros [|]; [apply IH|apply total_ret].
Qed.

Lemma blind_grid_loop xspan events :
  forall xs i, io_blind (grid_loop odeint full_output TOLERANCE xspan events i xs).
Proof.
  induction xs as [|x1 xs IH]; intros i; simpl.
  - apply blind_ret.
  - apply blind_bind; [apply blind_grid_step|].
    intros [|]; [apply IH|apply blind_ret].
Qed.

Lemma total_init_events y0 x0 :
  forall events i, total (init_events i events y0 x0).
Proof.
  induction events as [|event rest IH]; intros i; simpl.
  - apply total_ret.
  - destruct (event y0 x0) as [[v t] d].
    apply total_bind; [apply total_modify|]. intros _. apply IH.
Qed.

Lemma blind_init_events y0 x0 :
  forall events i, io_blind (init_events i events y0 x0).
Proof.
  induction events as [|event rest IH]; intros i; simpl.
  - apply blind_ret.
  - destruct (event y0 x0) as [[v t] d].
    apply blind_bind; [|intros _; apply IH]. regular_step.
Qed.

Lemma total_f0 y0 x0 : total (f0 func y0 x0).
Proof. unfold f0. repeat regular_step. Qed.

Lemma blind_f0 y0 x0 : io_blind (f0 func y0 x0).
Proof. unfold f0. repeat regular_step. Qed.

Lemma total_odelay_body y0 xspan events :
  total (odelay_body func odeint full_output TOLERANCE y0 xspan events).
Proof.
  unfold odelay_body.
  repeat first [apply total_init_events | apply total_grid_loop
               | apply total_f0 | regular_step].
Qed.

End Regular.

(** ** The whole call *)

Section Call.

Variable func : rhs.
Variable odeint : solver.
Variable full_output : option bool.
Variable TOLERANCE : float.

Local Abbreviation odelay' := (odelay func odeint full_output TOLERANCE).
Local Abbreviation odelay_body' := (odelay_body func odeint full_output TOLERANCE).
Local Abbreviation grid_loop' := (grid_loop odeint full_output TOLERANCE).

(** A call starts with the parameter [events] bound: the body gets the
    list the name stands for. *)
Lemma odelay_entry y0 xspan events :
  odelay' y0 xspan events = odelay_body' y0 xspan events (entry events).
Proof. reflexivity. Qed.

Lemma f0_Done y0 x0 s u s' :
  f0 func y0 x0 s = (Done u, s') -> func y0 x0 = None /\ s' = s.
Proof.
  unfold f0. destruct (func y0 x0) as [x|]; intros H; [discriminate H|].
  apply ret_Done in H. now destruct H.
Qed.

Lemma init_events_spec y0 x0 :
  forall events i s,
  exists s',
    init_events i events y0 x0 s = (Done tt, s') /\
    X s' = X s /\ sol s' = sol s /\
    TE s' = TE s /\ YE s' = YE s /\ IE s' = IE s /\ io s' = io s.
Proof.
  induction events as [|event rest IH]; intros i s; simpl.
  - exists s. repeat split; reflexivity.
  - destruct (event y0 x0) as [[v t] d].
    destruct (IH (S i) (set_e i 0 v s)) as (s' & E & H).
    exists s'. split; [|exact H].
    unfold bind, modify. exact E.
Qed.

(** A call that returns has read [xspan[0]], has set up its variables, and
    returns what the grid loop leaves. *)
Lemma odelay_body_Done y0 xspan events s0 ex s' :
  odelay_body' y0 xspan events s0 = (Done ex, s') ->
  exists x0 rest s1,
    xspan = x0 :: rest /\
    X s1 = [x0] /\ sol s1 = [y0] /\ TE s1 = [] /\ YE s1 = [] /\ IE s1 = [] /\
    grid_loop' xspan events 0 (Py.slice_0_m2 xspan) s1 = (Done ex, s').
Proof.
  unfold odelay_body. intros H.
  mstep H. rename Ha into Hx0, a into x0.
  mstep H. clear Ha a.
  mstep H. apply f0_Done in Ha. destruct Ha as [_ ->]. clear a.
  mstep H. mstep H. rename Ha into Hinit.
  destruct (init_events_spec y0 x0 events 0
              (mkStore [x0] [y0] zeros [] [] [] (io s0) (events_obj s0)))
    as (s1 & E & HX & Hsol & HTE & HYE & HIE & _).
  rewrite E in Hinit. injection Hinit as _ <-.
  destruct xspan as [|x0' rest]; [discriminate Hx0|].
  injection Hx0 as ->.
  exists x0, rest, s1. repeat split; auto.
Qed.

(** The model's loop bound is never met: every call returns or raises. *)
Lemma odelay_fuel y0 xspan events :
  fst (odelay' y0 xspan events) <> OutOfFuel.
Proof. apply total_odelay_body. Qed.

(** The trajectory and the event log of a call that returns. *)
Lemma odelay_log y0 xspan events ex s :
  odelay' y0 xspan events = (Done ex, s) ->
  exists x0 rest recs,
    xspan = x0 :: rest /\
    TE s = map rx recs /\ YE s = map ry recs /\ IE s = map rj recs /\
    Forall (sound odeint) recs /\
    match ex with
    | AtGridEnd =>
        X s = x0 :: firstn (length xspan - 2) rest /\
        exists smps, sol s = y0 :: smps /\
                     length smps = length (Py.slice_0_m2 xspan) /\
                     Forall (component0 odeint) smps
    | AtEvent =>
        exists k r l, k < length xspan - 2 /\ recs = l ++ [r] /\
          X s = x0 :: firstn k rest ++ [rx r] /\
          exists smps, sol s = y0 :: smps ++ [ry r] /\ length smps = k /\
                       Forall (component0 odeint) smps
    end.
Proof.
  rewrite odelay_entry. intros H. apply odelay_body_Done in H.
  destruct H as (x0 & rest & s1 & -> & HX & Hsol & HTE & HYE & HIE & H).
  apply grid_loop_log in H.
  destruct H as (recs & (ATE & AYE & AIE) & Hsound & Hex).
  rewrite HTE in ATE. rewrite HYE in AYE. rewrite HIE in AIE.
  exists x0, rest, recs. repeat (split; [assumption || reflexivity|]).
  assert (Hlen : length (Py.slice_0_m2 (x0 :: rest)) = length (x0 :: rest) - 2).
  { unfold Py.slice_0_m2. rewrite length_firstn. lia. }
  rewrite Hlen in Hex. cbn [skipn Nat.add] in Hex.
  destruct ex.
  - destruct Hex as (k & r & l & Hk & -> & HX' & _ & smps & Hsol' & Hs).
    exists k, r, l. rewrite HX', HX, Hsol', Hsol. simpl.
    repeat split; auto. exists smps. auto.
  - destruct Hex as (HX' & _ & smps & Hsol' & Hs).
    rewrite HX', HX, Hsol', Hsol, Hlen. simpl. split; [reflexivity|].
    exists smps. auto.
Qed.

End Call.

(** ** Running one event forward *)

Section Forward.

Variable func : rhs.
Variable odeint : solver.
Variable full_output : option bool.
Variable TOLERANCE : float.

Local Abbreviation while' := (while_loop odeint full_output TOLERANCE).
Local Abbreviation event_step' := (event_step odeint full_output TOLERANCE).

Lemma bind_run {A B} (m : M A) (f : A -> M B) s a s1 :
  m s = (Done a, s1) -> bind m f s = f a s1.
Proof. intros H. unfold bind. now rewrite H. Qed.

Lemma index_run {A} (l : list A) i a s :
  Py.getitem l i = Some a -> index l i s = (Done a, s).
Proof. intros H. unfold index. now rewrite H. Qed.

(** [event_step] evaluates the event, stores its value, and runs the
    refinement loop exactly when the product of the new and the previous
    value is negative. *)
Lemma event_step_run i j event s y x v t d :
  nth_error (sol s) (i + 1) = Some y ->
  nth_error (X s) (i + 1) = Some x ->
  event y x = (v, t, d) ->
  let s1 := set_e j (i + 1) v s in
  (lt (mul v (e s j i)) zero = false ->
   event_step' i j event s = (Done Go, s1)) /\
  (lt (mul v (e s j i)) zero = true ->
   forall b, first_bracket s v (e s j i) t d b ->
     event_step' i j event s =
     bind (while' fuel0 j event i 0 b) after_refinement s1).
Proof.
  intros Hy Hx Hev s1. subst s1. unfold event_step.
  erewrite bind_run by reflexivity.
  erewrite bind_run by (apply index_run; rewrite getitem_nat; exact Hy).
  erewrite bind_run by reflexivity.
  erewrite bind_run by (apply index_run; rewrite getitem_nat; exact Hx).
  rewrite Hev.
  erewrite bind_run by reflexivity.
  erewrite bind_run by reflexivity.
  erewrite bind_run by reflexivity.
  rewrite !set_e_same, !set_e_prev.
  split; intros Hdet; rewrite Hdet.
  - reflexivity.
  - intros b (xLt0 & fLt0 & xPt0 & fPt0 & HxLt & HfLt & HxPt & HfPt & ->).
    erewrite bind_run by (apply index_run; exact HxLt).
    erewrite bind_run by (apply index_run; exact HfLt).
    erewrite bind_run by (apply index_run; exact HxPt).
    erewrite bind_run by (apply index_run; exact HfPt).
    reflexivity.
Qed.

End Forward.

Section Reset.

Variable func : rhs.
Variable odeint : solver.
Variable full_output : option bool.
Variable TOLERANCE : float.

(** On a grid with a first point, the body calls [func] once, and when
    the call returns it sets up its variables before it reads any of
    them. *)
Lemma odelay_body_reset y0 x0 rest events s0 :
  odelay_body func odeint full_output TOLERANCE y0 (x0 :: rest) events s0 =
  match func y0 x0 with
  | Some x => (Raised x, s0)
  | None =>
      bind (init_events 0 events y0 x0)
           (fun _ => grid_loop odeint full_output TOLERANCE (x0 :: rest)
                       events 0 (Py.slice_0_m2 (x0 :: rest)))
           (mkStore [x0] [y0] zeros [] [] [] (io s0) (events_obj s0))
  end.
Proof.
  unfold odelay_body.
  destruct (@getitem_m1_nonempty _ (x0 :: rest)) as (xf & Hxf);
    [discriminate|].
  erewrite bind_run by reflexivity.
  erewrite bind_run by (apply index_run; exact Hxf).
  unfold f0. destruct (func y0 x0) as [x|]; [reflexivity|].
  erewrite bind_run by reflexivity.
  erewrite bind_run by reflexivity.
  reflexivity.
Qed.

End Reset.

(** ** A call on a grid with a first point returns *)

Section Returns.

Variable func : rhs.
Variable odeint : solver.
Variable full_output : option bool.
Variable TOLERANCE : float.

(** The step integrator returns a state with a component, and
    [full_output] is not given as false. *)
Hypothesis rows : forall y x1 x2, fst (odeint y x1 x2) <> [].
Hypothesis full : full_output <> Some false.

Local Abbreviation body' := (body odeint full_output TOLERANCE).
Local Abbreviation while' := (while_loop odeint full_output TOLERANCE).
Local Abbreviation event_step' := (event_step odeint full_output TOLERANCE).
Local Abbreviation events_loop' := (events_loop odeint full_output TOLERANCE).
Local Abbreviation grid_step' := (grid_step odeint full_output TOLERANCE).
Local Abbreviation grid_loop' := (grid_loop odeint full_output TOLERANCE).
Local Abbreviation odelay' := (odelay func odeint full_output TOLERANCE).




Lemma del_last_run {A} (l : list A) s :
  l <> [] -> del_last l s = (Done (removelast l), s).
Proof. unfold del_last, Py.del_last. destruct l; [congruence|reflexivity]. Qed.

Lemma truncate_returns s :
  X s <> [] -> sol s <> [] -> TE s <> [] -> YE s <> [] ->
  exists s', truncate s = (Done tt, s').
Proof.
  intros HX Hsol HTE HYE. unfold truncate.
  destruct (getitem_m1_nonempty HTE) as (te & Hte).
  destruct (getitem_m1_nonempty HYE) as (ye & Hye).
  erewrite bind_run by reflexivity.
  erewrite bind_run by (apply del_last_run; exact HX).
  erewrite bind_run by reflexivity.
  erewrite bind_run by reflexivity.
  erewrite bind_run by (apply del_last_run; exact Hsol).
  erewrite bind_run by reflexivity.
  erewrite bind_run by reflexivity.
  erewrite bind_run by (apply index_run; exact Hte).
  erewrite bind_run by reflexivity.
  erewrite bind_run by reflexivity.
  erewrite bind_run by (apply index_run; exact Hye).
  eexists. reflexivity.
Qed.






End Returns.

(** ** Auxiliary facts *)

Lemma pair_fst_snd {A B} (p : A * B) (a : A) : fst p = a -> p = (a, snd p).
Proof. destruct p. simpl. now intros ->. Qed.

Lemma COLLECTEVENT_accepts d e1 e0 :
  COLLECTEVENT d e1 e0 = true <-> accepts d e1 e0.
Proof.
  unfold COLLECTEVENT, accepts. split.
  - destruct (d =? 0)%Z eqn:E0; [apply Z.eqb_eq in E0; auto|].
    destruct (gt e1 e0 && (d =? 1)%Z) eqn:E1.
    { apply andb_prop in E1. destruct E1 as [G E1].
      apply Z.eqb_eq in E1. auto. }
    destruct (lt e1 e0 && (d =? -1)%Z) eqn:E2; [|discriminate].
    apply andb_prop in E2. destruct E2 as [L E2].
    apply Z.eqb_eq in E2. auto.
  - intros [->|[[-> G]|[-> L]]]; simpl.
    + reflexivity.
    + now rewrite G.
    + rewrite L. now destruct (gt e1 e0).
Qed.

Lemma not_self_app {A} (l : list A) (a : A) : l <> l ++ [a].
Proof.
  intros H. apply (f_equal (@length A)) in H.
  rewrite length_app in H. simpl in H. lia.
Qed.


Lemma opp_finite (x : float) :
  is_finite (opp x) = is_finite x /\ is_zero (opp x) = is_zero x.
Proof. destruct x; simpl; auto. Qed.

Section Auxiliary.

Variable func : rhs.
Variable odeint : solver.
Variable full_output : option bool.
Variable TOLERANCE : float.

Lemma reach_direction event d b b' :
  (forall y x, snd (event y x) = d) ->
  direction b = d -> reach odeint TOLERANCE event b b' -> direction b' = d.
Proof.
  intros Hd Hb Hreach. induction Hreach
    as [b|b b' Hres Hnear Hreach IH
        |b b' row ok new_f new_e t d' Hres Hnear Hode Hrow Hev Hreach IH].
  - exact Hb.
  - apply IH. exact Hb.
  - apply IH. specialize (Hd [new_f] (estimate b)). rewrite Hev in Hd.
    simpl in Hd. subst d'. unfold update.
    destruct (gt (mul (eLt b) new_e) zero); reflexivity.
Qed.

Lemma body_Next j event i b s b' s' :
  body odeint full_output TOLERANCE j event i b s = (Done (Next b'), s') ->
  exists row ok c new_e t d,
    odeint (fPt b) (xPt b) (estimate b) = (row, ok) /\
    Py.getitem row (-1) = Some c /\
    event [c] (estimate b) = (new_e, t, d) /\
    b' = update b (estimate b) c new_e t d.
Proof.
  unfold body. intros H.
  destruct (resolved TOLERANCE b).
  { mstep H. mstep H. destruct (COLLECTEVENT _ _ _).
    - mstep H. apply ret_Done in H. destruct H as [H _]. discriminate H.
    - apply ret_Done in H. destruct H as [H _]. discriminate H. }
  cbv zeta in H.
  destruct (lt (abs (sub (estimate b) (xPt b))) TOLERANCE).
  { apply ret_Done in H. destruct H as [H _]. discriminate H. }
  mstep H. apply integrate_Done in Ha. destruct Ha as (ok & Hode & ->).
  mstep H. rename Ha into Hrow, a0 into c, a into row.
  destruct (event [c] (estimate b)) as [[new_e t] d] eqn:Hev.
  apply ret_Done in H. destruct H as [H _]. injection H as ->.
  exists row, ok, c, new_e, t, d. auto.
Qed.

End Auxiliary.

(** ** The effects of a call *)

Lemma solves_app l1 l2 : solves (l1 ++ l2) = solves l1 + solves l2.
Proof. unfold solves. now rewrite filter_app, length_app. Qed.

Lemma prints_app l1 l2 : prints (l1 ++ l2) = prints l1 + prints l2.
Proof. unfold prints. now rewrite filter_app, length_app. Qed.

Lemma within_nil fo n : within fo n [].
Proof. unfold within, solves, prints. simpl. destruct fo as [[|]|]; lia. Qed.

Lemma within_app fo n k l1 l2 :
  within fo n l1 -> within fo k l2 -> within fo (n + k) (l1 ++ l2).
Proof.
  unfold within. rewrite solves_app, prints_app.
  destruct fo as [[|]|]; lia.
Qed.

Lemma within_le fo n k l : n <= k -> within fo n l -> within fo k l.
Proof. unfold within. lia. Qed.

Section Effects.

Variable fo : option bool.

Lemma emits_le {A} n k (m : M A) :
  n <= k -> emits (within fo n) m -> emits (within fo k) m.
Proof.
  intros Hle Hm s. destruct (Hm s) as (l & E & W).
  exists l. split; [exact E|]. now apply within_le with n.
Qed.

Lemma emits_ret {A} (a : A) : emits (within fo 0) (ret a).
Proof.
  intros s. exists []. simpl. rewrite app_nil_r.
  split; [reflexivity|apply within_nil].
Qed.

Lemma emits_raise {A} (x : exn) : emits (within fo 0) (@raise A x).
Proof.
  intros s. exists []. simpl. rewrite app_nil_r.
  split; [reflexivity|apply within_nil].
Qed.

Lemma emits_gets {A} (f : store -> A) : emits (within fo 0) (gets f).
Proof.
  intros s. exists []. simpl. rewrite app_nil_r.
  split; [reflexivity|apply within_nil].
Qed.

Lemma emits_index {A} (l : list A) (i : Z) : emits (within fo 0) (index l i).
Proof.
  intros s. exists []. unfold index.
  destruct (Py.getitem l i); simpl; rewrite app_nil_r;
    (split; [reflexivity|apply within_nil]).
Qed.

Lemma emits_modify (f : store -> store) :
  (forall s, io (f s) = io s) -> emits (within fo 0) (modify f).
Proof.
  intros Hf s. exists []. simpl. rewrite Hf, app_nil_r.
  split; [reflexivity|apply within_nil].
Qed.

Lemma emits_bind {A B} n k (m : M A) (f : A -> M B) :
  emits (within fo n) m -> (forall a, emits (within fo k) (f a)) ->
  emits (within fo (n + k)) (bind m f).
Proof.
  intros Hm Hf s. destruct (Hm s) as (l1 & E1 & W1). unfold bind.
  destruct (m s) as [[a|x|] s1]; simpl in E1.
  - destruct (Hf a s1) as (l2 & E2 & W2).
    exists (l1 ++ l2). rewrite E2, E1, app_assoc.
    split; [reflexivity|now apply within_app].
  - exists l1. split; [exact E1|]. apply within_le with n; [lia|exact W1].
  - exists l1. split; [exact E1|]. apply within_le with n; [lia|exact W1].
Qed.

Lemma emits_then {A B} k (m : M A) (f : A -> M B) :
  emits (within fo 0) m -> (forall a, emits (within fo k) (f a)) ->
  emits (within fo k) (bind m f).
Proof. intros Hm Hf. now apply (emits_bind (n := 0) (k := k)). Qed.

End Effects.

(** A run of statements that call nothing. *)
Ltac quiet_step :=
  first
    [ apply emits_ret | apply emits_raise | apply emits_gets
    | apply emits_index
    | apply emits_modify; intros; reflexivity
    | apply emits_then; [|intros ?]
    | match goal with
      | |- emits _ (match ?x with _ => _ end) => destruct x
      | |- emits _ (if ?x then _ else _) => destruct x
      end ].

Section Budget.

Variable func : rhs.
Variable odeint : solver.
Variable full_output : option bool.
Variable TOLERANCE : float.

Lemma emits_integrate y x1 x2 :
  emits (within full_output 1) (integrate odeint full_output y x1 x2).
Proof.
  intros s.
  destruct (integrate_cases odeint full_output y x1 x2 s)
    as (row & ok & _ & [[_ E]|[_ E]]); rewrite E;
    (eexists; split; [reflexivity|]);
    unfold within, solves, prints, report;
    destruct full_output as [[|]|], ok; simpl; lia.
Qed.

(** From pass [k] on, the refinement loop calls [odeint] at most
    [100 - k] times: a pass that calls it is counted. *)
Lemma emits_while j event i :
  forall fuel k b,
    emits (within full_output (100 - k))
          (while_loop odeint full_output TOLERANCE fuel j event i k b).
Proof.
  induction fuel as [|fuel IH]; intros k b s; cbn [while_loop].
  - exists []. simpl. rewrite app_nil_r. split; [reflexivity|apply within_nil].
  - destruct (k <? 100) eqn:Hk.
    2:{ exists []. simpl. rewrite app_nil_r.
        split; [reflexivity|apply within_nil]. }
    apply Nat.ltb_lt in Hk.
    unfold bind at 1. unfold body.
    destruct (resolved TOLERANCE b).
    + mrun. destruct (COLLECTEVENT _ _ _); simpl; exists [];
        rewrite app_nil_r; (split; [reflexivity|apply within_nil]).
    + cbv zeta.
      destruct (lt (abs (sub (estimate b) (xPt b))) TOLERANCE).
      * unfold ret. apply IH.
      * destruct (emits_integrate (fPt b) (xPt b) (estimate b) s)
          as (l1 & E1 & W1).
        unfold bind at 1.
        destruct (integrate odeint full_output (fPt b) (xPt b) (estimate b) s)
          as [[row|x|] s1]; simpl in E1.
        2:{ exists l1. split; [exact E1|].
            apply within_le with 1; [lia|exact W1]. }
        2:{ exists l1. split; [exact E1|].
            apply within_le with 1; [lia|exact W1]. }
        unfold bind at 1. unfold index.
        destruct (Py.getitem row (-1)) as [new_f|].
        2:{ exists l1. split; [exact E1|].
            apply within_le with 1; [lia|exact W1]. }
        unfold ret at 1.
        destruct (event [new_f] (estimate b)) as [[new_e t] d].
        unfold ret at 1.
        destruct (IH (S k) (update b (estimate b) new_f new_e t d) s1)
          as (l2 & E2 & W2).
        exists (l1 ++ l2). rewrite E2, E1, app_assoc.
        split; [reflexivity|].
        apply within_le with (1 + (100 - S k)); [lia|].
        now apply within_app.
Qed.

Lemma emits_del_last {A} (l : list A) :
  emits (within full_output 0) (del_last l).
Proof. unfold del_last. repeat quiet_step. Qed.

Lemma emits_truncate : emits (within full_output 0) truncate.
Proof.
  unfold truncate. repeat first [apply emits_del_last | quiet_step].
Qed.

Lemma emits_event_step i j event :
  emits (within full_output 100)
        (event_step odeint full_output TOLERANCE i j event).
Proof.
  unfold event_step.
  do 4 (apply emits_then; [repeat quiet_step|intros ?]).
  destruct (event _ _) as [[v t] d].
  do 3 (apply emits_then; [repeat quiet_step|intros ?]).
  destruct (lt _ _); [|apply emits_le with 0; [lia|apply emits_ret]].
  do 4 (apply emits_then; [repeat quiet_step|intros ?]).
  apply (emits_bind (n := 100) (k := 0));
    [apply (emits_while j event i fuel0 0)|].
  intros [[|]|]; repeat first [apply emits_truncate | quiet_step].
Qed.

Lemma emits_events_loop i :
  forall events j,
    emits (within full_output (100 * length events))
          (events_loop odeint full_output TOLERANCE i j events).
Proof.
  induction events as [|event rest IH]; intros j; simpl length.
  - apply emits_ret.
  - apply emits_le with (100 + 100 * length rest); [lia|].
    cbn [events_loop].
    apply emits_bind; [apply emits_event_step|].
    intros [|]; [apply IH|].
    apply emits_le with 0; [lia|apply emits_ret].
Qed.

Lemma emits_grid_step xspan events i x1 :
  emits (within full_output (1 + 100 * length events))
        (grid_step odeint full_output TOLERANCE xspan events i x1).
Proof.
  unfold grid_step.
  do 3 (apply emits_then; [repeat quiet_step|intros ?]).
  apply emits_bind; [apply emits_integrate|]. intros f2.
  do 3 (apply emits_then; [repeat quiet_step|intros ?]).
  apply emits_events_loop.
Qed.

Lemma emits_grid_loop xspan events :
  forall xs i,
    emits (within full_output (length xs * (1 + 100 * length events)))
          (grid_loop odeint full_output TOLERANCE xspan events i xs).
Proof.
  induction xs as [|x1 xs IH]; intros i; simpl length.
  - apply emits_ret.
  - apply emits_le
      with ((1 + 100 * length events)
            + length xs * (1 + 100 * length events)); [lia|].
    cbn [grid_loop].
    apply emits_bind; [apply emits_grid_step|].
    intros [|]; [apply IH|].
    apply emits_le with 0; [lia|apply emits_ret].
Qed.

Lemma emits_init_events y0 x0 :
  forall events i, emits (within full_output 0) (init_events i events y0 x0).
Proof.
  induction events as [|event rest IH]; intros i; simpl.
  - apply emits_ret.
  - destruct (event y0 x0) as [[v t] d].
    apply emits_then; [repeat quiet_step|intros _; apply IH].
Qed.

(** What a call adds to the log of effects, whatever its outcome. *)
Lemma emits_odelay_body y0 xspan events :
  emits (within full_output
           ((length xspan - 2) * (1 + 100 * length events)))
        (odelay_body func odeint full_output TOLERANCE y0 xspan events).
Proof.
  unfold odelay_body.
  do 2 (apply emits_then; [repeat quiet_step|intros ?]).
  apply emits_then; [unfold f0; repeat quiet_step|intros ?].
  apply emits_then; [repeat quiet_step|intros ?].
  apply emits_then; [apply emits_init_events|intros _].
  replace (length xspan - 2) with (length (Py.slice_0_m2 xspan))
    by (unfold Py.slice_0_m2; rewrite length_firstn; lia).
  apply emits_grid_loop.
Qed.

End Budget.

(** ** Events that never stop a call or never record *)

(** A distance is below a tolerance only when the tolerance is above
    zero. *)
Lemma lt_abs_positive (z tol : float) :
  lt (abs z) tol = true -> lt zero tol = true.
Proof.
  destruct z as [sz|sz| |sz mz ez], tol as [st|st| |st mt et]; simpl;
    try discriminate; try reflexivity;
    destruct st; simpl; try discriminate; reflexivity.
Qed.

Section Inert.

Variable func : rhs.
Variable odeint : solver.
Variable full_output : option bool.
Variable TOLERANCE : float.

Local Abbreviation inert' := (inert odeint full_output TOLERANCE).
Local Abbreviation mute' := (mute odeint full_output TOLERANCE).

Lemma reach_isterminal event b b' :
  (forall y x, snd (fst (event y x)) = false) ->
  isterminal b = false -> reach odeint TOLERANCE event b b' ->
  isterminal b' = false.
Proof.
  intros Ht Hb Hreach. induction Hreach
    as [b|b b' Hres Hnear Hreach IH
        |b b' row ok new_f new_e t d Hres Hnear Hode Hrow Hev Hreach IH].
  - exact Hb.
  - apply IH. exact Hb.
  - apply IH. specialize (Ht [new_f] (estimate b)). rewrite Hev in Ht.
    simpl in Ht. subst t. unfold update.
    destruct (gt (mul (eLt b) new_e) zero); reflexivity.
Qed.

(** An event at a step either leaves the event log as it was and lets the
    call go on, or has come to a resolved bracket that the direction policy
    takes; it ends the call only when that bracket says terminal. *)
Lemma event_step_cases i j event s g s' :
  event_step odeint full_output TOLERANCE i j event s = (Done g, s') ->
  (g = Go /\ TE s' = TE s /\ YE s' = YE s /\ IE s' = IE s) \/
  (exists y x v t d b b',
      event y x = (v, t, d) /\
      isterminal b = t /\ direction b = d /\
      reach odeint TOLERANCE event b b' /\
      resolved TOLERANCE b' = true /\
      COLLECTEVENT (direction b') v (e s j i) = true /\
      (g = Stop -> isterminal b' = true)).
Proof.
  intros H. apply event_step_spec in H.
  destruct H as (y & x & v & t & d & Hy & Hx & Hev & H). cbv zeta in H.
  destruct (lt (mul v (e s j i)) zero).
  2:{ destruct H as [-> ->]. left. auto. }
  destruct H as (b & r & s2 & Hb & Hw & H).
  apply while_loop_spec in Hw.
  destruct Hw as (_ & _ & _ & Hlog).
  unfold log_after in Hlog. rewrite ?set_e_same, ?set_e_prev in Hlog.
  fields_in Hlog.
  destruct r as [t'|].
  - destruct Hlog as (b' & Hreach & Hres & Hlog).
    destruct (COLLECTEVENT (direction b') v (e s j i)) eqn:Hc.
    + right. exists y, x, v, t, d, b, b'.
      destruct Hb as (? & ? & ? & ? & _ & _ & _ & _ & ->).
      repeat split; auto.
      destruct Hlog as (_ & _ & _ & ->).
      destruct (isterminal b'); [reflexivity|].
      destruct H as [-> _]. discriminate.
    + left. destruct Hlog as (HTE & HYE & HIE & ->).
      destruct H as [-> ->]. auto.
  - left. destruct H as [-> ->]. auto.
Qed.

(** An event that never says terminal never ends the call. *)
Lemma nonterminal_inert event :
  (forall y x, snd (fst (event y x)) = false) -> inert' event.
Proof.
  intros Ht i j s g s' H. apply event_step_cases in H.
  destruct H as [[-> _]|H]; [reflexivity|].
  destruct H as (y & x & v & t & d & b & b' & Hev & Hbt & _ & Hreach & _ & _
                 & Hstop).
  destruct g; [reflexivity|].
  assert (Hf : isterminal b' = false).
  { eapply reach_isterminal; [exact Ht| |exact Hreach].
    rewrite Hbt. specialize (Ht y x). rewrite Hev in Ht. exact Ht. }
  rewrite (Hstop eq_refl) in Hf. discriminate Hf.
Qed.

(** An event whose direction is not 0, 1 or -1 never records and never
    ends the call. *)
Lemma stray_direction event d :
  (forall y x, snd (event y x) = d) ->
  d <> 0%Z -> d <> 1%Z -> d <> (-1)%Z ->
  inert' event /\ mute' event.
Proof.
  intros Hd H0 H1 Hm1.
  assert (Hno : forall i j s g s',
             event_step odeint full_output TOLERANCE i j event s
             = (Done g, s') ->
             g = Go /\ TE s' = TE s /\ YE s' = YE s /\ IE s' = IE s).
  { intros i j s g s' H. apply event_step_cases in H.
    destruct H as [H|H]; [exact H|exfalso].
    destruct H as (y & x & v & t & d' & b & b' & Hev & _ & Hbd & Hreach & _
                   & Hc & _).
    assert (Hdir : direction b' = d).
    { eapply reach_direction; [exact Hd| |exact Hreach].
      rewrite Hbd. specialize (Hd y x). rewrite Hev in Hd. exact Hd. }
    rewrite Hdir in Hc. apply COLLECTEVENT_accepts in Hc.
    destruct Hc as [Hc|[[Hc _]|[Hc _]]]; congruence. }
  split; intros i j s g s' H; apply Hno in H; tauto.
Qed.

(** With a tolerance that is not above zero, no bracket is ever resolved:
    no event records, and none ends the call. *)
Lemma no_tolerance event :
  lt zero TOLERANCE = false -> inert' event /\ mute' event.
Proof.
  intros Htol.
  assert (Hno : forall i j s g s',
             event_step odeint full_output TOLERANCE i j event s
             = (Done g, s') ->
             g = Go /\ TE s' = TE s /\ YE s' = YE s /\ IE s' = IE s).
  { intros i j s g s' H. apply event_step_cases in H.
    destruct H as [H|H]; [exact H|exfalso].
    destruct H as (y & x & v & t & d' & b & b' & _ & _ & _ & _ & Hres & _).
    unfold resolved in Hres. apply lt_abs_positive in Hres. congruence. }
  split; intros i j s g s' H; apply Hno in H; tauto.
Qed.

Lemma events_loop_inert i :
  forall events j s g s',
    Forall inert' events ->
    events_loop odeint full_output TOLERANCE i j events s = (Done g, s') ->
    g = Go.
Proof.
  induction events as [|event rest IH]; intros j s g s' Hall H;
    cbn [events_loop] in H.
  - apply ret_Done in H. now destruct H.
  - inversion Hall as [|? ? Hev Hrest]; subst.
    mstep H. apply Hev in Ha. subst a. now apply IH in H.
Qed.

Lemma events_loop_mute i :
  forall events j s g s',
    Forall mute' events ->
    events_loop odeint full_output TOLERANCE i j events s = (Done g, s') ->
    TE s' = TE s /\ YE s' = YE s /\ IE s' = IE s.
Proof.
  induction events as [|event rest IH]; intros j s g s' Hall H;
    cbn [events_loop] in H.
  - apply ret_Done in H. destruct H as [_ ->]. auto.
  - inversion Hall as [|? ? Hev Hrest]; subst.
    mstep H. apply Hev in Ha. destruct Ha as (HTE & HYE & HIE).
    destruct a.
    + apply IH in H; [|exact Hrest]. destruct H as (-> & -> & ->). auto.
    + apply ret_Done in H. destruct H as [_ ->]. auto.
Qed.

(** What a step of the grid hands to its events. *)
Lemma grid_step_events xspan events i x1 s g s' :
  grid_step odeint full_output TOLERANCE xspan events i x1 s = (Done g, s') ->
  exists s1,
    TE s1 = TE s /\ YE s1 = YE s /\ IE s1 = IE s /\
    events_loop odeint full_output TOLERANCE i 0 events s1 = (Done g, s').
Proof.
  unfold grid_step. intros H.
  mstep H. rename Ha into Hx2, a into x2.
  mstep H. mstep H. rename Ha into Hf1, a into f1.
  mstep H. apply integrate_Done in Ha. destruct Ha as (ok & Hode & ->).
  rename a into row.
  mstep H. mstep H. rename Ha into Hc, a into c. mstep H.
  eexists. split; [|split; [|split; [|exact H]]]; reflexivity.
Qed.

Lemma grid_loop_inert xspan events :
  Forall inert' events ->
  forall xs i s ex s',
    grid_loop odeint full_output TOLERANCE xspan events i xs s
    = (Done ex, s') ->
    ex = AtGridEnd.
Proof.
  intros Hall. induction xs as [|x1 xs IH]; intros i s ex s' H;
    cbn [grid_loop] in H.
  - apply ret_Done in H. now destruct H.
  - mstep H. apply grid_step_events in Ha.
    destruct Ha as (s1 & _ & _ & _ & Ha).
    apply events_loop_inert in Ha; [|exact Hall]. subst a.
    now apply IH in H.
Qed.

Lemma grid_loop_mute xspan events :
  Forall mute' events ->
  forall xs i s ex s',
    grid_loop odeint full_output TOLERANCE xspan events i xs s
    = (Done ex, s') ->
    TE s' = TE s /\ YE s' = YE s /\ IE s' = IE s.
Proof.
  intros Hall. induction xs as [|x1 xs IH]; intros i s ex s' H;
    cbn [grid_loop] in H.
  - apply ret_Done in H. destruct H as [_ ->]. auto.
  - mstep H. apply grid_step_events in Ha.
    destruct Ha as (s1 & HTE & HYE & HIE & Ha).
    apply events_loop_mute in Ha; [|exact Hall].
    destruct Ha as (HTE' & HYE' & HIE').
    destruct a.
    + apply IH in H. destruct H as (-> & -> & ->).
      rewrite HTE', HYE', HIE'. auto.
    + apply ret_Done in H. destruct H as [_ ->].
      rewrite HTE', HYE', HIE'. auto.
Qed.

Lemma odelay_inert y0 xspan events ex s :
  Forall inert' events ->
  odelay func odeint full_output TOLERANCE y0 xspan events = (Done ex, s) ->
  ex = AtGridEnd.
Proof.
  intros Hall H. rewrite odelay_entry in H. apply odelay_body_Done in H.
  destruct H as (x0 & rest & s1 & _ & _ & _ & _ & _ & _ & H).
  now apply grid_loop_inert in H.
Qed.

Lemma odelay_mute y0 xspan events ex s :
  Forall mute' events ->
  odelay func odeint full_output TOLERANCE y0 xspan events = (Done ex, s) ->
  TE s = [] /\ YE s = [] /\ IE s = [].
Proof.
  intros Hall H. rewrite odelay_entry in H. apply odelay_body_Done in H.
  destruct H as (x0 & rest & s1 & _ & _ & _ & HTE & HYE & HIE & H).
  apply grid_loop_mute in H; [|exact Hall].
  destruct H as (-> & -> & ->). auto.
Qed.

End Inert.

(** ** The indices of the event log *)

Section Indices.

Variable func : rhs.
Variable odeint : solver.
Variable full_output : option bool.
Variable TOLERANCE : float.

Lemma events_loop_IE i :
  forall events j s g s',
    events_loop odeint full_output TOLERANCE i j events s = (Done g, s') ->
    exists js, IE s' = IE s ++ js /\
               Forall (fun k => j <= k < j + length events) js.
Proof.
  induction events as [|event rest IH]; intros j s g s' H;
    cbn [events_loop] in H.
  - apply ret_Done in H. destruct H as [_ ->].
    exists []. now rewrite app_nil_r.
  - mstep H. apply event_step_log in Ha.
    destruct Ha as (recs & (_ & _ & HIE) & _ & Hj & _).
    assert (Hrecs : Forall (fun k => j <= k < j + length (event :: rest))
                      (map rj recs)).
    { apply Forall_map. eapply Forall_impl; [|exact Hj].
      intros r ->. simpl. lia. }
    destruct a.
    + apply IH in H. destruct H as (js & HIE' & Hjs).
      exists (map rj recs ++ js). rewrite HIE', HIE, app_assoc.
      split; [reflexivity|]. apply Forall_app. split; [exact Hrecs|].
      eapply Forall_impl; [|exact Hjs]. intros k Hk.
      cbn [length] in *. cbv beta in *. lia.
    + apply ret_Done in H. destruct H as [_ ->].
      exists (map rj recs). auto.
Qed.

Lemma grid_loop_IE xspan events :
  forall xs i s ex s',
    grid_loop odeint full_output TOLERANCE xspan events i xs s
    = (Done ex, s') ->
    exists js, IE s' = IE s ++ js /\
               Forall (fun k => k < length events) js.
Proof.
  induction xs as [|x1 xs IH]; intros i s ex s' H; cbn [grid_loop] in H.
  - apply ret_Done in H. destruct H as [_ ->].
    exists []. now rewrite app_nil_r.
  - mstep H. apply grid_step_events in Ha.
    destruct Ha as (s1 & _ & _ & HIE & Ha).
    apply events_loop_IE in Ha. destruct Ha as (js1 & HIE1 & Hjs1).
    rewrite HIE in HIE1.
    assert (Hjs1' : Forall (fun k => k < length events) js1).
    { eapply Forall_impl; [|exact Hjs1]. intros k Hk.
      cbv beta in *. lia. }
    destruct a.
    + apply IH in H. destruct H as (js & HIE' & Hjs).
      exists (js1 ++ js). rewrite HIE', HIE1, app_assoc.
      split; [reflexivity|]. apply Forall_app. auto.
    + apply ret_Done in H. destruct H as [_ ->].
      exists js1. auto.
Qed.

End Indices.

(** ** The trajectory, step by step *)

Section Chain.

Variable func : rhs.
Variable odeint : solver.
Variable full_output : option bool.
Variable TOLERANCE : float.

Lemma chained_prefix xspan s s' l1 l2 k :
  sol s' = sol s ++ l1 -> X s' = X s ++ l2 ->
  k + 1 < length (sol s) -> k + 1 < length (X s) ->
  chained odeint xspan s k -> chained odeint xspan s' k.
Proof.
  intros Hsol HX Hk1 Hk2 (f1 & x1 & x2 & row & ok & c & H1 & H2 & H3 & H4 & H5
                          & H6 & H7).
  exists f1, x1, x2, row, ok, c.
  rewrite Hsol, HX, !nth_error_app1 by lia. auto 10.
Qed.

Lemma grid_loop_chain xspan events :
  forall xs i s ex s',
    length (sol s) = i + 1 -> length (X s) = i + 1 ->
    (forall k x, nth_error xs k = Some x ->
                 nth_error xspan (i + k) = Some x) ->
    (forall k, k < i -> chained odeint xspan s k) ->
    grid_loop odeint full_output TOLERANCE xspan events i xs s
    = (Done ex, s') ->
    forall k,
      k + 1 < length (sol s') - match ex with
                                | AtEvent => 1
                                | AtGridEnd => 0
                                end ->
      chained odeint xspan s' k.
Proof.
  induction xs as [|x1 xs IH]; intros i s ex s' Hsol HX Hxs Hpre H;
    cbn [grid_loop] in H.
  - apply ret_Done in H. destruct H as [-> ->].
    intros k Hk. apply Hpre. lia.
  - mstep H. apply grid_step_log in Ha.
    destruct Ha as (x2 & f1 & row & ok & c & recs & Hx2 & Hf1 & Hode & Hc
                    & _ & _ & Hg).
    destruct a.
    + destruct Hg as [HX1 Hsol1].
      eapply IH; [| | | |exact H].
      * rewrite Hsol1, length_app. simpl. lia.
      * rewrite HX1, length_app. simpl. lia.
      * intros k x Hk. replace (S i + k) with (i + S k) by lia.
        apply Hxs. exact Hk.
      * intros k Hk. destruct (Nat.eq_dec k i) as [->|Hne].
        -- exists f1, x1, x2, row, ok, c.
           rewrite Hsol1, HX1.
           rewrite (nth_error_app1 _ _ (n := i)) by lia.
           rewrite !nth_error_app2 by lia.
           replace (i + 1 - length (sol s)) with 0 by lia.
           replace (i + 1 - length (X s)) with 0 by lia.
           specialize (Hxs 0 x1 eq_refl). rewrite Nat.add_0_r in Hxs.
           auto 10.
        -- eapply chained_prefix; [exact Hsol1|exact HX1| | |apply Hpre];
             lia.
    + apply ret_Done in H. destruct H as [-> ->].
      destruct Hg as (r & l & _ & HX1 & Hsol1).
      intros k Hk. rewrite Hsol1, length_app in Hk. simpl in Hk.
      eapply chained_prefix; [exact Hsol1|exact HX1| | |apply Hpre]; lia.
Qed.

Lemma nth_error_firstn_Some {A} (l : list A) :
  forall n k a, nth_error (firstn n l) k = Some a -> nth_error l k = Some a.
Proof.
  induction l as [|b l IH]; intros [|n] [|k] a H; simpl in *;
    try discriminate H; auto.
  eapply IH. exact H.
Qed.

End Chain.

(** ** The grid points a call reads *)

Section Reads.

Variable func : rhs.
Variable odeint : solver.
Variable full_output : option bool.
Variable TOLERANCE : float.

Lemma grid_step_ext xspan xspan' events i x1 :
  nth_error xspan (i + 1) = nth_error xspan' (i + 1) ->
  grid_step odeint full_output TOLERANCE xspan events i x1 =
  grid_step odeint full_output TOLERANCE xspan' events i x1.
Proof.
  intros H. unfold grid_step, index. now rewrite !getitem_nat, H.
Qed.

Lemma grid_loop_ext xspan xspan' events :
  forall xs i,
    (forall k, k < length xs ->
               nth_error xspan (i + 1 + k) = nth_error xspan' (i + 1 + k)) ->
    grid_loop odeint full_output TOLERANCE xspan events i xs =
    grid_loop odeint full_output TOLERANCE xspan' events i xs.
Proof.
  induction xs as [|x1 xs IH]; intros i H; cbn [grid_loop]; [reflexivity|].
  rewrite (grid_step_ext xspan xspan' events i x1).
  2:{ specialize (H 0). rewrite Nat.add_0_r in H. apply H. simpl. lia. }
  rewrite (IH (S i)); [reflexivity|].
  intros k Hk. replace (S i + 1 + k) with (i + 1 + S k) by lia.
  apply H. simpl. lia.
Qed.

End Reads.

(** ** numpy arrays: facts *)

Section NpFacts.

Context {A : Type}.

Lemma span_from (l : list A) (a : nat) :
  Np.span l (Some (Z.of_nat a)) None =
  (Nat.min a (length l), length l - Nat.min a (length l)).
Proof.
  unfold Np.span, Np.bound.
  destruct (Z.of_nat a <? 0)%Z eqn:E; [apply Z.ltb_lt in E; lia|].
  f_equal; lia.
Qed.

Lemma span_neg (l : list A) (a b : nat) :
  0 < b ->
  Np.span l (Some (Z.of_nat a)) (Some (- Z.of_nat b)%Z) =
  (Nat.min a (length l), length l - b - Nat.min a (length l)).
Proof.
  intros Hb. unfold Np.span, Np.bound.
  destruct (Z.of_nat a <? 0)%Z eqn:E; [apply Z.ltb_lt in E; lia|].
  destruct (- Z.of_nat b <? 0)%Z eqn:E'; [|apply Z.ltb_ge in E'; lia].
  f_equal; lia.
Qed.

Lemma nth_error_slice_from (l : list A) (a k : nat) :
  nth_error (Np.slice l (Some (Z.of_nat a)) None) k = nth_error l (a + k).
Proof.
  unfold Np.slice. rewrite span_from, nth_error_firstn, nth_error_skipn.
  destruct (k <? length l - Nat.min a (length l)) eqn:E.
  - apply Nat.ltb_lt in E. f_equal. lia.
  - apply Nat.ltb_ge in E. symmetry. apply nth_error_None. lia.
Qed.

Lemma nth_error_slice_neg (l : list A) (a b k : nat) :
  0 < b ->
  nth_error (Np.slice l (Some (Z.of_nat a)) (Some (- Z.of_nat b)%Z)) k =
  if k <? length l - b - a then nth_error l (a + k) else None.
Proof.
  intros Hb. unfold Np.slice.
  rewrite span_neg, nth_error_firstn, nth_error_skipn by exact Hb.
  destruct (k <? length l - b - Nat.min a (length l)) eqn:E.
  - apply Nat.ltb_lt in E.
    destruct (k <? length l - b - a) eqn:E'.
    + apply Nat.ltb_lt in E'. f_equal. lia.
    + apply Nat.ltb_ge in E'. lia.
  - apply Nat.ltb_ge in E.
    destruct (k <? length l - b - a) eqn:E'; [|reflexivity].
    apply Nat.ltb_lt in E'. lia.
Qed.

Lemma length_slice_from (l : list A) (a : nat) :
  length (Np.slice l (Some (Z.of_nat a)) None) = length l - a.
Proof.
  unfold Np.slice. rewrite span_from, length_firstn, length_skipn. lia.
Qed.

Lemma length_slice_neg (l : list A) (a b : nat) :
  0 < b ->
  length (Np.slice l (Some (Z.of_nat a)) (Some (- Z.of_nat b)%Z))
  = length l - b - a.
Proof.
  intros Hb. unfold Np.slice.
  rewrite span_neg, length_firstn, length_skipn by exact Hb. lia.
Qed.

(** [l[i]] is there exactly for the indices Python takes. *)
Lemma item_cases (l : list A) (i : Z) :
  match Np.item l i with
  | Np.Ok a => Np.in_bounds l i /\ nth_error l (Np.place l i) = Some a
  | Np.Err x => ~ Np.in_bounds l i /\ x = Np.IndexError
  end.
Proof.
  unfold Np.item, Py.getitem, Np.in_bounds, Np.place. cbv zeta.
  destruct (i <? 0)%Z eqn:E.
  - cbv iota. apply Z.ltb_lt in E.
    destruct (i + Z.of_nat (length l) <? 0)%Z eqn:E'.
    + apply Z.ltb_lt in E'. split; [lia|reflexivity].
    + apply Z.ltb_ge in E'.
      destruct (nth_error l (Z.to_nat (i + Z.of_nat (length l)))) eqn:N.
      * split; [lia|reflexivity].
      * apply nth_error_None in N. lia.
  - cbv iota. rewrite E. apply Z.ltb_ge in E.
    destruct (nth_error l (Z.to_nat i)) eqn:N.
    + assert (Z.to_nat i < length l) by (apply nth_error_Some; congruence).
      split; [lia|reflexivity].
    + apply nth_error_None in N. split; [lia|reflexivity].
Qed.

Lemma nth_error_update (l : list A) (k j : nat) (v : A) :
  k < length l ->
  nth_error (firstn k l ++ v :: skipn (S k) l) j =
  if j =? k then Some v else nth_error l j.
Proof.
  intros Hk. rewrite nth_error_app, length_firstn.
  replace (Nat.min k (length l)) with k by lia.
  destruct (j <? k) eqn:E.
  - apply Nat.ltb_lt in E. rewrite nth_error_firstn.
    destruct (j =? k) eqn:E'; [apply Nat.eqb_eq in E'; lia|].
    destruct (j <? k) eqn:E''; [reflexivity|apply Nat.ltb_ge in E''; lia].
  - apply Nat.ltb_ge in E.
    destruct (j =? k) eqn:E'.
    + apply Nat.eqb_eq in E'. subst j. now rewrite Nat.sub_diag.
    + apply Nat.eqb_neq in E'.
      destruct (j - k) as [|d] eqn:D; [lia|]. cbn [nth_error].
      rewrite nth_error_skipn. f_equal. lia.
Qed.

(** [l[i] = v] *)
Lemma setitem_cases (l : list A) (i : Z) (v : A) :
  match Np.setitem l i v with
  | Np.Ok l' =>
      Np.in_bounds l i /\ length l' = length l /\
      forall j, nth_error l' j =
                if j =? Np.place l i then Some v else nth_error l j
  | Np.Err x => ~ Np.in_bounds l i /\ x = Np.IndexError
  end.
Proof.
  unfold Np.setitem, Np.in_bounds, Np.place. cbv zeta.
  set (k := if (i <? 0)%Z then (i + Z.of_nat (length l))%Z else i).
  assert (Hk : k = if (i <? 0)%Z then (i + Z.of_nat (length l))%Z else i)
    by reflexivity.
  destruct ((k <? 0)%Z || (Z.of_nat (length l) <=? k)%Z) eqn:E.
  - apply orb_true_iff in E. split; [|reflexivity].
    destruct (i <? 0)%Z eqn:Ei;
      [apply Z.ltb_lt in Ei|apply Z.ltb_ge in Ei];
      destruct E as [E|E];
      try apply Z.ltb_lt in E; try apply Z.leb_le in E; lia.
  - apply orb_false_iff in E. destruct E as [E1 E2].
    apply Z.ltb_ge in E1. apply Z.leb_gt in E2.
    assert (Hlt : Z.to_nat k < length l) by lia.
    split; [|split].
    + destruct (i <? 0)%Z eqn:Ei;
        [apply Z.ltb_lt in Ei|apply Z.ltb_ge in Ei]; lia.
    + rewrite length_app, length_firstn. cbn [length].
      rewrite length_skipn. lia.
    + intros j. now apply nth_error_update.
Qed.

End NpFacts.

Lemma length_map2 (f : float -> float -> float) (a b : list float) :
  length a = length b ->
  length (map (fun p => f (fst p) (snd p)) (combine a b)) = length a.
Proof. intros H. rewrite length_map, length_combine. lia. Qed.

Lemma nth_error_map2 (f : float -> float -> float) :
  forall (a b : list float) (k : nat),
    nth_error (map (fun p => f (fst p) (snd p)) (combine a b)) k =
    match nth_error a k, nth_error b k with
    | Some u, Some v => Some (f u v)
    | _, _ => None
    end.
Proof.
  induction a as [|u a IH]; intros [|v b] [|k]; simpl; auto.
  - now destruct (nth_error a k).
Qed.

(** [a op b]: which lengths go together, and the length of the result. *)
Lemma elementwise_cases (f : float -> float -> float) (a b : Np.array) :
  match Np.elementwise f a b with
  | Np.Ok r =>
      (length a = length b /\ length r = length a /\
       r = map (fun p => f (fst p) (snd p)) (combine a b)) \/
      (length a <> length b /\ length a = 1 /\ length r = length b) \/
      (length a <> length b /\ length b = 1 /\ length r = length a /\
       r = map (fun v => f v (hd zero b)) a)
  | Np.Err x =>
      length a <> length b /\ length a <> 1 /\ length b <> 1 /\
      x = Np.ValueError
  end.
Proof.
  unfold Np.elementwise.
  destruct (length a =? length b) eqn:E.
  - apply Nat.eqb_eq in E. left. split; [exact E|].
    split; [now apply length_map2|reflexivity].
  - apply Nat.eqb_neq in E.
    destruct a as [|c [|c' a']].
    + destruct b as [|d [|d' b']]; simpl in *.
      * congruence.
      * right. right. auto.
      * repeat split; auto; discriminate.
    + right. left. simpl. rewrite length_map. auto.
    + destruct b as [|d [|d' b']]; simpl in *.
      * repeat split; auto; discriminate.
      * right. right. rewrite length_map. simpl. auto.
      * repeat split; auto; discriminate.
Qed.

(** [l[start:stop] = v] *)
Lemma setslice_cases (l : Np.array) (start stop : option Z) (v : Np.array) :
  match Np.setslice l start stop v with
  | Np.Ok l' =>
      (length v = snd (Np.span l start stop) /\
       l' = firstn (fst (Np.span l start stop)) l ++ v
            ++ skipn (fst (Np.span l start stop)
                      + snd (Np.span l start stop)) l) \/
      (length v <> snd (Np.span l start stop) /\ length v = 1)
  | Np.Err x =>
      length v <> snd (Np.span l start stop) /\ length v <> 1 /\
      x = Np.ValueError
  end.
Proof.
  unfold Np.setslice. destruct (Np.span l start stop) as [a t]. simpl.
  destruct (length v =? t) eqn:E.
  - apply Nat.eqb_eq in E. left. auto.
  - apply Nat.eqb_neq in E.
    destruct v as [|c [|c' v']]; simpl in *.
    + repeat split; auto.
    + right. auto.
    + repeat split; auto.
Qed.

Lemma nth_error_setslice (l v : list float) (a j : nat) :
  a + length v <= length l ->
  nth_error (firstn a l ++ v ++ skipn (a + length v) l) j =
  if (a <=? j) && (j <? a + length v) then nth_error v (j - a)
  else nth_error l j.
Proof.
  intros H. rewrite !nth_error_app, length_firstn.
  replace (Nat.min a (length l)) with a by lia.
  rewrite nth_error_firstn, nth_error_skipn.
  destruct (j <? a) eqn:E1.
  - apply Nat.ltb_lt in E1.
    destruct (a <=? j) eqn:E2; [apply Nat.leb_le in E2; lia|reflexivity].
  - apply Nat.ltb_ge in E1.
    destruct (a <=? j) eqn:E2; [|apply Nat.leb_gt in E2; lia]. simpl.
    destruct (j - a <? length v) eqn:E3.
    + apply Nat.ltb_lt in E3.
      destruct (j <? a + length v) eqn:E4; [reflexivity|].
      apply Nat.ltb_ge in E4. lia.
    + apply Nat.ltb_ge in E3.
      destruct (j <? a + length v) eqn:E4;
        [apply Nat.ltb_lt in E4; lia|].
      f_equal. lia.
Qed.

(** ** deriv: the two difference schemes *)

Lemma place_nat {A} (l : list A) (a : nat) : Np.place l (Z.of_nat a) = a.
Proof.
  unfold Np.place.
  destruct (Z.of_nat a <? 0)%Z eqn:E; [apply Z.ltb_lt in E; lia|lia].
Qed.

Lemma place_neg {A} (l : list A) (b : nat) :
  0 < b -> Np.place l (- Z.of_nat b) = length l - b.
Proof.
  intros Hb. unfold Np.place.
  destruct (- Z.of_nat b <? 0)%Z eqn:E; [lia|apply Z.ltb_ge in E; lia].
Qed.

Lemma nth_error_in {A} (l : list A) (k : nat) (a d : A) :
  nth_error l k = Some a -> a = nth k l d.
Proof. intros H. symmetry. now apply nth_error_nth. Qed.

Lemma end_difference_cases (x y : Np.array) (a b : Z) :
  match end_difference x y a b with
  | Np.Ok d =>
      Np.in_bounds y a /\ Np.in_bounds y b /\
      Np.in_bounds x a /\ Np.in_bounds x b /\
      d = div (sub (nth (Np.place y a) y zero) (nth (Np.place y b) y zero))
              (sub (nth (Np.place x a) x zero) (nth (Np.place x b) x zero))
  | Np.Err er =>
      ~ (Np.in_bounds y a /\ Np.in_bounds y b /\
         Np.in_bounds x a /\ Np.in_bounds x b) /\
      er = Np.IndexError
  end.
Proof.
  unfold end_difference.
  pose proof (item_cases y a) as Hya. pose proof (item_cases y b) as Hyb.
  pose proof (item_cases x a) as Hxa. pose proof (item_cases x b) as Hxb.
  destruct (Np.item y a) as [ya|e1]; simpl; [|split; tauto].
  destruct (Np.item y b) as [yb|e2]; simpl; [|split; tauto].
  destruct (Np.item x a) as [xa|e3]; simpl; [|split; tauto].
  destruct (Np.item x b) as [xb|e4]; simpl; [|split; tauto].
  destruct Hya as [? Hya], Hyb as [? Hyb], Hxa as [? Hxa], Hxb as [? Hxb].
  repeat (split; [assumption|]).
  now rewrite (nth_error_in _ _ zero Hya), (nth_error_in _ _ zero Hyb),
    (nth_error_in _ _ zero Hxa), (nth_error_in _ _ zero Hxb).
Qed.

Lemma length_setslice (l v : list float) (a t : nat) :
  a + t <= length l -> length v = t ->
  length (firstn a l ++ v ++ skipn (a + t) l) = length l.
Proof.
  intros H Hv. rewrite !length_app, length_firstn, length_skipn. lia.
Qed.

Lemma two_point_cases (x y : Np.array) :
  match two_point x y with
  | Np.Ok r =>
      2 <= length y /\ 2 <= length x /\
      (length x = length y \/ length x = 3) /\
      exists dydx,
        r = Some dydx /\ length dydx = length y /\
        (length x = length y ->
         forall i, i < length y ->
           nth_error dydx i =
           Some (quotient x y (Nat.min (i + 1) (length y - 1)) (i - 1)))
  | Np.Err er =>
      ~ (2 <= length y /\ 2 <= length x /\
         (length x = length y \/ length x = 3))
  end.
Proof.
  unfold two_point. cbv zeta.
  change (Some 2%Z) with (Some (Z.of_nat 2)).
  change (Some 0%Z) with (Some (Z.of_nat 0)).
  change (Some 1%Z) with (Some (Z.of_nat 1)).
  change (Some (-2)%Z) with (Some (- Z.of_nat 2)%Z).
  change (Some (-1)%Z) with (Some (- Z.of_nat 1)%Z).
  (* y[2:] - y[0:-2] *)
  pose proof (elementwise_cases sub (Np.slice y (Some (Z.of_nat 2)) None)
       (Np.slice y (Some (Z.of_nat 0)) (Some (- Z.of_nat 2)%Z))) as Hnum.
  rewrite length_slice_from, length_slice_neg in Hnum by lia.
  destruct (Np.elementwise sub (Np.slice y _ _) _) as [num|er]; [|lia].
  destruct Hnum as [(_ & Lnum & Enum)|[H|H]]; [|lia|lia].
  cbn [Np.bind].
  (* x[2:] - x[0:-2] *)
  pose proof (elementwise_cases sub (Np.slice x (Some (Z.of_nat 2)) None)
       (Np.slice x (Some (Z.of_nat 0)) (Some (- Z.of_nat 2)%Z))) as Hden.
  rewrite length_slice_from, length_slice_neg in Hden by lia.
  destruct (Np.elementwise sub (Np.slice x _ _) _) as [den|er]; [|lia].
  destruct Hden as [(_ & Lden & Eden)|[H|H]]; [|lia|lia].
  cbn [Np.bind].
  (* the quotient *)
  pose proof (elementwise_cases div num den) as Hq.
  destruct (Np.elementwise div num den) as [q|er]; cbn [Np.bind]; [|lia].
  (* dydx[1:-1] = ... *)
  pose proof (setslice_cases (Np.zeros (length y)) (Some (Z.of_nat 1))
                (Some (- Z.of_nat 1)%Z) q) as Hset.
  rewrite span_neg in Hset by lia. unfold Np.zeros in Hset.
  rewrite repeat_length in Hset. cbn [fst snd] in Hset.
  fold (Np.zeros (length y)) in Hset.
  destruct (Np.setslice _ _ _ q) as [z1|er]; cbn [Np.bind]; [|lia].
  destruct Hset as [(Lq & Ez1)|Hset]; [|lia].
  (* dydx[0] = ... *)
  pose proof (end_difference_cases x y 1 0) as HdF.
  destruct (end_difference x y 1 0) as [dF|er]; cbn [Np.bind].
  2:{ unfold Np.in_bounds in HdF. lia. }
  destruct HdF as (B1 & B2 & B3 & B4 & EdF). unfold Np.in_bounds in B1, B3.
  assert (Lz1 : length z1 = length y).
  { rewrite Ez1. rewrite length_setslice; unfold Np.zeros;
      rewrite ?repeat_length; lia. }
  pose proof (setitem_cases z1 0 dF) as Hz2.
  destruct (Np.setitem z1 0 dF) as [z2|er]; cbn [Np.bind].
  2:{ unfold Np.in_bounds in Hz2. lia. }
  destruct Hz2 as (_ & Lz2 & Ez2).
  (* dydx[-1] = ... *)
  pose proof (end_difference_cases x y (-1) (-2)) as HdL.
  destruct (end_difference x y (-1) (-2)) as [dL|er]; cbn [Np.bind].
  2:{ unfold Np.in_bounds in HdL. lia. }
  destruct HdL as (_ & _ & _ & _ & EdL).
  pose proof (setitem_cases z2 (-1) dL) as Hz3.
  destruct (Np.setitem z2 (-1) dL) as [z3|er]; cbn [Np.bind].
  2:{ unfold Np.in_bounds in Hz3. lia. }
  destruct Hz3 as (_ & Lz3 & Ez3).
  split; [lia|]. split; [lia|]. split; [lia|].
  exists z3. split; [reflexivity|]. split; [lia|].
  intros Hxy i Hi. unfold quotient.
  destruct Hq as [(_ & _ & Eq)|[Hq|Hq]]; [|lia|lia].
  rewrite Ez3, Ez2.
  change (-1)%Z with (- Z.of_nat 1)%Z.
  change 0%Z with (Z.of_nat 0).
  rewrite place_neg, place_nat by lia. rewrite Lz2, Lz1.
  change (-2)%Z with (- Z.of_nat 2)%Z in EdL.
  change (-1)%Z with (- Z.of_nat 1)%Z in EdL.
  change 1%Z with (Z.of_nat 1) in EdF.
  change 0%Z with (Z.of_nat 0) in EdF.
  rewrite !place_neg in EdL by lia. rewrite !place_nat in EdF.
  destruct (i =? length y - 1) eqn:E1.
  { apply Nat.eqb_eq in E1. rewrite EdL, Hxy.
    replace (Nat.min (i + 1) (length y - 1)) with (length y - 1) by lia.
    replace (i - 1) with (length y - 2) by lia. reflexivity. }
  apply Nat.eqb_neq in E1.
  destruct (i =? 0) eqn:E0.
  { apply Nat.eqb_eq in E0. rewrite EdF.
    replace (Nat.min (i + 1) (length y - 1)) with 1 by lia.
    replace (i - 1) with 0 by lia. reflexivity. }
  apply Nat.eqb_neq in E0.
  rewrite Ez1.
  replace (Nat.min 1 (length y)) with 1 by lia.
  replace (length y - 1 - 1) with (length q) by lia.
  rewrite nth_error_setslice
    by (unfold Np.zeros; rewrite repeat_length; lia).
  replace ((1 <=? i) && (i <? 1 + length q)) with true.
  2:{ symmetry. apply andb_true_iff.
      split; [apply Nat.leb_le|apply Nat.ltb_lt]; lia. }
  rewrite Eq, nth_error_map2, Enum, Eden, !nth_error_map2.
  rewrite !nth_error_slice_from, !nth_error_slice_neg by lia.
  replace (i - 1 <? length y - 2 - 0) with true
    by (symmetry; apply Nat.ltb_lt; lia).
  replace (i - 1 <? length x - 2 - 0) with true
    by (symmetry; apply Nat.ltb_lt; lia).
  rewrite (nth_error_nth' y zero (n := 2 + (i - 1))) by lia.
  rewrite (nth_error_nth' y zero (n := 0 + (i - 1))) by lia.
  rewrite (nth_error_nth' x zero (n := 2 + (i - 1))) by lia.
  rewrite (nth_error_nth' x zero (n := 0 + (i - 1))) by lia.
  replace (Nat.min (i + 1) (length y - 1)) with (2 + (i - 1)) by lia.
  reflexivity.
Qed.

Lemma four_point_cases (x y : Np.array) :
  match four_point x y with
  | Np.Ok r =>
      3 <= length y /\ 3 <= length x /\
      exists dydx,
        r = Some dydx /\ length dydx = length y /\
        (length x = length y ->
         nth_error dydx 0 = Some (quotient x y 1 0) /\
         (4 <= length y -> nth_error dydx 1 = Some (quotient x y 2 1)) /\
         nth_error dydx (length y - 2)
         = Some (quotient x y (length y - 2) (length y - 3)) /\
         nth_error dydx (length y - 1)
         = Some (quotient x y (length y - 1) (length y - 2)) /\
         forall i, 2 <= i -> i + 2 < length y ->
           nth_error dydx i =
           Some (div (sub (add (sub (nth (i - 2) y zero)
                                    (mul (lit 8) (nth (i - 1) y zero)))
                               (mul (lit 8) (nth (i + 1) y zero)))
                          (nth (i + 2) y zero))
                     (mul (lit 12) (sub (nth 1 x zero) (nth 0 x zero)))))
  | Np.Err er => ~ (3 <= length y /\ 3 <= length x)
  end.
Proof.
  unfold four_point. cbv zeta.
  change (Some 0%Z) with (Some (Z.of_nat 0)).
  change (Some 1%Z) with (Some (Z.of_nat 1)).
  change (Some 2%Z) with (Some (Z.of_nat 2)).
  change (Some 3%Z) with (Some (Z.of_nat 3)).
  change (Some 4%Z) with (Some (Z.of_nat 4)).
  change (Some (-1)%Z) with (Some (- Z.of_nat 1)%Z).
  change (Some (-2)%Z) with (Some (- Z.of_nat 2)%Z).
  change (Some (-3)%Z) with (Some (- Z.of_nat 3)%Z).
  change (Some (-4)%Z) with (Some (- Z.of_nat 4)%Z).
  (* h = x[1] - x[0] *)
  pose proof (item_cases x 1) as Hx1.
  destruct (Np.item x 1) as [x1|er]; cbn [Np.bind].
  2:{ unfold Np.in_bounds in Hx1. lia. }
  destruct Hx1 as (Bx1 & Ex1). unfold Np.in_bounds in Bx1.
  pose proof (item_cases x 0) as Hx0.
  destruct (Np.item x 0) as [x0|er]; cbn [Np.bind].
  2:{ unfold Np.in_bounds in Hx0. lia. }
  destruct Hx0 as (_ & Ex0).
  change 1%Z with (Z.of_nat 1) in Ex1. change 0%Z with (Z.of_nat 0) in Ex0.
  rewrite place_nat in Ex1, Ex0.
  apply (nth_error_in _ _ zero) in Ex1. apply (nth_error_in _ _ zero) in Ex0.
  (* the stencil *)
  pose proof (elementwise_cases sub
                (Np.slice y (Some (Z.of_nat 0)) (Some (- Z.of_nat 4)%Z))
                (map (mul (lit 8))
                   (Np.slice y (Some (Z.of_nat 1)) (Some (- Z.of_nat 3)%Z))))
    as Ht1.
  rewrite length_map, !length_slice_neg in Ht1 by lia.
  destruct (Np.elementwise sub (Np.slice y _ _) _) as [t1|er]; [|lia].
  destruct Ht1 as [(_ & Lt1 & Et1)|[H|H]]; [|lia|lia].
  cbn [Np.bind].
  pose proof (elementwise_cases add t1
                (map (mul (lit 8))
                   (Np.slice y (Some (Z.of_nat 3)) (Some (- Z.of_nat 1)%Z))))
    as Ht2.
  rewrite length_map, !length_slice_neg in Ht2 by lia.
  destruct (Np.elementwise add t1 _) as [t2|er]; [|lia].
  destruct Ht2 as [(_ & Lt2 & Et2)|[H|H]]; [|lia|lia].
  cbn [Np.bind].
  pose proof (elementwise_cases sub t2
                (Np.slice y (Some (Z.of_nat 4)) None)) as Ht3.
  rewrite length_slice_from in Ht3.
  destruct (Np.elementwise sub t2 _) as [t3|er]; [|lia].
  destruct Ht3 as [(_ & Lt3 & Et3)|[H|H]]; [|lia|lia].
  cbn [Np.bind].
  (* dydx[2:-2] = ... *)
  set (q := map (fun v => div v (mul (lit 12) (sub x1 x0))) t3).
  assert (Lq : length q = length y - 4)
    by (unfold q; rewrite length_map; lia).
  pose proof (setslice_cases (Np.zeros (length y)) (Some (Z.of_nat 2))
                (Some (- Z.of_nat 2)%Z) q) as Hset.
  rewrite span_neg in Hset by lia. unfold Np.zeros in Hset.
  rewrite repeat_length in Hset. cbn [fst snd] in Hset.
  fold (Np.zeros (length y)) in Hset.
  destruct (Np.setslice _ _ _ q) as [z0|er]; cbn [Np.bind]; [|lia].
  destruct Hset as [(_ & Ez0)|Hset]; [|lia].
  (* the four end points *)
  pose proof (end_difference_cases x y 1 0) as Hd0.
  destruct (end_difference x y 1 0) as [d0|er]; cbn [Np.bind].
  2:{ unfold Np.in_bounds in Hd0. lia. }
  destruct Hd0 as (B1 & _ & _ & _ & Ed0). unfold Np.in_bounds in B1.
  assert (Lz0 : length z0 = length y).
  { rewrite Ez0. rewrite length_setslice; unfold Np.zeros;
      rewrite ?repeat_length; lia. }
  pose proof (setitem_cases z0 0 d0) as Hz1.
  destruct (Np.setitem z0 0 d0) as [z1|er]; cbn [Np.bind].
  2:{ unfold Np.in_bounds in Hz1. lia. }
  destruct Hz1 as (_ & Lz1 & Ez1).
  pose proof (end_difference_cases x y 2 1) as Hd1.
  destruct (end_difference x y 2 1) as [d1|er]; cbn [Np.bind].
  2:{ unfold Np.in_bounds in Hd1. lia. }
  destruct Hd1 as (B2 & _ & B3 & _ & Ed1). unfold Np.in_bounds in B2, B3.
  pose proof (setitem_cases z1 1 d1) as Hz2.
  destruct (Np.setitem z1 1 d1) as [z2|er]; cbn [Np.bind].
  2:{ unfold Np.in_bounds in Hz2. lia. }
  destruct Hz2 as (_ & Lz2 & Ez2).
  pose proof (end_difference_cases x y (-2) (-3)) as Hd2.
  destruct (end_difference x y (-2) (-3)) as [d2|er]; cbn [Np.bind].
  2:{ unfold Np.in_bounds in Hd2. lia. }
  destruct Hd2 as (_ & _ & _ & _ & Ed2).
  pose proof (setitem_cases z2 (-2) d2) as Hz3.
  destruct (Np.setitem z2 (-2) d2) as [z3|er]; cbn [Np.bind].
  2:{ unfold Np.in_bounds in Hz3. lia. }
  destruct Hz3 as (_ & Lz3 & Ez3).
  pose proof (end_difference_cases x y (-1) (-2)) as Hd3.
  destruct (end_difference x y (-1) (-2)) as [d3|er]; cbn [Np.bind].
  2:{ unfold Np.in_bounds in Hd3. lia. }
  destruct Hd3 as (_ & _ & _ & _ & Ed3).
  pose proof (setitem_cases z3 (-1) d3) as Hz4.
  destruct (Np.setitem z3 (-1) d3) as [z4|er]; cbn [Np.bind].
  2:{ unfold Np.in_bounds in Hz4. lia. }
  destruct Hz4 as (_ & Lz4 & Ez4).
  split; [lia|]. split; [lia|].
  exists z4. split; [reflexivity|]. split; [lia|].
  intros Hxy.
  change 0%Z with (Z.of_nat 0) in *.
  change 1%Z with (Z.of_nat 1) in *.
  change 2%Z with (Z.of_nat 2) in *.
  change (-1)%Z with (- Z.of_nat 1)%Z in *.
  change (-2)%Z with (- Z.of_nat 2)%Z in *.
  change (-3)%Z with (- Z.of_nat 3)%Z in *.
  rewrite !place_nat in Ed0, Ed1. rewrite !place_neg in Ed2, Ed3 by lia.
  rewrite Hxy in Ed2, Ed3.
  fold (quotient x y 1 0) in Ed0. fold (quotient x y 2 1) in Ed1.
  fold (quotient x y (length y - 2) (length y - 3)) in Ed2.
  fold (quotient x y (length y - 1) (length y - 2)) in Ed3.
  assert (E : forall i,
             nth_error z4 i =
             if i =? length y - 1 then Some d3
             else if i =? length y - 2 then Some d2
             else if i =? 1 then Some d1
             else if i =? 0 then Some d0
             else nth_error z0 i).
  { intros i. rewrite Ez4, Ez3, Ez2, Ez1.
    rewrite !place_neg, !place_nat by lia.
    now rewrite ?Lz3, ?Lz2, ?Lz1, ?Lz0. }
  split; [|split; [|split; [|split]]].
  - rewrite E.
    destruct (0 =? length y - 1) eqn:E1; [apply Nat.eqb_eq in E1; lia|].
    destruct (0 =? length y - 2) eqn:E2; [apply Nat.eqb_eq in E2; lia|].
    cbn [Nat.eqb]. now rewrite Ed0.
  - intros H4. rewrite E.
    destruct (1 =? length y - 1) eqn:E1; [apply Nat.eqb_eq in E1; lia|].
    destruct (1 =? length y - 2) eqn:E2; [apply Nat.eqb_eq in E2; lia|].
    cbn [Nat.eqb]. now rewrite Ed1.
  - rewrite E.
    destruct (length y - 2 =? length y - 1) eqn:E1;
      [apply Nat.eqb_eq in E1; lia|].
    rewrite Nat.eqb_refl. now rewrite Ed2.
  - rewrite E, Nat.eqb_refl. now rewrite Ed3.
  - intros i Hi1 Hi2. rewrite E.
    destruct (i =? length y - 1) eqn:E1; [apply Nat.eqb_eq in E1; lia|].
    destruct (i =? length y - 2) eqn:E2; [apply Nat.eqb_eq in E2; lia|].
    destruct (i =? 1) eqn:E3; [apply Nat.eqb_eq in E3; lia|].
    destruct (i =? 0) eqn:E4; [apply Nat.eqb_eq in E4; lia|].
    rewrite Ez0.
    replace (Nat.min 2 (length y)) with 2 by lia.
    replace (length y - 2 - 2) with (length q) by lia.
    rewrite nth_error_setslice
      by (unfold Np.zeros; rewrite repeat_length; lia).
    replace ((2 <=? i) && (i <? 2 + length q)) with true.
    2:{ symmetry. apply andb_true_iff.
        split; [apply Nat.leb_le|apply Nat.ltb_lt]; lia. }
    unfold q. rewrite nth_error_map, Et3, nth_error_map2, Et2,
      nth_error_map2, Et1, nth_error_map2.
    rewrite !nth_error_map, !nth_error_slice_from, !nth_error_slice_neg
      by lia.
    replace (i - 2 <? length y - 4 - 0) with true
      by (symmetry; apply Nat.ltb_lt; lia).
    replace (i - 2 <? length y - 3 - 1) with true
      by (symmetry; apply Nat.ltb_lt; lia).
    replace (i - 2 <? length y - 1 - 3) with true
      by (symmetry; apply Nat.ltb_lt; lia).
    rewrite (nth_error_nth' y zero (n := 0 + (i - 2))) by lia.
    rewrite (nth_error_nth' y zero (n := 1 + (i - 2))) by lia.
    rewrite (nth_error_nth' y zero (n := 3 + (i - 2))) by lia.
    rewrite (nth_error_nth' y zero (n := 4 + (i - 2))) by lia.
    cbn [option_map].
    replace (0 + (i - 2)) with (i - 2) by lia.
    replace (1 + (i - 2)) with (i - 1) by lia.
    replace (3 + (i - 2)) with (i + 1) by lia.
    replace (4 + (i - 2)) with (i + 2) by lia.
    now rewrite Ex1, Ex0.
Qed.

(** ** The wavenumbers *)

Lemma length_range (a b : Z) : length (range a b) = Z.to_nat (b - a).
Proof. unfold range. now rewrite length_map, length_seq. Qed.

Lemma nth_range (a b : Z) (i : nat) (d : Z) :
  (Z.of_nat i < b - a)%Z -> nth i (range a b) d = (a + Z.of_nat i)%Z.
Proof.
  intros H. unfold range.
  rewrite (nth_indep _ d (a + Z.of_nat 0)%Z)
    by (rewrite length_map, length_seq; lia).
  rewrite (map_nth (fun i => (a + Z.of_nat i)%Z)).
  rewrite seq_nth by lia. reflexivity.
Qed.

(** The two branches of the parity test build one and the same list. *)
Lemma wavenumbers_eq (N : Z) :
  wavenumbers N
  = range 0 (N / 2) ++ [0%Z] ++ range (N / 2 + 1 - N) 0.
Proof.
  unfold wavenumbers. destruct (N mod 2 =? 0)%Z eqn:E.
  - apply Z.eqb_eq in E.
    replace (- N / 2 + 1)%Z with (N / 2 + 1 - N)%Z; [reflexivity|].
    Z.div_mod_to_equations. lia.
  - apply Z.eqb_neq in E.
    replace ((N - 1) / 2)%Z with (N / 2)%Z
      by (Z.div_mod_to_equations; lia).
    replace (- (N - 1) / 2)%Z with (N / 2 + 1 - N)%Z; [reflexivity|].
    Z.div_mod_to_equations. lia.
Qed.

(** ** nlinfit: the loop *)

Section NlinfitFacts.

Variable ppf : float -> Z -> float.
Variable pow : float -> float -> float.

Lemma nlinfit_loop (tval : float) :
  forall (rows : list (nat * (float * float))) SE pint,
    fold_left
      (fun acc row =>
         let '(SE, pint) := acc in
         let '(_, (p, var)) := row in
         let sigma := pow var (lit 0.5) in
         (SE ++ [sigma],
          pint ++ [[sub p (mul sigma tval); add p (mul sigma tval)]]))
      rows (SE, pint)
    = (SE ++ map (fun row => pow (snd (snd row)) (lit 0.5)) rows,
       pint ++ map (fun row =>
                      [sub (fst (snd row))
                           (mul (pow (snd (snd row)) (lit 0.5)) tval);
                       add (fst (snd row))
                           (mul (pow (snd (snd row)) (lit 0.5)) tval)])
                   rows).
Proof.
  induction rows as [|[i [p var]] rows IH]; intros SE pint; simpl.
  - now rewrite !app_nil_r.
  - rewrite IH, <- !app_assoc. reflexivity.
Qed.

Lemma nth_error_combine {A B} :
  forall (a : list A) (b : list B) (k : nat),
    nth_error (combine a b) k =
    match nth_error a k, nth_error b k with
    | Some u, Some v => Some (u, v)
    | _, _ => None
    end.
Proof.
  induction a as [|u a IH]; intros [|v b] [|k]; simpl; auto.
  now destruct (nth_error a k).
Qed.

End NlinfitFacts.

(** ** The list object of [events] *)

Section FrameCombinators.

Context {A B : Type}.

Lemma keeps_ret (a : A) : keeps_events (ret a).
Proof. intros s. reflexivity. Qed.

Lemma keeps_raise (x : exn) : keeps_events (@raise A x).
Proof. intros s. reflexivity. Qed.

Lemma keeps_gets (f : store -> A) : keeps_events (gets f).
Proof. intros s. reflexivity. Qed.

Lemma keeps_index (l : list A) (i : Z) : keeps_events (index l i).
Proof. intros s. unfold index. destruct (Py.getitem l i); reflexivity. Qed.

Lemma keeps_bind (m : M A) (f : A -> M B) :
  keeps_events m -> (forall a, keeps_events (f a)) -> keeps_events (bind m f).
Proof.
  intros Hm Hf s. unfold bind. specialize (Hm s).
  destruct (m s) as [[a|x|] s1]; simpl in *; [|exact Hm|exact Hm].
  now rewrite Hf.
Qed.

End FrameCombinators.

Lemma keeps_modify (f : store -> store) :
  (forall s, events_obj (f s) = events_obj s) -> keeps_events (modify f).
Proof. intros Hf s. apply Hf. Qed.

Ltac frame_step :=
  first
    [ apply keeps_ret | apply keeps_raise | apply keeps_gets
    | apply keeps_index
    | apply keeps_modify; intros ?; reflexivity
    | apply keeps_bind; [|intros ?]
    | match goal with
      | |- keeps_events (match ?x with _ => _ end) => destruct x
      end ].

Section Frame.

Variable func : rhs.
Variable odeint : solver.
Variable full_output : option bool.
Variable TOLERANCE : float.

Lemma keeps_integrate y x1 x2 :
  keeps_events (integrate odeint full_output y x1 x2).
Proof. unfold integrate. repeat frame_step. Qed.

Lemma keeps_body j event i b :
  keeps_events (body odeint full_output TOLERANCE j event i b).
Proof. unfold body. repeat first [apply keeps_integrate | frame_step]. Qed.

Lemma keeps_while j event i :
  forall fuel k b,
    keeps_events (while_loop odeint full_output TOLERANCE fuel j event i k b).
Proof.
  induction fuel as [|fuel IH]; intros k b; simpl.
  - intros s. reflexivity.
  - destruct (k <? 100); [|apply keeps_ret].
    apply keeps_bind; [apply keeps_body|].
    intros [t|b'|b']; [apply keeps_ret|apply IH|apply IH].
Qed.

Lemma keeps_del_last {A} (l : list A) : keeps_events (del_last l).
Proof. unfold del_last. repeat frame_step. Qed.

Lemma keeps_truncate : keeps_events truncate.
Proof. unfold truncate. repeat first [apply keeps_del_last | frame_step]. Qed.

Lemma keeps_event_step i j event :
  keeps_events (event_step odeint full_output TOLERANCE i j event).
Proof.
  unfold event_step.
  repeat first [apply keeps_while | apply keeps_truncate | frame_step].
Qed.

Lemma keeps_events_loop i :
  forall events j,
    keeps_events (events_loop odeint full_output TOLERANCE i j events).
Proof.
  induction events as [|event rest IH]; intros j; simpl.
  - apply keeps_ret.
  - apply keeps_bind; [apply keeps_event_step|].
    intros [|]; [apply IH|apply keeps_ret].
Qed.

Lemma keeps_grid_step xspan events i x1 :
  keeps_events (grid_step odeint full_output TOLERANCE xspan events i x1).
Proof.
  unfold grid_step.
  repeat first [apply keeps_integrate | apply keeps_events_loop | frame_step].
Qed.

Lemma keeps_grid_loop xspan events :
  forall xs i,
    keeps_events (grid_loop odeint full_output TOLERANCE xspan events i xs).
Proof.
  induction xs as [|x1 xs IH]; intros i; simpl.
  - apply keeps_ret.
  - apply keeps_bind; [apply keeps_grid_step|].
    intros [|]; [apply IH|apply keeps_ret].
Qed.

Lemma keeps_init_events y0 x0 :
  forall events i, keeps_events (init_events i events y0 x0).
Proof.
  induction events as [|event rest IH]; intros i; simpl.
  - apply keeps_ret.
  - destruct (event y0 x0) as [[v t] d].
    apply keeps_bind; [|intros _; apply IH]. frame_step.
Qed.

Lemma keeps_f0 y0 x0 : keeps_events (f0 func y0 x0).
Proof. unfold f0. repeat frame_step. Qed.

Lemma keeps_odelay_body y0 xspan events :
  keeps_events (odelay_body func odeint full_output TOLERANCE y0 xspan events).
Proof.
  unfold odelay_body.
  repeat first [apply keeps_init_events | apply keeps_grid_loop
               | apply keeps_f0 | frame_step].
Qed.

(** At the end of a call the list that [events] names holds what it held
    at the start, however the call ends. *)
Lemma odelay_keeps_events y0 xspan events :
  events_obj (snd (odelay func odeint full_output TOLERANCE y0 xspan events))
  = events.
Proof. rewrite odelay_entry. now rewrite keeps_odelay_body. Qed.

End Frame.

(** ** The values of the events along the trajectory *)

Lemma set_e_other j i v s j' i' :
  j' <> j \/ i' <> i -> e (set_e j i v s) j' i' = e s j' i'.
Proof.
  intros H. simpl.
  destruct (j' =? j) eqn:Ej; [|reflexivity].
  destruct (i' =? i) eqn:Ei; [|reflexivity].
  apply Nat.eqb_eq in Ej, Ei. lia.
Qed.

Lemma firstn_snoc {A} (l : list A) :
  forall n a, nth_error l n = Some a -> firstn (S n) l = firstn n l ++ [a].
Proof.
  induction l as [|b l IH]; intros [|n] a H; simpl in *;
    try discriminate H.
  - now injection H as ->.
  - f_equal. now apply IH.
Qed.

Section Values.

Variable func : rhs.
Variable odeint : solver.
Variable full_output : option bool.
Variable TOLERANCE : float.

Local Abbreviation event_step' := (event_step odeint full_output TOLERANCE).
Local Abbreviation events_loop' := (events_loop odeint full_output TOLERANCE).
Local Abbreviation grid_step' := (grid_step odeint full_output TOLERANCE).
Local Abbreviation grid_loop' := (grid_loop odeint full_output TOLERANCE).
Local Abbreviation odelay' := (odelay func odeint full_output TOLERANCE).

(** Lines 86-87 fill column 0 of the event matrix. *)
Lemma init_events_e y0 x0 :
  forall events i s u s',
    init_events i events y0 x0 s = (Done u, s') ->
    (forall j event, nth_error events j = Some event ->
                     e s' (i + j) 0 = fst (fst (event y0 x0))) /\
    (forall j', j' < i -> e s' j' 0 = e s j' 0).
Proof.
  induction events as [|event rest IH]; intros i s u s' H;
    cbn [init_events] in H.
  - apply ret_Done in H. destruct H as [_ ->].
    split; [|reflexivity]. intros [|j] ev Hj; discriminate Hj.
  - destruct (event y0 x0) as [[v t] d] eqn:Hev.
    mstep H. apply IH in H. destruct H as (Hset & Hkeep). split.
    + intros [|j] ev Hj; simpl in Hj.
      * injection Hj as <-.
        rewrite Nat.add_0_r, Hkeep, set_e_same, Hev by lia. reflexivity.
      * replace (i + S j) with (S i + j) by lia. now apply Hset.
    + intros j' Hj'. rewrite Hkeep by lia. apply set_e_other. lia.
Qed.

(** An event that lets the step go on has stored its value at the new
    sample, and nothing else in the event matrix. *)
Lemma event_step_e i j event s s' :
  event_step' i j event s = (Done Go, s') ->
  X s' = X s /\ sol s' = sol s /\
  (exists y x,
      nth_error (sol s) (i + 1) = Some y /\
      nth_error (X s) (i + 1) = Some x /\
      e s' j (i + 1) = fst (fst (event y x))) /\
  (forall j' i', j' <> j \/ i' <> i + 1 -> e s' j' i' = e s j' i').
Proof.
  intros H. apply event_step_spec in H.
  destruct H as (y & x & v & t & d & Hy & Hx & Hev & H). cbv zeta in H.
  assert (Hv : v = fst (fst (event y x))) by now rewrite Hev.
  destruct (lt (mul v (e s j i)) zero).
  - destruct H as (b & r & s2 & Hb & Hw & H).
    apply while_loop_spec in Hw. destruct Hw as (HX & Hsol & He & _).
    fields_in HX. fields_in Hsol.
    assert (Hs : s' = s2).
    { destruct r as [[|]|]; destruct H as [Hg H];
        [discriminate Hg|exact H|exact H]. }
    subst s'. split; [exact HX|]. split; [exact Hsol|]. split.
    + exists y, x. rewrite He, set_e_same. auto.
    + intros j' i' Hne. rewrite He. now apply set_e_other.
  - destruct H as [_ ->]. split; [reflexivity|]. split; [reflexivity|].
    split.
    + exists y, x. rewrite set_e_same. auto.
    + intros j' i' Hne. now apply set_e_other.
Qed.

Lemma events_loop_e i :
  forall events j0 s s',
    events_loop' i j0 events s = (Done Go, s') ->
    X s' = X s /\ sol s' = sol s /\
    (forall j event,
        nth_error events j = Some event ->
        exists y x,
          nth_error (sol s) (i + 1) = Some y /\
          nth_error (X s) (i + 1) = Some x /\
          e s' (j0 + j) (i + 1) = fst (fst (event y x))) /\
    (forall j' i', j' < j0 \/ i' <> i + 1 -> e s' j' i' = e s j' i').
Proof.
  induction events as [|event rest IH]; intros j0 s s' H;
    cbn [events_loop] in H.
  - apply ret_Done in H. destruct H as [_ ->].
    repeat split; auto. intros [|j] ev Hj; discriminate Hj.
  - mstep H. destruct a.
    2:{ apply ret_Done in H. destruct H as [H _]. discriminate H. }
    apply event_step_e in Ha.
    destruct Ha as (HX1 & Hsol1 & (y & x & Hy & Hx & Hval) & Hkeep1).
    apply IH in H. destruct H as (HX & Hsol & Hset & Hkeep).
    split; [congruence|]. split; [congruence|]. split.
    + intros [|j] ev Hj; simpl in Hj.
      * injection Hj as <-. exists y, x.
        rewrite Nat.add_0_r, Hkeep by lia. auto.
      * replace (j0 + S j) with (S j0 + j) by lia.
        rewrite <- HX1, <- Hsol1. now apply Hset.
    + intros j' i' Hne. rewrite Hkeep by lia. apply Hkeep1. lia.
Qed.

(** A step of the grid that goes on has appended one grid point and one
    sample, and has filled the next column of the event matrix for the
    events it was given. *)
Lemma grid_step_e xspan events i x1 s s' :
  grid_step' xspan events i x1 s = (Done Go, s') ->
  length (X s) = i + 1 -> length (sol s) = i + 1 ->
  exists x2 c,
    nth_error xspan (i + 1) = Some x2 /\
    X s' = X s ++ [x2] /\ sol s' = sol s ++ [[c]] /\
    (forall j event, nth_error events j = Some event ->
                     e s' j (i + 1) = fst (fst (event [c] x2))) /\
    (forall j' i', i' <> i + 1 -> e s' j' i' = e s j' i').
Proof.
  unfold grid_step. intros H LX Lsol.
  mstep H. rewrite getitem_nat in Ha. rename Ha into Hx2, a into x2.
  mstep H. mstep H. rename Ha into Hf1, a into f1.
  mstep H. apply integrate_Done in Ha. destruct Ha as (ok & Hode & ->).
  rename a into row.
  mstep H. mstep H. rename Ha into Hc, a into c. mstep H.
  apply events_loop_e in H. fields_in H.
  destruct H as (HX & Hsol & Hset & Hkeep).
  exists x2, c. split; [exact Hx2|]. split; [exact HX|].
  split; [exact Hsol|]. split.
  - intros j ev Hj. destruct (Hset j ev Hj) as (y & x & Hy & Hx & Hval).
    rewrite nth_error_app2 in Hy, Hx by lia.
    replace (i + 1 - length (sol s)) with 0 in Hy by lia.
    replace (i + 1 - length (X s)) with 0 in Hx by lia.
    simpl in Hy, Hx. injection Hy as <-. injection Hx as <-.
    exact Hval.
  - intros j' i' Hne. now rewrite Hkeep by lia.
Qed.

Lemma at_step_next xspan events i x1 s s' :
  grid_step' xspan events i x1 s = (Done Go, s') ->
  at_step xspan events i s -> at_step xspan events (S i) s'.
Proof.
  intros H (HX & LX & Lsol & Hval).
  apply grid_step_e in H; [|exact LX|exact Lsol].
  destruct H as (x2 & c & Hx2 & HX' & Hsol' & Hset & _).
  assert (HXn : X s' = firstn (S i + 1) xspan).
  { rewrite HX', HX. replace (S i + 1) with (S (i + 1)) by lia.
    symmetry. apply firstn_snoc. exact Hx2. }
  assert (LXn : length (X s') = S i + 1)
    by (rewrite HX', length_app, LX; simpl; lia).
  assert (Lsn : length (sol s') = S i + 1)
    by (rewrite Hsol', length_app, Lsol; simpl; lia).
  split; [exact HXn|]. split; [exact LXn|]. split; [exact Lsn|].
  intros j ev Hj. exists [c], x2.
  rewrite HX', Hsol', !nth_error_app2 by lia.
  replace (S i - length (sol s)) with 0 by lia.
  replace (S i - length (X s)) with 0 by lia.
  split; [reflexivity|]. split; [reflexivity|].
  replace (S i) with (i + 1) by lia. now apply Hset.
Qed.

Lemma grid_loop_at xspan events :
  forall xs i s s',
    grid_loop' xspan events i xs s = (Done AtGridEnd, s') ->
    at_step xspan events i s -> at_step xspan events (i + length xs) s'.
Proof.
  induction xs as [|x1 xs IH]; intros i s s' H Hat; cbn [grid_loop] in H.
  - apply ret_Done in H. destruct H as [_ ->].
    now rewrite Nat.add_0_r.
  - mstep H. destruct a.
    2:{ apply ret_Done in H. destruct H as [H _]. discriminate H. }
    eapply at_step_next in Hat; [|exact Ha]. apply IH in H; [|exact Hat].
    cbn [length]. now replace (i + S (length xs)) with (S i + length xs) by lia.
Qed.

(** After the set-up of a call, step 0 starts. *)
Lemma odelay_at_start y0 x0 rest events s1 u :
  init_events 0 events y0 x0
    (mkStore [x0] [y0] zeros [] [] [] [] events) = (Done u, s1) ->
  at_step (x0 :: rest) events 0 s1.
Proof.
  intros H.
  destruct (init_events_spec y0 x0 events 0
              (mkStore [x0] [y0] zeros [] [] [] [] events))
    as (s1' & E & HX & Hsol & _).
  rewrite E in H. injection H as _ <-.
  apply init_events_e in E. destruct E as (Hset & _).
  unfold at_step. rewrite HX, Hsol. simpl.
  repeat split; auto.
  intros j ev Hj. exists y0, x0. repeat split. now apply (Hset j ev).
Qed.

End Values.

(** ** From the start of a call to one event of one step *)

Lemma nth_error_firstn_lt {A} (l : list A) (n k : nat) :
  k < n -> nth_error (firstn n l) k = nth_error l k.
Proof.
  intros H. rewrite nth_error_firstn.
  destruct (k <? n) eqn:E; [reflexivity|]. apply Nat.ltb_ge in E. lia.
Qed.

Lemma split_at {A} (l : list A) (k : nat) (a : A) :
  nth_error l k = Some a ->
  l = firstn k l ++ a :: skipn (S k) l /\ length (firstn k l) = k.
Proof.
  intros H. split.
  - rewrite <- (skipn_nth _ _ H). symmetry. apply firstn_skipn.
  - rewrite length_firstn. apply Nat.min_l.
    assert (k < length l) by (apply nth_error_Some; congruence). lia.
Qed.

Section CourseFacts.

Variable func : rhs.
Variable odeint : solver.
Variable full_output : option bool.
Variable TOLERANCE : float.

Local Abbreviation event_step' := (event_step odeint full_output TOLERANCE).
Local Abbreviation events_loop' := (events_loop odeint full_output TOLERANCE).
Local Abbreviation grid_step' := (grid_step odeint full_output TOLERANCE).
Local Abbreviation grid_loop' := (grid_loop odeint full_output TOLERANCE).
Local Abbreviation odelay' := (odelay func odeint full_output TOLERANCE).
Local Abbreviation comes_to' := (comes_to func odeint full_output TOLERANCE).

Lemma events_loop_app_Go i :
  forall before j0 more s s',
    events_loop' i j0 before s = (Done Go, s') ->
    events_loop' i j0 (before ++ more) s
    = events_loop' i (j0 + length before) more s'.
Proof.
  induction before as [|ev before IH]; intros j0 more s s' H;
    cbn [events_loop app length] in *.
  - apply ret_Done in H. destruct H as [_ ->]. now rewrite Nat.add_0_r.
  - mstep H. destruct a.
    2:{ apply ret_Done in H. destruct H as [H _]. discriminate H. }
    erewrite bind_run by exact Ha. cbv beta iota. rewrite (IH _ _ _ _ H).
    now replace (j0 + S (length before)) with (S j0 + length before) by lia.
Qed.

(** A step that has gone on through the first events goes on with the
    others. *)
Lemma grid_step_continue xspan before more i x1 s0 s :
  grid_step' xspan before i x1 s0 = (Done Go, s) ->
  grid_step' xspan (before ++ more) i x1 s0
  = events_loop' i (length before) more s.
Proof.
  unfold grid_step. intros H.
  mstep H. rename Ha into Hx2, a into x2.
  mstep H. mstep H. rename Ha into Hf1, a into f1.
  mstep H. rename Ha into Hint, a into row, s1 into sa.
  mstep H. mstep H. rename Ha into Hc, a into c. mstep H.
  erewrite bind_run by (apply index_run; exact Hx2).
  erewrite bind_run by reflexivity.
  erewrite bind_run by (apply index_run; exact Hf1).
  erewrite bind_run by exact Hint.
  erewrite bind_run by reflexivity.
  erewrite bind_run by (apply index_run; exact Hc).
  erewrite bind_run by reflexivity.
  erewrite events_loop_app_Go by exact H. reflexivity.
Qed.

(** The steps after those that went on to the end of their list. *)
Lemma grid_loop_app_end xspan events :
  forall pre i more s s0,
    grid_loop' xspan events i pre s = (Done AtGridEnd, s0) ->
    grid_loop' xspan events i (pre ++ more) s
    = grid_loop' xspan events (i + length pre) more s0.
Proof.
  induction pre as [|x1 pre IH]; intros i more s s0 H;
    cbn [grid_loop app length] in *.
  - apply ret_Done in H. destruct H as [_ ->]. now rewrite Nat.add_0_r.
  - mstep H. destruct a.
    2:{ apply ret_Done in H. destruct H as [H _]. discriminate H. }
    erewrite bind_run by exact Ha. cbv beta iota. rewrite (IH _ _ _ _ H).
    now replace (i + S (length pre)) with (S i + length pre) by lia.
Qed.

(** What [comes_to] says, on the grid of the call itself. *)
Lemma comes_to_start y0 xspan events i j event s :
  comes_to' y0 xspan events i j event s ->
  exists x0 rest x1 s1 s0,
    xspan = x0 :: rest /\ i + 2 < length xspan /\
    nth_error xspan i = Some x1 /\ nth_error events j = Some event /\
    func y0 x0 = None /\
    init_events 0 events y0 x0 (mkStore [x0] [y0] zeros [] [] [] [] events)
    = (Done tt, s1) /\
    grid_loop' xspan events 0 (firstn i xspan) s1 = (Done AtGridEnd, s0) /\
    grid_step' xspan (firstn j events) i x1 s0 = (Done Go, s).
Proof.
  intros (x1 & s0 & Hi & Hx1 & Hj & Hcut & Hstep).
  destruct xspan as [|x0 rest]; [simpl in Hi; lia|].
  assert (Hfirst : firstn (i + 2) (x0 :: rest) = x0 :: firstn (i + 1) rest)
    by (replace (i + 2) with (S (i + 1)) by lia; reflexivity).
  rewrite odelay_entry, Hfirst, odelay_body_reset in Hcut.
  destruct (func y0 x0) as [x|] eqn:Hf; [discriminate Hcut|].
  cbn [io events_obj entry] in Hcut.
  destruct (init_events_spec y0 x0 events 0
              (mkStore [x0] [y0] zeros [] [] [] [] events))
    as (s1 & E & _).
  erewrite bind_run in Hcut by exact E.
  rewrite <- Hfirst in Hcut.
  assert (Hslice : Py.slice_0_m2 (firstn (i + 2) (x0 :: rest))
                   = firstn i (x0 :: rest)).
  { unfold Py.slice_0_m2. rewrite length_firstn, firstn_firstn.
    f_equal. lia. }
  rewrite Hslice in Hcut.
  rewrite (grid_loop_ext odeint full_output TOLERANCE
             (firstn (i + 2) (x0 :: rest)) (x0 :: rest)) in Hcut.
  2:{ intros k Hk. rewrite length_firstn in Hk.
      apply nth_error_firstn_lt. lia. }
  exists x0, rest, x1, s1, s0. repeat split; auto.
Qed.

(** The call is what the event does from [s], and then the rest of the
    call. *)
Lemma comes_to_run y0 xspan events i j event s :
  comes_to' y0 xspan events i j event s ->
  odelay' y0 xspan events
  = bind (event_step' i j event)
      (rest_of_call odeint full_output TOLERANCE xspan events i j) s.
Proof.
  intros H. apply comes_to_start in H.
  destruct H as (x0 & rest & x1 & s1 & s0 & Hxs & Hi & Hx1 & Hj & Hf & E
                 & Hloop & Hstep).
  rewrite odelay_entry. rewrite Hxs at 1.
  rewrite odelay_body_reset, Hf, <- Hxs.
  cbn [io events_obj entry].
  erewrite bind_run by exact E.
  assert (Hx1' : nth_error (Py.slice_0_m2 xspan) i = Some x1).
  { unfold Py.slice_0_m2. rewrite nth_error_firstn_lt by lia. exact Hx1. }
  destruct (@split_at _ _ _ _ Hx1') as [Hslice Hlen].
  assert (Hpre : firstn i (Py.slice_0_m2 xspan) = firstn i xspan).
  { unfold Py.slice_0_m2. rewrite firstn_firstn. f_equal. lia. }
  rewrite Hpre in Hslice, Hlen.
  rewrite Hslice. erewrite grid_loop_app_end by exact Hloop. rewrite Hlen.
  cbn [grid_loop Nat.add].
  destruct (@split_at _ _ _ _ Hj) as [Hev Hlenj].
  pose proof (@grid_step_continue xspan (firstn j events)
                (event :: skipn (S j) events) i x1 s0 s Hstep) as Hgs.
  rewrite <- Hev, Hlenj in Hgs.
  unfold bind at 1. rewrite Hgs. cbn [events_loop].
  unfold bind, rest_of_call.
  destruct (event_step' i j event s) as [[[|]|x|] s2]; reflexivity.
Qed.

(** The store in which the call comes to an event: the trajectory has the
    grid points and the samples up to the new one, and the matrix holds the
    value of the event at the sample before it. *)
Lemma comes_to_shape y0 xspan events i j event s :
  comes_to' y0 xspan events i j event s ->
  X s = firstn (i + 2) xspan /\
  length (X s) = i + 2 /\ length (sol s) = i + 2 /\
  exists x_i y_i x y,
    nth_error xspan i = Some x_i /\ nth_error (X s) i = Some x_i /\
    nth_error (sol s) i = Some y_i /\
    nth_error xspan (i + 1) = Some x /\ nth_error (X s) (i + 1) = Some x /\
    nth_error (sol s) (i + 1) = Some y /\
    e s j i = fst (fst (event y_i x_i)).
Proof.
  intros H. apply comes_to_start in H.
  destruct H as (x0 & rest & x1 & s1 & s0 & Hxs & Hi & Hx1 & Hj & Hf & E
                 & Hloop & Hstep).
  assert (Hat : at_step xspan events i s0).
  { apply grid_loop_at in Hloop.
    - rewrite length_firstn in Hloop.
      now replace (0 + Nat.min i (length xspan)) with i in Hloop by lia.
    - rewrite Hxs. eapply odelay_at_start. exact E. }
  destruct Hat as (HX & LX & Lsol & Hval).
  apply grid_step_e in Hstep; [|exact LX|exact Lsol].
  destruct Hstep as (x2 & c & Hx2 & HX' & Hsol' & _ & Hkeep).
  destruct (Hval j event Hj) as (y_i & x_i & Hy & Hx & He).
  assert (x_i = x1).
  { rewrite HX, nth_error_firstn_lt, Hx1 in Hx by lia. congruence. }
  subst x_i.
  split.
  { rewrite HX', HX. replace (i + 2) with (S (i + 1)) by lia.
    symmetry. apply firstn_snoc. exact Hx2. }
  split; [rewrite HX', length_app, LX; simpl; lia|].
  split; [rewrite Hsol', length_app, Lsol; simpl; lia|].
  exists x1, y_i, x2, [c].
  rewrite HX', Hsol', !nth_error_app1, !nth_error_app2 by lia.
  replace (i + 1 - length (X s0)) with 0 by lia.
  replace (i + 1 - length (sol s0)) with 0 by lia.
  rewrite Hkeep by lia. repeat split; auto.
Qed.

(** The rest of a call does not read the log of effects. *)
Lemma blind_rest_of_call xspan events i j g :
  io_blind (rest_of_call odeint full_output TOLERANCE xspan events i j g).
Proof.
  unfold rest_of_call. destruct g; [|apply blind_ret].
  apply blind_bind; [apply blind_events_loop|].
  intros [|]; [apply blind_grid_loop|apply blind_ret].
Qed.

End CourseFacts.

(** ** A detected crossing, to the end of its event *)

Lemma getitem_neg {A} (l : list A) (k n : nat) :
  length l = n + k -> 0 < k ->
  Py.getitem l (- Z.of_nat k) = nth_error l n.
Proof.
  intros L Hk. unfold Py.getitem. cbv zeta.
  destruct (- Z.of_nat k <? 0)%Z eqn:E1; [|apply Z.ltb_ge in E1; lia].
  destruct (- Z.of_nat k + Z.of_nat (length l) <? 0)%Z eqn:E2;
    [apply Z.ltb_lt in E2; lia|].
  f_equal. lia.
Qed.

Section Crossing.

Variable odeint : solver.
Variable full_output : option bool.
Variable TOLERANCE : float.

Local Abbreviation while' := (while_loop odeint full_output TOLERANCE).
Local Abbreviation event_step' := (event_step odeint full_output TOLERANCE).


(** What the event does once its refinement loop has ended: how the loop
    ended decides what is recorded and whether the call returns. *)
Lemma event_step_refined i j event s y x v t d b r s2 :
  nth_error (sol s) (i + 1) = Some y ->
  nth_error (X s) (i + 1) = Some x ->
  event y x = (v, t, d) ->
  lt (mul v (e s j i)) zero = true ->
  first_bracket s v (e s j i) t d b ->
  while' fuel0 j event i 0 b (set_e j (i + 1) v s) = (Done r, s2) ->
  X s2 = X s /\ sol s2 = sol s /\ e s2 = e (set_e j (i + 1) v s) /\
  events_obj s2 = events_obj s /\
  match r with
  | Capped =>
      TE s2 = TE s /\ YE s2 = YE s /\ IE s2 = IE s /\
      event_step' i j event s = (Done Go, s2)
  | Resolved t' =>
      exists b',
        reach odeint TOLERANCE event b b' /\ resolved TOLERANCE b' = true /\
        if COLLECTEVENT (direction b') v (e s j i)
        then
          TE s2 = TE s ++ [xLt b'] /\ YE s2 = YE s ++ [fLt b'] /\
          IE s2 = IE s ++ [j] /\ t' = isterminal b' /\
          event_step' i j event s
          = (Done (if t' then Stop else Go),
             if t'
             then set_sol (removelast (sol s) ++ [fLt b'])
                    (set_X (removelast (X s) ++ [xLt b']) s2)
             else s2)
        else
          TE s2 = TE s /\ YE s2 = YE s /\ IE s2 = IE s /\ t' = false /\
          event_step' i j event s = (Done Go, s2)
  end.
Proof.
  intros Hy Hx Hev Hdet Hb Hw.
  destruct (event_step_run odeint full_output TOLERANCE i j event s Hy Hx Hev)
    as [_ Hrun].
  specialize (Hrun Hdet b Hb).
  erewrite bind_run in Hrun by exact Hw.
  assert (Hobj : events_obj s2 = events_obj s).
  { pose proof (keeps_while odeint full_output TOLERANCE j event i fuel0 0 b
                  (set_e j (i + 1) v s)) as K.
    rewrite Hw in K. exact K. }
  apply while_loop_spec in Hw.
  destruct Hw as (HX & Hsol & He & Hlog).
  fields_in HX. fields_in Hsol.
  split; [exact HX|]. split; [exact Hsol|]. split; [exact He|].
  split; [exact Hobj|].
  destruct r as [t'|]; unfold log_after in Hlog;
    rewrite ?set_e_same, ?set_e_prev in Hlog; fields_in Hlog.
  - destruct Hlog as (b' & Hreach & Hres & Hlog). exists b'.
    split; [exact Hreach|]. split; [exact Hres|].
    destruct (COLLECTEVENT (direction b') v (e s j i)).
    + destruct Hlog as (HTE & HYE & HIE & Ht).
      repeat (split; [assumption|]).
      destruct t'; [|exact Hrun].
      rewrite Hrun. cbn [after_refinement].
      destruct (@truncate_returns s2) as (s3 & Htr).
      * rewrite HX. intros E. rewrite E in Hx.
        destruct (i + 1); discriminate Hx.
      * rewrite Hsol. intros E. rewrite E in Hy.
        destruct (i + 1); discriminate Hy.
      * rewrite HTE. intros E. now apply app_eq_nil in E.
      * rewrite HYE. intros E. now apply app_eq_nil in E.
      * erewrite bind_run by exact Htr. unfold ret. f_equal.
        apply truncate_spec in Htr.
        destruct Htr as (te & ye & Hte & Hye & _ & _ & ->).
        rewrite HTE, getitem_m1 in Hte. rewrite HYE, getitem_m1 in Hye.
        injection Hte as <-. injection Hye as <-.
        now rewrite HX, Hsol.
    + destruct Hlog as (HTE & HYE & HIE & ->). auto.
  - destruct Hlog as (HTE & HYE & HIE). auto.
Qed.

(** A refinement loop that fails makes the event, and with it the call,
    fail, with nothing recorded. *)
Lemma event_step_failed i j event s y x v t d b x' s2 :
  nth_error (sol s) (i + 1) = Some y ->
  nth_error (X s) (i + 1) = Some x ->
  event y x = (v, t, d) ->
  lt (mul v (e s j i)) zero = true ->
  first_bracket s v (e s j i) t d b ->
  while' fuel0 j event i 0 b (set_e j (i + 1) v s) = (Raised x', s2) ->
  X s2 = X s /\ sol s2 = sol s /\
  TE s2 = TE s /\ YE s2 = YE s /\ IE s2 = IE s /\
  event_step' i j event s = (Raised x', s2).
Proof.
  intros Hy Hx Hev Hdet Hb Hw.
  destruct (event_step_run odeint full_output TOLERANCE i j event s Hy Hx Hev)
    as [_ Hrun].
  specialize (Hrun Hdet b Hb).
  assert (Hstep : event_step' i j event s = (Raised x', s2)).
  { rewrite Hrun. unfold bind. now rewrite Hw. }
  apply while_loop_spec in Hw.
  destruct Hw as (HX & Hsol & _ & HTE & HYE & HIE).
  fields_in HX. fields_in Hsol. fields_in HTE. fields_in HYE. fields_in HIE.
  repeat (split; [assumption|]). exact Hstep.
Qed.

End Crossing.

(** ** The properties of [odelay] *)

(** C1.  A call on a grid of [n >= 2] points that returns at the end of the
    grid (no terminal event) has made [n - 2] steps: its trajectory is the
    grid without its last point, [n - 1] samples and not [n].  The loop runs
    over [xspan[0:-2]], so the last grid point is never reached.  On a grid
    of two points the result is the initial sample alone, with an empty
    event log. *)
Theorem grid_end_drops_last_point
        (func : rhs) (odeint : solver) (full_output : option bool)
        (TOLERANCE : float)
        y0 xspan events s :
  2 <= length xspan ->
  odelay func odeint full_output TOLERANCE y0 xspan events = (Done AtGridEnd, s) ->
  X s = removelast xspan /\
  length (X s) = length xspan - 1 /\
  length (sol s) = length xspan - 1 /\
  (length xspan = 2 ->
   sol s = [y0] /\ TE s = [] /\ YE s = [] /\ IE s = []).
Proof.
  intros Hn H.
  assert (H2 : length xspan = 2 ->
               sol s = [y0] /\ TE s = [] /\ YE s = [] /\ IE s = []).
  { intros L. rewrite odelay_entry in H. apply odelay_body_Done in H.
    destruct H as (x0 & rest & s1 & -> & _ & Hsol & HTE & HYE & HIE & H).
    destruct rest as [|x1 [|x2 rest]]; try discriminate L.
    cbn in H. apply ret_Done in H. destruct H as [_ <-]. auto. }
  apply odelay_log in H.
  destruct H as (x0 & rest & recs & -> & _ & _ & _ & _ & HX & smps & Hsol & Hlen & _).
  simpl in Hn.
  assert (Hrest : rest <> []) by (destruct rest; simpl in Hn; [lia|discriminate]).
  assert (HX' : X s = removelast (x0 :: rest)).
  { rewrite HX. simpl length. rewrite removelast_firstn_len.
    replace (S (length rest) - 2) with (pred (length rest)) by lia.
    simpl. destruct rest; [congruence|reflexivity]. }
  split; [exact HX'|]. split; [|split; [|exact H2]].
  - rewrite HX', removelast_firstn_len, length_firstn. simpl. lia.
  - rewrite Hsol. simpl. rewrite Hlen. unfold Py.slice_0_m2.
    rewrite length_firstn. simpl. lia.
Qed.

(** C1, at the grid [[0; 1]] with no events: one sample is returned. *)
Lemma grid_end_drops_last_point_instance :
  Cases.run [lit 0] [lit 0; lit 1] [] =
    (Done AtGridEnd, mkStore [lit 0] [[lit 0]] zeros [] [] [] [] []) /\
  X (mkStore [lit 0] [[lit 0]] zeros [] [] [] [] []) = removelast [lit 0; lit 1] /\
  length (X (mkStore [lit 0] [[lit 0]] zeros [] [] [] [] [])) = 1 /\
  length (sol (mkStore [lit 0] [[lit 0]] zeros [] [] [] [] [])) = 1.
Proof.
  split; [reflexivity|].
  destruct (@grid_end_drops_last_point Cases.plain Cases.unit_rate None
              Cases.tol
              [lit 0] [lit 0; lit 1] []
              (mkStore [lit 0] [[lit 0]] zeros [] [] [] [] []))
    as (HX & HlX & Hls & _).
  - simpl. lia.
  - reflexivity.
  - auto.
Defined.

(** C2.  When the bracket has a sign change and the trial value has the sign
    of the left value (where the left end is to be replaced), [odelay]
    replaces the right end: its test is on the right value, [eLt * new_e > 0].
    The left end stays, and the two ends of the new bracket have values of
    one sign: the sign change is lost. *)
Theorem update_loses_sign_change b new_x new_f new_e t d :
  lt (mul (ePt b) (eLt b)) zero = true ->
  gt (mul (ePt b) new_e) zero = true ->
  let b' := update b new_x new_f new_e t d in
  xPt b' = xPt b /\ ePt b' = ePt b /\
  xLt b' = new_x /\ fLt b' = [new_f] /\ eLt b' = new_e /\
  lt (mul (ePt b') (eLt b')) zero = false.
Proof.
  intros Hbr Hnew b'.
  apply lt_mul_zero in Hbr. destruct Hbr as (_ & _ & _ & _ & Hs1).
  assert (Hpos := Hnew).
  apply gt_mul_zero in Hnew. destruct Hnew as (_ & _ & _ & _ & Hs2).
  assert (Htest : gt (mul (eLt b) new_e) zero = false).
  { destruct (gt (mul (eLt b) new_e) zero) eqn:E; [|reflexivity].
    apply gt_mul_zero in E. destruct E as (_ & _ & _ & _ & Hs3).
    rewrite Hs3, <- Hs2 in Hs1.
    destruct (sign (ePt b)); discriminate Hs1. }
  subst b'. unfold update. rewrite Htest. simpl.
  repeat split; auto.
  destruct (lt (mul (ePt b) new_e) zero) eqn:E; [|reflexivity].
  apply lt_mul_zero in E. destruct E as (_ & _ & _ & _ & Hs3).
  rewrite Hs2 in Hs3. destruct (sign new_e); discriminate Hs3.
Qed.

(** C2, at the bracket of [ev_square] on [[0, 1]] with its first trial
    point [x = 0.25], where the value is [-0.75]. *)
Lemma update_loses_sign_change_instance :
  let b' := update Cases.b_square (lit 0.25) (lit 0.25) (lit (-0.75)) false 0 in
  xPt b' = lit 0 /\ ePt b' = lit (-1) /\
  xLt b' = lit 0.25 /\ fLt b' = [lit 0.25] /\ eLt b' = lit (-0.75) /\
  lt (mul (ePt b') (eLt b')) zero = false.
Proof.
  apply (@update_loses_sign_change Cases.b_square (lit 0.25) (lit 0.25)
           (lit (-0.75)) false 0); reflexivity.
Defined.

(** C3 as stated fails on [run [-1] [0; 2; 4] [ev_affine]]: the
    event value goes from [-1] to [1] over the first step, the refinement
    of this sign change ends at the cap, the policy would take the crossing
    ([direction = 0]), and the call returns an empty event log. *)
Lemma cap_drops_accepted_crossing :
  let w := while_loop Cases.unit_rate None Cases.tol fuel0 0
             Cases.ev_affine 0 0 Cases.b_affine
             (set_e 0 1 (lit 1) Cases.s_affine) in
  let r := Cases.run [lit (-1)] [lit 0; lit 2; lit 4] [Cases.ev_affine] in
  lt (mul (lit 1) (lit (-1))) zero = true /\
  fst w = Done Capped /\
  COLLECTEVENT (direction Cases.b_affine) (lit 1) (lit (-1)) = true /\
  TE (snd w) = [] /\
  fst r = Done AtGridEnd /\
  TE (snd r) = [] /\ YE (snd r) = [] /\ IE (snd r) = [] /\
  length (io (snd r)) = 101.
Proof. vm_compute. repeat split; reflexivity. Qed.

(** C3 (amended).  When the refinement of a detected sign change ends at
    the cap of 100 passes, nothing fails and nothing is recorded: the
    direction policy is not consulted, the trajectory and the event log are
    what they were, the crossing is not terminal, and the step goes on with
    the next event. *)
Theorem capped_refinement_records_nothing
        (odeint : solver) (full_output : option bool) (TOLERANCE : float)
        i j event s y x v t d b s2 :
  nth_error (sol s) (i + 1) = Some y ->
  nth_error (X s) (i + 1) = Some x ->
  event y x = (v, t, d) ->
  lt (mul v (e s j i)) zero = true ->
  first_bracket s v (e s j i) t d b ->
  while_loop odeint full_output TOLERANCE fuel0 j event i 0 b
    (set_e j (i + 1) v s) = (Done Capped, s2) ->
  event_step odeint full_output TOLERANCE i j event s = (Done Go, s2) /\
  X s2 = X s /\ sol s2 = sol s /\
  TE s2 = TE s /\ YE s2 = YE s /\ IE s2 = IE s.
Proof.
  intros Hy Hx Hev Hdet Hb Hw.
  destruct (event_step_run odeint full_output TOLERANCE i j event s Hy Hx Hev)
    as [_ Hrun].
  split.
  - rewrite (Hrun Hdet b Hb). erewrite bind_run by exact Hw. reflexivity.
  - apply while_loop_spec in Hw. simpl in Hw. tauto.
Qed.

(** C3, at the first step of [run [-1] [0; 2; 4] [ev_affine]]. *)
Lemma capped_refinement_records_nothing_instance :
  let s2 := snd (while_loop Cases.unit_rate None Cases.tol fuel0 0
                   Cases.ev_affine 0 0 Cases.b_affine
                   (set_e 0 1 (lit 1) Cases.s_affine)) in
  event_step Cases.unit_rate None Cases.tol 0 0 Cases.ev_affine
    Cases.s_affine = (Done Go, s2) /\
  X s2 = X Cases.s_affine /\ sol s2 = sol Cases.s_affine /\
  TE s2 = TE Cases.s_affine /\ YE s2 = YE Cases.s_affine /\
  IE s2 = IE Cases.s_affine.
Proof.
  apply (@capped_refinement_records_nothing Cases.unit_rate None
           Cases.tol 0 0 Cases.ev_affine Cases.s_affine
           [lit 1] (lit 2) (lit 1) false 0%Z Cases.b_affine).
  - reflexivity.
  - reflexivity.
  - reflexivity.
  - reflexivity.
  - exists (lit 2), [lit 1], (lit 0), [lit (-1)]. repeat split; reflexivity.
  - apply pair_fst_snd. vm_compute. reflexivity.
Defined.

(** C4.  When the call comes to an event of a step, the event changes sign
    over the step, and the refinement loop of the crossing ends with
    [ISTERMINAL] true, then the loop has come to a resolved bracket [b']
    that the direction policy takes and that says terminal, and the call
    returns at once, from line 199.  In what it returns, the sample of the
    grid point past the event, the last one appended, is gone, and the
    event point [(xLt b', fLt b')] stands in its place as the last sample;
    the event point is also the last record of the event log; and after the
    loop nothing else is appended and the step integrator is not called
    again. *)
Theorem terminal_event_ends_trajectory
        (func : rhs) (odeint : solver) (full_output : option bool)
        (TOLERANCE : float)
        y0 xspan events i j event s y x v t d b s2 :
  comes_to func odeint full_output TOLERANCE y0 xspan events i j event s ->
  nth_error (sol s) (i + 1) = Some y ->
  nth_error (X s) (i + 1) = Some x ->
  event y x = (v, t, d) ->
  lt (mul v (e s j i)) zero = true ->
  first_bracket s v (e s j i) t d b ->
  while_loop odeint full_output TOLERANCE fuel0 j event i 0 b
    (set_e j (i + 1) v s) = (Done (Resolved true), s2) ->
  exists b' sf,
    reach odeint TOLERANCE event b b' /\ resolved TOLERANCE b' = true /\
    accepts (direction b') v (e s j i) /\ isterminal b' = true /\
    odelay func odeint full_output TOLERANCE y0 xspan events
    = (Done AtEvent, sf) /\
    X s = firstn (i + 1) xspan ++ [x] /\
    nth_error xspan (i + 1) = Some x /\
    X sf = firstn (i + 1) xspan ++ [xLt b'] /\
    sol sf = removelast (sol s) ++ [fLt b'] /\
    length (X sf) = i + 2 /\ length (sol sf) = i + 2 /\
    TE sf = TE s ++ [xLt b'] /\ YE sf = YE s ++ [fLt b'] /\
    IE sf = IE s ++ [j] /\
    io sf = io s2.
Proof.
  intros Hc Hy Hx Hev Hdet Hb Hw.
  pose proof (comes_to_run Hc) as Hrun.
  destruct (comes_to_shape Hc)
    as (HXs & LX & Lsol & x_i & y_i & x' & y' & _ & _ & _ & Hx' & HX' & _ & _).
  assert (x' = x) by congruence. subst x'.
  destruct (@event_step_refined odeint full_output TOLERANCE i j event s
              y x v t d b (Resolved true) s2 Hy Hx Hev Hdet Hb Hw)
    as (_ & _ & _ & _ & b' & Hreach & Hres & Hlog).
  destruct (COLLECTEVENT (direction b') v (e s j i)) eqn:Hcol.
  2:{ destruct Hlog as (_ & _ & _ & Ht & _). discriminate Ht. }
  destruct Hlog as (HTE & HYE & HIE & Ht & Hstep).
  assert (Hcut : removelast (X s) = firstn (i + 1) xspan).
  { rewrite HXs. replace (i + 2) with (S (i + 1)) by lia.
    apply removelast_firstn.
    assert (i + 1 < length xspan)
      by (apply nth_error_Some; congruence).
    lia. }
  exists b', (set_sol (removelast (sol s) ++ [fLt b'])
                (set_X (removelast (X s) ++ [xLt b']) s2)).
  split; [exact Hreach|]. split; [exact Hres|].
  split; [now apply COLLECTEVENT_accepts|]. split; [now symmetry|].
  split.
  { rewrite Hrun. erewrite bind_run by exact Hstep. reflexivity. }
  fields. cbn [set_X set_sol X sol TE YE IE io].
  split.
  { rewrite <- Hcut. apply getitem_m1_inv.
    change (-1)%Z with (- Z.of_nat 1)%Z.
    rewrite (@getitem_neg _ (X s) 1 (i + 1)) by lia. exact Hx. }
  split; [exact Hx'|]. split; [now rewrite Hcut|].
  split; [reflexivity|].
  rewrite !length_app, !removelast_firstn_len, !length_firstn, LX, Lsol.
  simpl. repeat split; auto; lia.
Qed.

(** C4, at step 0 of [run [0; 10] [0; 1; 2] [ev_near 0]]: the event
    [x - 2**-24] changes sign between the grid points 0 and 1. *)
Lemma terminal_event_ends_trajectory_instance :
  let v := sub (lit 1) (lit 0x1p-24) in
  let s := Cases.s_near 0 in
  let s2 := snd (while_loop Cases.unit_rate None Cases.tol fuel0 0
                   (Cases.ev_near 0) 0 0 (Cases.b_near 0)
                   (set_e 0 (0 + 1) v s)) in
  exists b' sf,
    reach Cases.unit_rate Cases.tol (Cases.ev_near 0) (Cases.b_near 0) b' /\
    resolved Cases.tol b' = true /\
    accepts (direction b') v (e s 0 0) /\ isterminal b' = true /\
    Cases.run [lit 0; lit 10] [lit 0; lit 1; lit 2] [Cases.ev_near 0]
    = (Done AtEvent, sf) /\
    X s = firstn (0 + 1) [lit 0; lit 1; lit 2] ++ [lit 1] /\
    nth_error [lit 0; lit 1; lit 2] (0 + 1) = Some (lit 1) /\
    X sf = firstn (0 + 1) [lit 0; lit 1; lit 2] ++ [xLt b'] /\
    sol sf = removelast (sol s) ++ [fLt b'] /\
    length (X sf) = 0 + 2 /\ length (sol sf) = 0 + 2 /\
    TE sf = TE s ++ [xLt b'] /\ YE sf = YE s ++ [fLt b'] /\
    IE sf = IE s ++ [0] /\
    io sf = io s2.
Proof.
  intros v s s2.
  assert (H : fst (while_loop Cases.unit_rate None Cases.tol fuel0 0
                     (Cases.ev_near 0) 0 0 (Cases.b_near 0)
                     (set_e 0 (0 + 1) v s))
              = Done (Resolved true))
    by (vm_compute; reflexivity).
  apply pair_fst_snd in H. fold s2 in H. clearbody s2.
  refine (@terminal_event_ends_trajectory Cases.plain Cases.unit_rate None
            Cases.tol [lit 0; lit 10] [lit 0; lit 1; lit 2]
            [Cases.ev_near 0] 0 0 (Cases.ev_near 0) s [lit 1] (lit 1)
            v true 0%Z (Cases.b_near 0) s2 _ _ _ _ _ _ H).
  - exists (lit 0),
      (snd (Cases.run [lit 0; lit 10] [lit 0; lit 1] [Cases.ev_near 0])).
    split; [simpl; lia|]. split; [reflexivity|]. split; [reflexivity|].
    split; [apply pair_fst_snd|]; vm_compute; reflexivity.
  - reflexivity.
  - reflexivity.
  - reflexivity.
  - vm_compute. reflexivity.
  - exists (lit 1), [lit 1], (lit 0), [lit 0; lit 10].
    repeat split; reflexivity.
Defined.




(** C6 as stated fails on [run [0] [0; 1; 2] [ev_flat]]: the
    second pass of the refinement has the slope [(1 - 1) / (0.5 - 1)], a
    zero; the loop neither stops nor falls back on the right end; the step
    integrator is called with [+inf] and then with a NaN as its end point,
    and the loop runs to its cap. *)
Lemma zero_slope_reaches_integrator :
  let r := Cases.run [lit 0] [lit 0; lit 1; lit 2] [Cases.ev_flat] in
  slope Cases.b_flat = S754_zero true /\
  nth_error (io (snd r)) 2
  = Some (Solve [lit 0.5] (lit 0.5) (S754_infinity false)) /\
  is_finite (S754_infinity false) = false /\
  nth_error (io (snd r)) 3 = Some (Solve [lit 0.5] (lit 0.5) S754_nan) /\
  length (io (snd r)) = 101 /\
  fst r = Done AtGridEnd /\ TE (snd r) = [].
Proof. vm_compute. repeat split; reflexivity. Qed.

(** C6 (amended).  [odelay] has no guard on the slope.  In a pass whose
    slope is a zero while the left value is finite and not zero, the
    estimate is an infinity; the pass goes on, and the step integrator is
    called with that infinity as its end point.  A value of [x] that is not
    finite is never recorded in the event log: a record is made of a right
    end closer than [TOLERANCE] to the left end. *)
Theorem no_slope_guard
        (func : rhs) (odeint : solver) (full_output : option bool)
        (TOLERANCE : float) :
  (forall j event i b s,
      resolved TOLERANCE b = false ->
      is_zero (slope b) = true ->
      is_finite (ePt b) = true -> is_zero (ePt b) = false ->
      is_finite (xPt b) = true ->
      exists sg row ok,
        estimate b = S754_infinity sg /\
        odeint (fPt b) (xPt b) (S754_infinity sg) = (row, ok) /\
        io (snd (body odeint full_output TOLERANCE j event i b s)) =
        io s ++ Solve (fPt b) (xPt b) (S754_infinity sg)
             :: report full_output ok) /\
  (forall y0 xspan events ex s,
      odelay func odeint full_output TOLERANCE y0 xspan events = (Done ex, s) ->
      Forall (fun x => is_finite x = true) (TE s)).
Proof.
  split.
  - intros j event i b s Hres Hm Hfin Hnz Hx.
    destruct (opp_finite (ePt b)) as [Ho1 Ho2].
    destruct (div_by_zero (opp (ePt b)) (slope b)) as (sg & Hdiv);
      [congruence|congruence|exact Hm|].
    assert (Hest : estimate b = S754_infinity sg).
    { unfold estimate. rewrite Hdiv. now apply add_infinity. }
    destruct (odeint (fPt b) (xPt b) (S754_infinity sg)) as [row ok] eqn:Hode.
    exists sg, row, ok. split; [exact Hest|]. split; [exact Hode|].
    unfold body. rewrite Hres. cbv zeta. rewrite Hest.
    rewrite infinity_not_close.
    destruct (integrate_cases odeint full_output (fPt b) (xPt b)
                (S754_infinity sg) s)
      as (row' & ok' & Hode' & [[_ E]|[_ E]]);
      rewrite Hode in Hode'; injection Hode' as <- <-;
      unfold bind at 1; rewrite E; [reflexivity|].
    unfold index. mrun.
    destruct (Py.getitem row (-1)) as [c|]; mrun; [|reflexivity].
    destruct (event [c] (S754_infinity sg)) as [[new_e t] d]. reflexivity.
  - intros y0 xspan events ex s H. apply odelay_log in H.
    destruct H as (x0 & rest & recs & _ & -> & _ & _ & Hsound & _).
    apply Forall_map. eapply Forall_impl; [|exact Hsound].
    intros r [Hr _]. exact Hr.
Qed.

(** C6, at the bracket of [ev_flat] after its first trial point. *)
Lemma no_slope_guard_instance :
  exists sg row ok,
    estimate Cases.b_flat = S754_infinity sg /\
    Cases.unit_rate (fPt Cases.b_flat) (xPt Cases.b_flat)
      (S754_infinity sg) = (row, ok) /\
    io (snd (body Cases.unit_rate None Cases.tol 0 Cases.ev_flat 0
               Cases.b_flat empty_store)) =
    io empty_store ++ Solve (fPt Cases.b_flat) (xPt Cases.b_flat)
                        (S754_infinity sg)
                   :: report None ok.
Proof.
  apply (proj1 (@no_slope_guard Cases.plain Cases.unit_rate None Cases.tol)
           0 Cases.ev_flat 0 Cases.b_flat empty_store);
    vm_compute; reflexivity.
Defined.

(** C7 as stated fails on [run [0] [0; 1; 2] [ev_square]]: the call comes
    to the event at step 0, the event value goes from [-1] to [3] over the
    step, the direction is 0 at every evaluation, so the policy takes the
    crossing; the refinement ends at the cap, and the call returns with an
    empty event log. *)
Lemma capped_crossing_is_not_recorded :
  let xspan := [lit 0; lit 1; lit 2] in
  let r := Cases.run [lit 0] xspan [Cases.ev_square] in
  let s := snd (grid_step Cases.unit_rate None Cases.tol xspan [] 0 (lit 0)
                  (snd (Cases.run [lit 0] [lit 0; lit 1]
                          [Cases.ev_square]))) in
  let w := while_loop Cases.unit_rate None Cases.tol fuel0 0
             Cases.ev_square 0 0 Cases.b_square (set_e 0 1 (lit 3) s) in
  comes_to Cases.plain Cases.unit_rate None Cases.tol [lit 0] xspan
    [Cases.ev_square] 0 0 Cases.ev_square s /\
  nth_error (sol s) 1 = Some [lit 1] /\ nth_error (X s) 1 = Some (lit 1) /\
  Cases.ev_square [lit 1] (lit 1) = (lit 3, false, 0%Z) /\
  e s 0 0 = lit (-1) /\
  lt (mul (lit 3) (lit (-1))) zero = true /\
  first_bracket s (lit 3) (lit (-1)) false 0 Cases.b_square /\
  (forall y x, snd (Cases.ev_square y x) = 0%Z) /\
  accepts 0 (lit 3) (lit (-1)) /\
  fst w = Done Capped /\
  fst r = Done AtGridEnd /\
  TE (snd r) = [] /\ YE (snd r) = [] /\ IE (snd r) = [].
Proof.
  intros xspan r s w.
  split.
  { exists (lit 0),
      (snd (Cases.run [lit 0] [lit 0; lit 1] [Cases.ev_square])).
    split; [simpl; lia|]. split; [reflexivity|]. split; [reflexivity|].
    split; apply pair_fst_snd; vm_compute; reflexivity. }
  split; [vm_compute; reflexivity|]. split; [vm_compute; reflexivity|].
  split; [vm_compute; reflexivity|]. split; [vm_compute; reflexivity|].
  split; [vm_compute; reflexivity|].
  split.
  { exists (lit 1), [lit 1], (lit 0), [lit 0].
    repeat split; vm_compute; reflexivity. }
  split; [reflexivity|]. split; [now left|].
  vm_compute. repeat split; reflexivity.
Qed.

(** C7 (amended).  A detected crossing is recorded exactly when its
    refinement ends by the tolerance test and the direction policy takes
    it, with the direction the last evaluation of the event gave (the
    event's own direction when it has one).  When the refinement ends at
    the cap, nothing is recorded, whatever the direction, and when it
    fails, the call fails with nothing recorded.  A crossing that is
    recorded ends the call when the bracket says terminal, and lets the
    step go on when it does not; the record stays.  A crossing that is not
    recorded leaves every variable as it was after the evaluation of the
    event: the store differs in the log of effects alone, the step goes on
    with the next event, and whatever runs next without reading that log
    runs as from the store of a step without detection.  In a call that
    has come to the event, what runs next is the rest of the call: after a
    crossing that is not recorded the call has the result and the
    variables it has from the store of a step without detection, and after
    a recorded one it is the rest of the call from the store the event
    leaves. *)
Theorem direction_policy
        (odeint : solver) (full_output : option bool) (TOLERANCE : float)
        i j event s y x v t d b o s2 :
  nth_error (sol s) (i + 1) = Some y ->
  nth_error (X s) (i + 1) = Some x ->
  event y x = (v, t, d) ->
  lt (mul v (e s j i)) zero = true ->
  first_bracket s v (e s j i) t d b ->
  while_loop odeint full_output TOLERANCE fuel0 j event i 0 b
    (set_e j (i + 1) v s) = (o, s2) ->
  let s1 := set_e j (i + 1) v s in
  let same_log := TE s2 = TE s /\ YE s2 = YE s /\ IE s2 = IE s in
  let unrecorded :=
    same_log /\
    s2 = with_io (io s2) s1 /\
    event_step odeint full_output TOLERANCE i j event s = (Done Go, s2) /\
    (forall (A : Type) (k : M A), io_blind k ->
       exists l, k s2 = (fst (k s1), with_io l (snd (k s1)))) /\
    (forall func y0 xspan events,
        comes_to func odeint full_output TOLERANCE y0 xspan events
          i j event s ->
        let rest := rest_of_call odeint full_output TOLERANCE xspan events
                      i j Go in
        exists l,
          odelay func odeint full_output TOLERANCE y0 xspan events
          = (fst (rest s1), with_io l (snd (rest s1)))) in
  X s2 = X s /\ sol s2 = sol s /\
  match o with
  | Done (Resolved t') =>
      exists b',
        reach odeint TOLERANCE event b b' /\ resolved TOLERANCE b' = true /\
        ((forall y x, snd (event y x) = d) -> direction b' = d) /\
        (accepts (direction b') v (e s j i) <->
         TE s2 = TE s ++ [xLt b'] /\ YE s2 = YE s ++ [fLt b'] /\
         IE s2 = IE s ++ [j]) /\
        (accepts (direction b') v (e s j i) ->
         t' = isterminal b' /\
         exists s3,
           event_step odeint full_output TOLERANCE i j event s
           = (Done (if t' then Stop else Go), s3) /\
           TE s3 = TE s2 /\ YE s3 = YE s2 /\ IE s3 = IE s2 /\
           forall func y0 xspan events,
             comes_to func odeint full_output TOLERANCE y0 xspan events
               i j event s ->
             odelay func odeint full_output TOLERANCE y0 xspan events
             = rest_of_call odeint full_output TOLERANCE xspan events i j
                 (if t' then Stop else Go) s3) /\
        (~ accepts (direction b') v (e s j i) -> t' = false /\ unrecorded)
  | Done Capped => unrecorded
  | Raised x' =>
      same_log /\
      event_step odeint full_output TOLERANCE i j event s = (Raised x', s2)
  | OutOfFuel => False
  end.
Proof.
  intros Hy Hx Hev Hdet Hb Hw s1 same_log unrecorded.
  destruct o as [r|x'|].
  2:{ destruct (@event_step_failed odeint full_output TOLERANCE i j event s
                  y x v t d b x' s2 Hy Hx Hev Hdet Hb Hw)
        as (HX & Hsol & HTE & HYE & HIE & Hstep).
      subst same_log. auto 7. }
  2:{ exfalso.
      apply (@while_loop_fuel0 odeint full_output TOLERANCE j event i b
               (set_e j (i + 1) v s)).
      now rewrite Hw. }
  destruct (@event_step_refined odeint full_output TOLERANCE i j event s
              y x v t d b r s2 Hy Hx Hev Hdet Hb Hw)
    as (HX & Hsol & He & Hobj & H).
  split; [exact HX|]. split; [exact Hsol|].
  assert (Hun : same_log ->
                event_step odeint full_output TOLERANCE i j event s
                = (Done Go, s2) ->
                unrecorded).
  { intros (HTE & HYE & HIE) Hstep.
    assert (Hs2 : s2 = with_io (io s2) s1).
    { clear - HX Hsol He HTE HYE HIE Hobj.
      subst s1. destruct s2. unfold with_io. simpl in *. congruence. }
    assert (Hk : forall (A : Type) (k : M A), io_blind k ->
               exists l, k s2 = (fst (k s1), with_io l (snd (k s1)))).
    { intros A k Hk. destruct (Hk s1 (io s2)) as (l & E).
      exists l. rewrite <- Hs2 in E. exact E. }
    split; [subst same_log; auto|].
    split; [exact Hs2|]. split; [exact Hstep|]. split; [exact Hk|].
    intros func y0 xspan events Hc rest.
    rewrite (comes_to_run Hc). erewrite bind_run by exact Hstep.
    apply Hk. apply blind_rest_of_call. }
  destruct r as [t'|].
  - destruct H as (b' & Hreach & Hres & Hlog). exists b'.
    split; [exact Hreach|]. split; [exact Hres|].
    split.
    { intros Hd. eapply reach_direction; [exact Hd| |exact Hreach].
      destruct Hb as (? & ? & ? & ? & _ & _ & _ & _ & ->). reflexivity. }
    destruct (COLLECTEVENT (direction b') v (e s j i)) eqn:Hc.
    + apply COLLECTEVENT_accepts in Hc.
      destruct Hlog as (HTE & HYE & HIE & Ht & Hstep).
      split; [tauto|]. split; [|tauto].
      intros _. split; [exact Ht|].
      eexists. split; [exact Hstep|].
      split; [destruct t'; reflexivity|].
      split; [destruct t'; reflexivity|].
      split; [destruct t'; reflexivity|].
      intros func y0 xspan events Hct.
      rewrite (comes_to_run Hct). erewrite bind_run by exact Hstep.
      reflexivity.
    + assert (Hrej : ~ accepts (direction b') v (e s j i)).
      { intros Ha. apply COLLECTEVENT_accepts in Ha. congruence. }
      destruct Hlog as (HTE & HYE & HIE & Ht & Hstep).
      split; [|split; [tauto|]].
      * split; [tauto|]. intros (HTE' & _).
        rewrite HTE in HTE'. now apply not_self_app in HTE'.
      * intros _. split; [exact Ht|]. apply Hun; [|exact Hstep].
        subst same_log. auto.
  - destruct H as (HTE & HYE & HIE & Hstep). apply Hun; [|exact Hstep].
    subst same_log. auto.
Qed.

(** C7, at the step from 0 to 1 of [run [0; 10] [0; 1; 2] [ev_near 0]]. *)
Lemma direction_policy_instance :
  let v := sub (lit 1) (lit 0x1p-24) in
  let s := Cases.s_near 0 in
  let s2 := snd (while_loop Cases.unit_rate None Cases.tol fuel0 0
                   (Cases.ev_near 0) 0 0 (Cases.b_near 0)
                   (set_e 0 (0 + 1) v s)) in
  let s1 := set_e 0 (0 + 1) v s in
  let unrecorded :=
    (TE s2 = TE s /\ YE s2 = YE s /\ IE s2 = IE s) /\
    s2 = with_io (io s2) s1 /\
    event_step Cases.unit_rate None Cases.tol 0 0 (Cases.ev_near 0) s
    = (Done Go, s2) /\
    (forall (A : Type) (k : M A), io_blind k ->
       exists l, k s2 = (fst (k s1), with_io l (snd (k s1)))) /\
    (forall func y0 xspan events,
        comes_to func Cases.unit_rate None Cases.tol y0 xspan events
          0 0 (Cases.ev_near 0) s ->
        let rest := rest_of_call Cases.unit_rate None Cases.tol xspan events
                      0 0 Go in
        exists l,
          odelay func Cases.unit_rate None Cases.tol y0 xspan events
          = (fst (rest s1), with_io l (snd (rest s1)))) in
  X s2 = X s /\ sol s2 = sol s /\
  exists b',
    reach Cases.unit_rate Cases.tol (Cases.ev_near 0) (Cases.b_near 0) b' /\
    resolved Cases.tol b' = true /\
    ((forall y x, snd (Cases.ev_near 0 y x) = 0%Z) -> direction b' = 0%Z) /\
    (accepts (direction b') v (e s 0 0) <->
     TE s2 = TE s ++ [xLt b'] /\ YE s2 = YE s ++ [fLt b'] /\
     IE s2 = IE s ++ [0]) /\
    (accepts (direction b') v (e s 0 0) ->
     true = isterminal b' /\
     exists s3,
       event_step Cases.unit_rate None Cases.tol 0 0 (Cases.ev_near 0) s
       = (Done Stop, s3) /\
       TE s3 = TE s2 /\ YE s3 = YE s2 /\ IE s3 = IE s2 /\
       forall func y0 xspan events,
         comes_to func Cases.unit_rate None Cases.tol y0 xspan events
           0 0 (Cases.ev_near 0) s ->
         odelay func Cases.unit_rate None Cases.tol y0 xspan events
         = rest_of_call Cases.unit_rate None Cases.tol xspan events 0 0
             Stop s3) /\
    (~ accepts (direction b') v (e s 0 0) -> true = false /\ unrecorded).
Proof.
  intros v s s2.
  assert (H : fst (while_loop Cases.unit_rate None Cases.tol fuel0 0
                     (Cases.ev_near 0) 0 0 (Cases.b_near 0)
                     (set_e 0 (0 + 1) v s))
              = Done (Resolved true))
    by (vm_compute; reflexivity).
  apply pair_fst_snd in H. fold s2 in H. clearbody s2.
  refine (@direction_policy Cases.unit_rate None Cases.tol 0 0
            (Cases.ev_near 0) s [lit 1] (lit 1) v true 0%Z (Cases.b_near 0)
            (Done (Resolved true)) s2 _ _ _ _ _ H).
  - reflexivity.
  - reflexivity.
  - reflexivity.
  - vm_compute. reflexivity.
  - exists (lit 1), [lit 1], (lit 0), [lit 0; lit 10].
    repeat split; reflexivity.
Defined.



(** C9.  A call never writes to the list that its parameter [events]
    names: at the end of the call, however it ends, the list holds what it
    held at the start.  So a call that leaves [events] out hands the default
    list back to the function object as it found it, and the second of two
    calls with the same arguments starts from what the first started from:
    it has the same result, the same five lists and the same effects, and
    leaves the function object as it was. *)
Theorem calls_are_repeatable
        (func : rhs) (odeint : solver) (full_output : option bool)
        (TOLERANCE : float)
        fn y0 xspan events :
  let c1 := call fn func odeint full_output TOLERANCE y0 xspan events in
  let c2 := call (snd c1) func odeint full_output TOLERANCE y0 xspan events in
  let given := match events with
               | Some l => l
               | None => default_events fn
               end in
  events_obj (snd (fst c1)) = given /\
  snd c1 = fn /\
  c2 = c1 /\
  fst (fst c2) = fst (fst c1) /\
  outputs (snd (fst c2)) = outputs (snd (fst c1)) /\
  io (snd (fst c2)) = io (snd (fst c1)) /\
  snd c2 = fn.
Proof.
  intros c1 c2 given.
  assert (Hobj : events_obj (snd (fst c1)) = given).
  { subst c1 given. unfold call.
    destruct events as [l|]; cbn [fst snd]; apply odelay_keeps_events. }
  assert (Hfn : snd c1 = fn).
  { subst c1. unfold call. destruct events as [l|]; cbn [snd]; [reflexivity|].
    rewrite odelay_keeps_events. now destruct fn. }
  assert (Hc : c2 = c1) by (subst c2; now rewrite Hfn).
  rewrite Hc. repeat split; assumption || reflexivity.
Qed.

(** C10 as stated fails on [run [0; 10] [0; 1; 2] [ev_near 0]]:
    the only call of the step integrator returns the row [[1; 11]]; the
    trajectory gets its component 0; the zero of the event lies within the
    tolerance of the left grid point, so the loop moves the right end there
    without a trial point, and the recorded event state is the sample of the
    step, [1], a component 0 and not the last component, [11]. *)
Lemma event_state_is_component_0 :
  let r := Cases.run [lit 0; lit 10] [lit 0; lit 1; lit 2]
             [Cases.ev_near 0] in
  Cases.unit_rate [lit 0; lit 10] (lit 0) (lit 1) = ([lit 1; lit 11], true) /\
  io (snd r) = [Solve [lit 0; lit 10] (lit 0) (lit 1)] /\
  fst r = Done AtEvent /\
  TE (snd r) = [lit 0x1p-24] /\
  YE (snd r) = [[lit 1]] /\
  sol (snd r) = [[lit 0; lit 10]; [lit 1]] /\
  X (snd r) = [lit 0; lit 0x1p-24].
Proof. vm_compute. repeat split; reflexivity. Qed.

(** C10 (amended).  In a call that returns, every sample of the
    trajectory after the first is component 0 of a row the step integrator
    returned, and every recorded event state is a single component too:
    component 0 of a row or the last component of a row; at a terminal
    event the last sample is the last recorded event state.  The state of a
    trial point of the refinement is the last component of the row the step
    integrator returned for it.  The state at the right end of a bracket,
    which is what a record takes, is the state the loop started with (the
    sample of the step, a component 0) unless a trial point has replaced
    it. *)
Theorem samples_are_single_components
        (func : rhs) (odeint : solver) (full_output : option bool)
        (TOLERANCE : float) :
  (forall y0 xspan events ex s,
      odelay func odeint full_output TOLERANCE y0 xspan events = (Done ex, s) ->
      exists smps,
        Forall (component0 odeint) smps /\
        Forall (fun y => component0 odeint y \/ component_last odeint y) (YE s) /\
        match ex with
        | AtGridEnd => sol s = y0 :: smps
        | AtEvent => exists ye YE0, sol s = y0 :: smps ++ [ye] /\
                                    YE s = YE0 ++ [ye]
        end) /\
  (forall j event i b s b' s',
      body odeint full_output TOLERANCE j event i b s = (Done (Next b'), s') ->
      exists row ok c,
        odeint (fPt b) (xPt b) (estimate b) = (row, ok) /\
        Py.getitem row (-1) = Some c /\
        ((fPt b' = [c] /\ fLt b' = fLt b) \/
         (fLt b' = [c] /\ fPt b' = fPt b))) /\
  (forall event b b',
      reach odeint TOLERANCE event b b' ->
      fLt b' = fLt b \/ component_last odeint (fLt b')).
Proof.
  split; [|split].
  - intros y0 xspan events ex s H. apply odelay_log in H.
    destruct H as (x0 & rest & recs & _ & _ & HYE & _ & Hsound & Hex).
    assert (HY : Forall (fun y => component0 odeint y \/ component_last odeint y)
                   (YE s)).
    { rewrite HYE. apply Forall_map. eapply Forall_impl; [|exact Hsound].
      intros r [_ Hr]. exact Hr. }
    destruct ex.
    + destruct Hex as (k & r & l & _ & -> & _ & smps & Hsol & _ & Hs).
      exists smps. repeat split; auto.
      exists (ry r), (map ry l). split; [exact Hsol|].
      rewrite HYE, map_app. reflexivity.
    + destruct Hex as (_ & smps & Hsol & _ & Hs).
      exists smps. auto.
  - intros j event i b s b' s' H. apply body_Next in H.
    destruct H as (row & ok & c & new_e & t & d & Hode & Hrow & _ & ->).
    exists row, ok, c. split; [exact Hode|]. split; [exact Hrow|].
    unfold update. destruct (gt (mul (eLt b) new_e) zero); simpl; auto.
  - intros event b b'. apply reach_fLt.
Qed.

(** ** Further properties of [odelay] *)

(** X1.  Whatever its outcome, a call on a grid of [n] points with [m]
    events calls [odeint] at most [(n - 2) * (1 + 100 * m)] times: once for
    each step of the grid, and at most 100 times for each event at each
    step. *)
Theorem integrator_call_budget
        (func : rhs) (odeint : solver) (full_output : option bool)
        (TOLERANCE : float)
        y0 xspan events :
  solves (io (snd (odelay func odeint full_output TOLERANCE y0 xspan events)))
  <= (length xspan - 2) * (1 + 100 * length events).
Proof.
  rewrite odelay_entry.
  destruct (emits_odelay_body func odeint full_output TOLERANCE y0 xspan
              events (entry events)) as (l & E & W & _).
  rewrite E. exact W.
Qed.

(** X2.  A call prints at most once for each call of [odeint], and never
    when ['full_output'] is not among its keyword arguments, or is there
    with a false value. *)
Theorem prints_need_full_output
        (func : rhs) (odeint : solver) (full_output : option bool)
        (TOLERANCE : float)
        y0 xspan events :
  let l :=
    io (snd (odelay func odeint full_output TOLERANCE y0 xspan events)) in
  prints l <= solves l /\ (full_output <> Some true -> prints l = 0).
Proof.
  intros l. subst l. rewrite odelay_entry.
  destruct (emits_odelay_body func odeint full_output TOLERANCE y0 xspan
              events (entry events)) as (l & E & _ & W).
  rewrite E. simpl. destruct full_output as [[|]|].
  - split; [exact W|congruence].
  - split; [lia|]. intros _. lia.
  - split; [lia|]. intros _. lia.
Qed.

(** X3.  In the result of a call the three lists of the event log have one
    length, and every entry of [IE] is the index of an event of the
    call. *)
Theorem event_log_is_consistent
        (func : rhs) (odeint : solver) (full_output : option bool)
        (TOLERANCE : float)
        y0 xspan events ex s :
  odelay func odeint full_output TOLERANCE y0 xspan events = (Done ex, s) ->
  length (TE s) = length (IE s) /\ length (YE s) = length (IE s) /\
  Forall (fun j => j < length events) (IE s).
Proof.
  intros H. assert (Hlog := H). apply odelay_log in Hlog.
  destruct Hlog as (x0 & rest & recs & _ & HTE & HYE & HIE & _).
  split; [now rewrite HTE, HIE, !length_map|].
  split; [now rewrite HYE, HIE, !length_map|].
  rewrite odelay_entry in H. apply odelay_body_Done in H.
  destruct H as (x0' & rest' & s1 & _ & _ & _ & _ & _ & HIE1 & H).
  apply grid_loop_IE in H. destruct H as (js & HIE' & Hjs).
  rewrite HIE', HIE1. exact Hjs.
Qed.

(** X3, on [run [0] grid6 [ev_quad]], which records one event. *)
Lemma event_log_is_consistent_instance :
  let s := snd (Cases.run [lit 0] Cases.grid6 [Cases.ev_quad]) in
  length (TE s) = length (IE s) /\ length (YE s) = length (IE s) /\
  Forall (fun j => j < length [Cases.ev_quad]) (IE s).
Proof.
  intros s.
  assert (H : fst (Cases.run [lit 0] Cases.grid6 [Cases.ev_quad])
              = Done AtEvent)
    by (vm_compute; reflexivity).
  apply pair_fst_snd in H. fold s in H. clearbody s.
  exact (@event_log_is_consistent Cases.plain Cases.unit_rate
           None Cases.tol
           [lit 0] Cases.grid6 [Cases.ev_quad] AtEvent s H).
Defined.

(** X4.  In the result of a call every sample of the trajectory after the
    first, the sample of a terminal event apart, is component 0 of what
    [odeint] returned from the sample before it over the grid interval
    between them: a step starts from the sample the trajectory holds, and
    no event changes a sample of an earlier step. *)
Theorem trajectory_is_chained
        (func : rhs) (odeint : solver) (full_output : option bool)
        (TOLERANCE : float)
        y0 xspan events ex s :
  odelay func odeint full_output TOLERANCE y0 xspan events = (Done ex, s) ->
  forall i,
    i + 1 < length (sol s) - match ex with
                             | AtEvent => 1
                             | AtGridEnd => 0
                             end ->
    chained odeint xspan s i.
Proof.
  intros H. rewrite odelay_entry in H. apply odelay_body_Done in H.
  destruct H as (x0 & rest & s1 & -> & HX & Hsol & _ & _ & _ & H).
  eapply grid_loop_chain; [| | | |exact H].
  - now rewrite Hsol.
  - now rewrite HX.
  - intros k x Hk. unfold Py.slice_0_m2 in Hk.
    apply nth_error_firstn_Some in Hk. exact Hk.
  - intros k Hk. lia.
Qed.

(** X4, on [run [0] grid6 [ev_quad]], at its first step. *)
Lemma trajectory_is_chained_instance :
  let s := snd (Cases.run [lit 0] Cases.grid6 [Cases.ev_quad]) in
  chained Cases.unit_rate Cases.grid6 s 0.
Proof.
  intros s.
  assert (H : fst (Cases.run [lit 0] Cases.grid6 [Cases.ev_quad])
              = Done AtEvent)
    by (vm_compute; reflexivity).
  assert (L : 0 + 1 < length (sol s) - 1) by (vm_compute; lia).
  apply pair_fst_snd in H. fold s in H. clearbody s.
  exact (@trajectory_is_chained Cases.plain Cases.unit_rate
           None Cases.tol
           [lit 0] Cases.grid6 [Cases.ev_quad] AtEvent s H 0 L).
Defined.

(** X5.  The last point of a grid of two points or more has no part in a
    call: with another last point the call has the same outcome, the same
    five lists and the same calls of [odeint]. *)
Theorem last_grid_point_is_ignored
        (func : rhs) (odeint : solver) (full_output : option bool)
        (TOLERANCE : float)
        y0 x0 xs a b events :
  odelay func odeint full_output TOLERANCE y0 (x0 :: xs ++ [a]) events =
  odelay func odeint full_output TOLERANCE y0 (x0 :: xs ++ [b]) events.
Proof.
  rewrite !odelay_entry, !odelay_body_reset.
  destruct (func y0 x0) as [x|]; [reflexivity|].
  assert (Hslice : forall c,
             Py.slice_0_m2 (x0 :: xs ++ [c]) = firstn (length xs) (x0 :: xs)).
  { intros c. unfold Py.slice_0_m2.
    replace (length (x0 :: xs ++ [c]) - 2) with (length xs)
      by (simpl; rewrite length_app; simpl; lia).
    change (x0 :: xs ++ [c]) with ((x0 :: xs) ++ [c]).
    rewrite firstn_app.
    replace (length xs - length (x0 :: xs)) with 0 by (simpl; lia).
    simpl firstn at 2. now rewrite app_nil_r. }
  rewrite !Hslice.
  rewrite (@grid_loop_ext odeint full_output TOLERANCE
             (x0 :: xs ++ [a]) (x0 :: xs ++ [b]) events
             (firstn (length xs) (x0 :: xs)) 0); [reflexivity|].
  intros k Hk. rewrite length_firstn in Hk. simpl in Hk.
  simpl. rewrite !nth_error_app1 by lia. reflexivity.
Qed.

(** X6.  A call whose events never say terminal does not end at an event:
    when it returns, it returns from the end of the grid. *)
Theorem nonterminal_events_never_stop
        (func : rhs) (odeint : solver) (full_output : option bool)
        (TOLERANCE : float)
        y0 xspan events :
  Forall (fun event : event_fn =>
            forall y x, snd (fst (event y x)) = false) events ->
  fst (odelay func odeint full_output TOLERANCE y0 xspan events) <> Done AtEvent.
Proof.
  intros Hall H. apply pair_fst_snd in H.
  apply odelay_inert in H; [discriminate H|].
  eapply Forall_impl; [|exact Hall].
  intros event. apply nonterminal_inert.
Qed.

(** X6, on [run [-1] [0; 2; 4] [ev_affine]]. *)
Lemma nonterminal_events_never_stop_instance :
  fst (Cases.run [lit (-1)] [lit 0; lit 2; lit 4] [Cases.ev_affine])
  <> Done AtEvent.
Proof.
  apply (@nonterminal_events_never_stop Cases.plain Cases.unit_rate
           None Cases.tol
           [lit (-1)] [lit 0; lit 2; lit 4] [Cases.ev_affine]).
  repeat constructor.
Defined.

(** X7.  An event whose direction is a constant other than 0, 1 and -1 is
    never recorded and never ends the call: a call with such events alone
    returns from the end of the grid with an empty event log. *)
Theorem stray_direction_records_nothing
        (func : rhs) (odeint : solver) (full_output : option bool)
        (TOLERANCE : float)
        y0 xspan events ex s :
  Forall (fun event : event_fn =>
            exists d, (forall y x, snd (event y x) = d) /\
                      d <> 0%Z /\ d <> 1%Z /\ d <> (-1)%Z) events ->
  odelay func odeint full_output TOLERANCE y0 xspan events = (Done ex, s) ->
  ex = AtGridEnd /\ TE s = [] /\ YE s = [] /\ IE s = [].
Proof.
  intros Hall H. split.
  - eapply odelay_inert; [|exact H].
    eapply Forall_impl; [|exact Hall].
    intros event (d & Hd & H0 & H1 & Hm1).
    now destruct (stray_direction odeint full_output TOLERANCE event
                    Hd H0 H1 Hm1).
  - eapply odelay_mute; [|exact H].
    eapply Forall_impl; [|exact Hall].
    intros event (d & Hd & H0 & H1 & Hm1).
    now destruct (stray_direction odeint full_output TOLERANCE event
                    Hd H0 H1 Hm1).
Qed.

(** X7, on [run [0; 10] [0; 1; 2] [ev_near 2]]: the same call with
    direction 0 records the crossing and ends at it. *)
Lemma stray_direction_records_nothing_instance :
  let s := snd (Cases.run [lit 0; lit 10] [lit 0; lit 1; lit 2]
                  [Cases.ev_near 2]) in
  AtGridEnd = AtGridEnd /\ TE s = [] /\ YE s = [] /\ IE s = [].
Proof.
  intros s.
  assert (H : fst (Cases.run [lit 0; lit 10] [lit 0; lit 1; lit 2]
                     [Cases.ev_near 2]) = Done AtGridEnd)
    by (vm_compute; reflexivity).
  apply pair_fst_snd in H. fold s in H. clearbody s.
  refine (@stray_direction_records_nothing Cases.plain Cases.unit_rate
           None Cases.tol
            [lit 0; lit 10] [lit 0; lit 1; lit 2] [Cases.ev_near 2]
            AtGridEnd s _ H).
  constructor; [|constructor].
  exists 2%Z. repeat split; intros; discriminate.
Defined.

(** X8.  With a [TOLERANCE] that is not above zero (zero, negative or a
    NaN) no crossing is ever located: a call that returns has an empty
    event log and has not ended at an event, whatever its events. *)
Theorem tolerance_must_be_positive
        (func : rhs) (odeint : solver) (full_output : option bool)
        (TOLERANCE : float)
        y0 xspan events ex s :
  lt zero TOLERANCE = false ->
  odelay func odeint full_output TOLERANCE y0 xspan events = (Done ex, s) ->
  ex = AtGridEnd /\ TE s = [] /\ YE s = [] /\ IE s = [].
Proof.
  intros Htol H.
  assert (Hall : forall P : event_fn -> Prop,
             (forall event, P event) -> Forall P events).
  { intros P HP. apply Forall_forall. intros event _. apply HP. }
  split.
  - eapply odelay_inert; [|exact H]. apply Hall. intros event.
    now destruct (@no_tolerance odeint full_output TOLERANCE event Htol).
  - eapply odelay_mute; [|exact H]. apply Hall. intros event.
    now destruct (@no_tolerance odeint full_output TOLERANCE event Htol).
Qed.

(** X8, on the call [odelay(..., [0], grid6, [ev_quad], TOLERANCE=0)]; with
    the default tolerance this call ends at the event. *)
Lemma tolerance_must_be_positive_instance :
  let s := snd (odelay Cases.plain Cases.unit_rate None zero [lit 0] Cases.grid6
                  [Cases.ev_quad]) in
  AtGridEnd = AtGridEnd /\ TE s = [] /\ YE s = [] /\ IE s = [].
Proof.
  intros s.
  assert (H : fst (odelay Cases.plain Cases.unit_rate None zero [lit 0] Cases.grid6
                     [Cases.ev_quad]) = Done AtGridEnd)
    by (vm_compute; reflexivity).
  apply pair_fst_snd in H. fold s in H. clearbody s.
  refine (@tolerance_must_be_positive Cases.plain Cases.unit_rate
           None zero
            [lit 0] Cases.grid6 [Cases.ev_quad] AtGridEnd s _ H).
  reflexivity.
Defined.

(** ** The properties of [deriv] and [nlinfit] *)

(** X9.  With the method ['two-point'], on arrays [x] and [y] of one length
    [n >= 2], [deriv] returns [n] values: at [i] the difference quotient
    between the neighbours [i - 1] and [i + 1] of [i], and at the two ends
    between the end and its one neighbour. *)
Theorem deriv_two_point_values
        (spectral : Np.array -> Np.array -> Np.result (option Np.array))
        (x y : Np.array) :
  length x = length y -> 2 <= length y ->
  exists dydx,
    deriv spectral x y Method.two_point = Np.Ok (Some dydx) /\
    length dydx = length y /\
    forall i, i < length y ->
      nth_error dydx i =
      Some (quotient x y (Nat.min (i + 1) (length y - 1)) (i - 1)).
Proof.
  intros Hxy Hn. unfold deriv.
  change (String.eqb Method.two_point Method.two_point) with true.
  cbv iota. pose proof (two_point_cases x y) as H.
  destruct (two_point x y) as [r|er]; [|exfalso; apply H; lia].
  destruct H as (_ & _ & _ & dydx & -> & Hlen & Hval).
  exists dydx. auto.
Qed.

(** X9, on [x = [0, 1, 2, 4]] and [y = x**2]. *)
Lemma deriv_two_point_values_instance :
  exists dydx,
    deriv Samples.no_spectral Samples.x4 Samples.y4 Method.two_point
    = Np.Ok (Some dydx) /\
    length dydx = length Samples.y4 /\
    forall i, i < length Samples.y4 ->
      nth_error dydx i =
      Some (quotient Samples.x4 Samples.y4
              (Nat.min (i + 1) (length Samples.y4 - 1)) (i - 1)).
Proof.
  apply (@deriv_two_point_values Samples.no_spectral Samples.x4 Samples.y4).
  - reflexivity.
  - simpl. lia.
Defined.

(** X10.  With the method ['two-point'], [deriv] returns exactly when [y]
    and [x] have two points or more and [x] has the length of [y] or the
    length 3: the lengths of the two arrays are not compared, and an [x]
    of three points goes with a [y] of any length. *)
Theorem deriv_two_point_accepts
        (spectral : Np.array -> Np.array -> Np.result (option Np.array))
        (x y : Np.array) :
  (exists r, deriv spectral x y Method.two_point = Np.Ok r) <->
  2 <= length y /\ 2 <= length x /\
  (length x = length y \/ length x = 3).
Proof.
  unfold deriv.
  change (String.eqb Method.two_point Method.two_point) with true.
  cbv iota. pose proof (two_point_cases x y) as H.
  destruct (two_point x y) as [r|er].
  - split; [intros _; tauto|intros _; now exists r].
  - split; [intros (r & Hr); discriminate Hr|intros Hc; now apply H in Hc].
Qed.

(** X11.  With the method ['four-point'], on arrays of one length
    [n >= 3], [deriv] returns [n] values: the five-point stencil over the
    spacing [x[1] - x[0]] at the places from 2 to [n - 3], and one-sided
    difference quotients at the two first and the two last places; at
    [n = 3] the middle place holds the quotient between the places 0
    and 1. *)
Theorem deriv_four_point_values
        (spectral : Np.array -> Np.array -> Np.result (option Np.array))
        (x y : Np.array) :
  length x = length y -> 3 <= length y ->
  exists dydx,
    deriv spectral x y Method.four_point = Np.Ok (Some dydx) /\
    length dydx = length y /\
    nth_error dydx 0 = Some (quotient x y 1 0) /\
    (4 <= length y -> nth_error dydx 1 = Some (quotient x y 2 1)) /\
    nth_error dydx (length y - 2)
    = Some (quotient x y (length y - 2) (length y - 3)) /\
    nth_error dydx (length y - 1)
    = Some (quotient x y (length y - 1) (length y - 2)) /\
    forall i, 2 <= i -> i + 2 < length y ->
      nth_error dydx i =
      Some (div (sub (add (sub (nth (i - 2) y zero)
                               (mul (lit 8) (nth (i - 1) y zero)))
                          (mul (lit 8) (nth (i + 1) y zero)))
                     (nth (i + 2) y zero))
                (mul (lit 12) (sub (nth 1 x zero) (nth 0 x zero)))).
Proof.
  intros Hxy Hn. unfold deriv.
  change (String.eqb Method.four_point Method.two_point) with false.
  change (String.eqb Method.four_point Method.four_point) with true.
  cbv iota. pose proof (four_point_cases x y) as H.
  destruct (four_point x y) as [r|er]; [|exfalso; apply H; lia].
  destruct H as (_ & _ & dydx & -> & Hlen & Hval).
  exists dydx. split; [reflexivity|]. split; [exact Hlen|].
  apply Hval. exact Hxy.
Qed.

(** X11, on [x = [0, 1, 2, 4]] and [y = x**2]. *)
Lemma deriv_four_point_values_instance :
  exists dydx,
    deriv Samples.no_spectral Samples.x4 Samples.y4 Method.four_point
    = Np.Ok (Some dydx) /\
    length dydx = length Samples.y4 /\
    nth_error dydx 0 = Some (quotient Samples.x4 Samples.y4 1 0) /\
    (4 <= length Samples.y4 ->
     nth_error dydx 1 = Some (quotient Samples.x4 Samples.y4 2 1)) /\
    nth_error dydx (length Samples.y4 - 2)
    = Some (quotient Samples.x4 Samples.y4
              (length Samples.y4 - 2) (length Samples.y4 - 3)) /\
    nth_error dydx (length Samples.y4 - 1)
    = Some (quotient Samples.x4 Samples.y4
              (length Samples.y4 - 1) (length Samples.y4 - 2)) /\
    forall i, 2 <= i -> i + 2 < length Samples.y4 ->
      nth_error dydx i =
      Some (div (sub (add (sub (nth (i - 2) Samples.y4 zero)
                               (mul (lit 8) (nth (i - 1) Samples.y4 zero)))
                          (mul (lit 8) (nth (i + 1) Samples.y4 zero)))
                     (nth (i + 2) Samples.y4 zero))
                (mul (lit 12)
                   (sub (nth 1 Samples.x4 zero) (nth 0 Samples.x4 zero)))).
Proof.
  apply (@deriv_four_point_values Samples.no_spectral Samples.x4
           Samples.y4).
  - reflexivity.
  - simpl. lia.
Defined.

(** X12.  With the method ['four-point'], [deriv] returns exactly when [x]
    and [y] have three points or more each: nothing in it compares the
    length of [x] with the length of [y]. *)
Theorem deriv_four_point_accepts
        (spectral : Np.array -> Np.array -> Np.result (option Np.array))
        (x y : Np.array) :
  (exists r, deriv spectral x y Method.four_point = Np.Ok r) <->
  3 <= length y /\ 3 <= length x.
Proof.
  unfold deriv.
  change (String.eqb Method.four_point Method.two_point) with false.
  change (String.eqb Method.four_point Method.four_point) with true.
  cbv iota. pose proof (four_point_cases x y) as H.
  destruct (four_point x y) as [r|er].
  - split; [intros _; tauto|intros _; now exists r].
  - split; [intros (r & Hr); discriminate Hr|intros Hc; now apply H in Hc].
Qed.

(** X14.  The wavenumbers of the method ['fft'] for [N >= 1] points are [N]
    integers: [i] at a place [i] below [N / 2], zero at the place [N / 2],
    and [i - N] at a place above it.  The two branches of the parity test
    build the same list; for an odd [N] it holds [-(N - 1) / 2] and not
    [(N - 1) / 2]. *)
Theorem wavenumbers_closed_form (n : nat) :
  0 < n ->
  length (wavenumbers (Z.of_nat n)) = n /\
  forall i, i < n ->
    nth i (wavenumbers (Z.of_nat n)) 0%Z =
    if i <? n / 2 then Z.of_nat i
    else if i =? n / 2 then 0%Z
    else (Z.of_nat i - Z.of_nat n)%Z.
Proof.
  intros Hn. rewrite wavenumbers_eq.
  assert (Hh : (Z.of_nat n / 2)%Z = Z.of_nat (n / 2))
    by (now rewrite (Nat2Z.inj_div n 2)).
  rewrite Hh.
  assert (Hlt : n / 2 < n) by (apply Nat.div_lt; lia).
  split.
  - rewrite !length_app, !length_range. cbn [length]. lia.
  - intros i Hi.
    destruct (i <? n / 2) eqn:E1.
    + apply Nat.ltb_lt in E1.
      rewrite app_nth1 by (rewrite length_range; lia).
      rewrite nth_range by lia. lia.
    + apply Nat.ltb_ge in E1.
      rewrite app_nth2 by (rewrite length_range; lia).
      rewrite length_range.
      replace (Z.to_nat (Z.of_nat (n / 2) - 0)) with (n / 2) by lia.
      destruct (i =? n / 2) eqn:E2.
      * apply Nat.eqb_eq in E2. subst i. now rewrite Nat.sub_diag.
      * apply Nat.eqb_neq in E2.
        destruct (i - n / 2) as [|k] eqn:D; [lia|].
        cbn [app nth]. rewrite nth_range by lia. lia.
Qed.

(** X14, for five points: the list is [[0; 1; 0; -2; -1]]. *)
Lemma wavenumbers_closed_form_instance :
  length (wavenumbers (Z.of_nat 5)) = 5 /\
  forall i, i < 5 ->
    nth i (wavenumbers (Z.of_nat 5)) 0%Z =
    if i <? 5 / 2 then Z.of_nat i
    else if i =? 5 / 2 then 0%Z
    else (Z.of_nat i - Z.of_nat 5)%Z.
Proof. apply (@wavenumbers_closed_form 5). lia. Defined.

(** X15.  [nlinfit] returns the parameters as [curve_fit] gave them, and
    for each of the first [min(n, p, d)] of them ([n] data points, [p]
    parameters, [d] diagonal entries of the covariance) a standard error
    [sigma = var**0.5] and the interval from [p - sigma * tval] to
    [p + sigma * tval], with one [tval] for all of them, taken at
    [max(0, n - p)] degrees of freedom. *)
Theorem nlinfit_intervals
        (ppf : float -> Z -> float) (pow : float -> float -> float)
        (pars : list float) (pcov : list (list float)) (n : nat)
        (alpha : float) :
  let r := nlinfit ppf pow pars pcov n alpha in
  let k := Nat.min n (Nat.min (length pars) (length (diag pcov))) in
  let tval := ppf (sub (lit 1) (div alpha (lit 2)))
                  (Z.max 0 (Z.of_nat n - Z.of_nat (length pars))) in
  fst (fst r) = pars /\
  length (snd r) = k /\ length (snd (fst r)) = k /\
  forall i, i < k ->
    let sigma := pow (nth i (diag pcov) zero) (lit 0.5) in
    nth_error (snd r) i = Some sigma /\
    nth_error (snd (fst r)) i =
    Some [sub (nth i pars zero) (mul sigma tval);
          add (nth i pars zero) (mul sigma tval)].
Proof.
  intros r k tval. subst r. unfold nlinfit. fold tval.
  rewrite nlinfit_loop. cbn [fst snd app].
  split; [reflexivity|].
  rewrite !length_map, !length_combine, length_seq. fold k.
  split; [reflexivity|]. split; [reflexivity|].
  intros i Hi. subst k.
  rewrite !nth_error_map, !nth_error_combine, nth_error_seq.
  replace (i <? n) with true by (symmetry; apply Nat.ltb_lt; lia).
  rewrite (nth_error_nth' pars zero (n := i)) by lia.
  rewrite (nth_error_nth' (diag pcov) zero (n := i)) by lia.
  cbn [option_map fst snd]. split; reflexivity.
Qed.
